(** * rollup-plugin-dts: the declaration transformer

    A shallow embedding of [dist/rollup-plugin-dts.mjs]: the namespace
    fixer that runs on finished chunks, the pre-processing pass over a
    declaration file, the scope tracker [DeclarationScope] and the
    [Transformer] that turns a declaration file into the ESTree program
    handed to rollup.

    The TypeScript parser, rollup and the [magic-string] buffer are external
    to the plugin.  Parsed nodes are data (the fields the plugin reads,
    with the offsets the parser reports), and the text buffer is an
    interface ([MagicString]) the pre-processor is generic in. *)

From Stdlib Require Import DecimalString DecimalN.
From stdpp Require Import gmap strings list.
From Equations Require Import Equations.

Open Scope Z_scope.

(** ** Exceptions and stateful computations *)

(** What the parser reports about a node: [node.getFullStart()],
    [node.getStart()] and [node.getEnd()]. *)
Record Pos := mkPos { getFullStart : Z; getStart : Z; getEnd : Z }.

(** [start] / [end] of an ESTree node. *)
Record Range := mkRange { start : Z; end_ : Z }.

(** The two exceptions the plugin can raise: its own
    [UnsupportedSyntaxError(node, message)] and the [TypeError] of the
    JavaScript runtime (destructuring [undefined]). *)
Inductive Error :=
| UnsupportedSyntaxError (node : Pos) (message : string)
| TypeError (message : string).

Inductive Result (A : Type) :=
| Ok (a : A)
| Throw (e : Error).
Arguments Ok {A} a.
Arguments Throw {A} e.

(** the double quote character (code 34), and [s] between double quotes *)
Definition dquote : Ascii.ascii :=
  Ascii.Ascii false true false false false true false false.
Definition quoted (s : string) : string :=
  String dquote (s +:+ String dquote EmptyString).

(** A method that reads and writes a state [S] and may throw. *)
Definition M (S A : Type) : Type := S → Result (A * S).

Definition ret {S A} (a : A) : M S A := λ s, Ok (a, s).
Definition throw {S A} (e : Error) : M S A := λ _, Throw e.
Definition bind {S A B} (m : M S A) (k : A → M S B) : M S B :=
  λ s, match m s with
       | Ok (a, s') => k a s'
       | Throw e => Throw e
       end.
Definition get {S} : M S S := λ s, Ok (s, s).
Definition modify {S} (f : S → S) : M S unit := λ s, Ok (tt, f s).

Declare Scope m_scope.
Delimit Scope m_scope with M.
Notation "'let*' x ':=' m 'in' k" := (bind m (λ x, k))
  (at level 20, x name, m at level 100, k at level 200) : m_scope.
Notation "m1 '>>' m2" := (bind m1 (λ _, m2))
  (at level 100, m2 at level 200, right associativity) : m_scope.
Open Scope m_scope.

Section loops.
Context {S A : Type} (f : A → M S unit).

(** [for (const x of l) f(x)] *)
Fixpoint forEach (l : list A) : M S unit :=
  match l with
  | [] => ret tt
  | x :: l' => f x >> forEach l'
  end.

(** a call whose argument may be [undefined] *)
Definition whenSome (o : option A) : M S unit :=
  match o with
  | Some x => f x
  | None => ret tt
  end.
End loops.

(** ** ESTree nodes the transformer emits *)

Inductive ESExpr :=
| ES_Literal (value : string)
| ES_Identifier (name : string) (range : Range)
| ES_MemberExpression (object property : ESExpr) (range : Range).

(** [{ type: "AssignmentPattern", left: { type: "Identifier", name }, right }]:
    the marker of one reference. *)
Record AssignmentPattern := mkReference { left : string; right : ESExpr }.

(** [IDs] is a JavaScript number that starts at 1 and only ever grows by
    one; numbers are exact on the integers a run can reach, so the counter
    is a natural number and [String(n)] its decimal numeral. *)
Definition String_ (n : N) : string := NilZero.string_of_uint (N.to_uint n).

(** [createReference(id)]: [_ = ${id}], with a fresh left-hand name. *)
Definition createReference (id : ESExpr) (IDs : N) : AssignmentPattern * N :=
  ({| left := String_ IDs; right := id |}, (IDs + 1)%N).

(** ** Parsed TypeScript nodes, as the transformer reads them *)

Scheme All for list.
Scheme All for option.

(** An identifier: [node.getText()], the name as the file writes it, and
    [ts.idText(node)], the name with its unicode escapes resolved. *)
Record Identifier := mkIdentifier { getText : string; idText : string; id_pos : Pos }.

Inductive EntityName :=
| EN_Identifier (id : Identifier)
| EN_QualifiedName (left_ : EntityName) (right_ : Identifier) (pos : Pos).

Inductive MemberName :=
| MN_Identifier (id : Identifier)
| MN_PrivateIdentifier (pos : Pos).

Inductive Expression :=
| E_Literal (text : string) (pos : Pos)
| E_PropertyAccess (expression : Expression) (name : MemberName) (pos : Pos)
| E_Identifier (id : Identifier)
| E_Other (pos : Pos).

(** [node.name] of a member or signature: only a computed name matters. *)
Inductive PropertyName :=
| PN_Computed (expression : Expression)
| PN_Plain.

Inductive TypeNode :=
| TN_Ignored
| TN_TypeReference (typeName : EntityName) (typeArguments : option (list TypeNode))
| TN_TypeLiteral (members : list TypeElement)
| TN_Array (elementType : TypeNode)
| TN_Tuple (elements : list TypeNode)
| TN_NamedTupleMember (type : TypeNode)
| TN_Parenthesized (type : TypeNode)
| TN_TypeOperator (type : TypeNode)
| TN_TypePredicate (type : option TypeNode)
| TN_Union (types : list TypeNode)
| TN_Intersection (types : list TypeNode)
| TN_Mapped (typeParameter : TypeParameterDeclaration)
            (type : option TypeNode) (nameType : option TypeNode)
| TN_Conditional (checkType extendsType trueType falseType : TypeNode)
| TN_IndexedAccess (objectType indexType : TypeNode)
| TN_FunctionOrConstructor (sig : SignatureDeclaration)
| TN_TypeQuery (exprName : EntityName)
| TN_Rest (type : TypeNode)
| TN_Optional (type : TypeNode)
| TN_TemplateLiteral (templateSpans : list TypeNode)
| TN_Infer (typeParameterName : Identifier)
| TN_Unsupported (pos : Pos)
with TypeElement :=
| TE_Property (name : option PropertyName) (type : option TypeNode)
| TE_Signature (sig : SignatureDeclaration)
| TE_Unsupported (pos : Pos)
with SignatureDeclaration :=
| Signature (name : option PropertyName)
            (typeParameters : option (list TypeParameterDeclaration))
            (parameters : list (option TypeNode))
            (type : option TypeNode)
with TypeParameterDeclaration :=
| TypeParameter (name : Identifier)
                (constraint : option TypeNode) (default : option TypeNode).

Scheme TypeNode_mind := Induction for TypeNode Sort Prop
with TypeElement_mind := Induction for TypeElement Sort Prop
with SignatureDeclaration_mind := Induction for SignatureDeclaration Sort Prop
with TypeParameterDeclaration_mind := Induction for TypeParameterDeclaration Sort Prop.
Combined Scheme TypeNode_mutind from TypeNode_mind, TypeElement_mind,
  SignatureDeclaration_mind, TypeParameterDeclaration_mind.

Definition Expression_pos (e : Expression) : Pos :=
  match e with
  | E_Literal _ p | E_PropertyAccess _ _ p | E_Other p => p
  | E_Identifier i => id_pos i
  end.

(** [withStartEnd(esNode, node)] reads [node.getStart()] and [node.getEnd()]. *)
Definition rangeOf (p : Pos) : Range := {| start := getStart p; end_ := getEnd p |}.

Definition createIdentifier (node : Identifier) : ESExpr :=
  ES_Identifier (getText node) (rangeOf (id_pos node)).

Fixpoint convertExpression (node : Expression) : Result ESExpr :=
  match node with
  | E_Literal text _ => Ok (ES_Literal text)
  | E_PropertyAccess expression name _ =>
      match name with
      | MN_PrivateIdentifier p =>
          Throw (UnsupportedSyntaxError p "Syntax not yet supported")
      | MN_Identifier property =>
          match convertExpression expression with
          | Ok object =>
              Ok (ES_MemberExpression object (createIdentifier property)
                    {| start := getStart (Expression_pos expression);
                       end_ := getEnd (id_pos property) |})
          | Throw e => Throw e
          end
      end
  | E_Identifier i => Ok (createIdentifier i)
  | E_Other p => Throw (UnsupportedSyntaxError p "Syntax not yet supported")
  end.

(** ** Statements of a declaration file, as the transformer reads them *)

Inductive BindingName :=
| BN_Identifier (id : Identifier)
| BN_Pattern.

Record VariableDeclaration := mkVariableDeclaration {
  vd_name : BindingName;
  vd_type : option TypeNode;
  vd_pos : Pos
}.

(** one [type] of a heritage clause: [type.expression] and [type.typeArguments] *)
Record ExpressionWithTypeArguments := mkHeritageType {
  ht_expression : Expression;
  ht_typeArguments : option (list TypeNode)
}.

(** a heritage clause is the list [heritage.types] *)
Definition HeritageClause : Type := list ExpressionWithTypeArguments.

(** what class and interface declarations share *)
Record ClassLike := mkClassLike {
  cl_typeParameters : option (list TypeParameterDeclaration);
  cl_heritageClauses : option (list HeritageClause);
  cl_members : list TypeElement
}.

Record ExportSpecifier := mkExportSpecifier {
  es_name : Identifier;
  es_propertyName : option Identifier
}.

Inductive ExportClause :=
| NamespaceExport (name : Identifier) (pos : Pos)
| NamedExports (elements : list ExportSpecifier).

Inductive NamedImportBindings :=
| NamedImports (elements : list ExportSpecifier)
| NamespaceImport (name : Identifier).

Record ImportClause := mkImportClause {
  ic_name : option Identifier;
  ic_namedBindings : option NamedImportBindings
}.

Inductive ModuleReference :=
| ExternalModuleReference (expression : Expression)
| InternalModuleReference.

Inductive ModuleName :=
| ModuleName_Identifier (id : Identifier)
| ModuleName_StringLiteral.

(** [body] of a module declaration is [Some statements] when it is a
    [ModuleBlock], and [None] when it is missing or another module
    declaration ([namespace A.B { }]). *)
Inductive Statement :=
| EnumDeclaration (pos : Pos) (name : Identifier)
| FunctionDeclaration (pos : Pos) (name : option Identifier)
    (typeParameters : option (list TypeParameterDeclaration))
    (parameters : list (option TypeNode)) (type : option TypeNode)
| InterfaceDeclaration (pos : Pos) (name : Identifier) (decl : ClassLike)
| ClassDeclaration (pos : Pos) (name : option Identifier) (decl : ClassLike)
| TypeAliasDeclaration (pos : Pos) (name : Identifier)
    (typeParameters : option (list TypeParameterDeclaration)) (type : TypeNode)
| VariableStatement (pos : Pos) (declarations : list VariableDeclaration)
| ExportDeclaration (pos : Pos) (moduleSpecifier : option Expression)
    (exportClause : option ExportClause)
| ExportAssignment (pos : Pos) (expression : Expression)
| ModuleDeclaration (pos : Pos) (globalAugmentation : bool) (name : ModuleName)
    (body : option (list Statement))
| NamespaceExportDeclaration (pos : Pos)
| ImportDeclaration (pos : Pos) (moduleSpecifier : Expression)
    (importClause : option ImportClause)
| ImportEqualsDeclaration (pos : Pos) (name : Identifier)
    (moduleReference : ModuleReference)
| OtherStatement (pos : Pos).

Definition Statement_pos (node : Statement) : Pos :=
  match node with
  | EnumDeclaration p _ | FunctionDeclaration p _ _ _ _
  | InterfaceDeclaration p _ _ | ClassDeclaration p _ _
  | TypeAliasDeclaration p _ _ _ | VariableStatement p _
  | ExportDeclaration p _ _ | ExportAssignment p _
  | ModuleDeclaration p _ _ _ | NamespaceExportDeclaration p
  | ImportDeclaration p _ _ | ImportEqualsDeclaration p _ _
  | OtherStatement p => p
  end.

(** ** The scope tracker: [class DeclarationScope] *)

(** [scope.declaration]: the function node whose [params] collect the
    references ([id] is [null] for the function inside an IIFE). *)
Record FunctionNode := mkFunctionNode {
  fn_id : option ESExpr;
  params : list AssignmentPattern;
  fn_range : Range
}.

(** [scope.iife]: the call statement that wraps an anonymous scope;
    its single argument is [scope.declaration]. *)
Record IIFENode := mkIIFE { callee : string; iife_range : Range }.

Record DeclarationScope := mkScope {
  scopes : list (gset string);
  declaration : FunctionNode;
  iife : option IIFENode
}.

(** A method of [DeclarationScope] runs on [this] and the module-level
    counter [IDs]. *)
Definition ScopeM (A : Type) : Type := M (DeclarationScope * N) A.

Definition with_scopes (f : list (gset string) → list (gset string))
    (this : DeclarationScope) : DeclarationScope :=
  {| scopes := f (scopes this); declaration := declaration this; iife := iife this |}.

(** [l[l.length - 1]?.add(name)] *)
Fixpoint addToLast (name : string) (l : list (gset string)) : list (gset string) :=
  match l with
  | [] => []
  | [top] => [top ∪ {[name]}]
  | s :: l' => s :: addToLast name l'
  end.

Module DeclarationScope.

Definition pushScope : ScopeM unit :=
  modify (λ '(this, IDs), (with_scopes (λ l, l ++ [∅]) this, IDs)).

(** [Array.prototype.pop] leaves an empty array empty. *)
Fixpoint popScope (n : nat) : ScopeM unit :=
  match n with
  | O => ret tt
  | S n' => modify (λ '(this, IDs), (with_scopes (λ l, removelast l) this, IDs)) >> popScope n'
  end.

Definition pushTypeVariable (id : Identifier) : ScopeM unit :=
  modify (λ '(this, IDs), (with_scopes (addToLast (getText id)) this, IDs)).

Definition pushRaw (expr : AssignmentPattern) : ScopeM unit :=
  modify (λ '(this, IDs),
    ({| scopes := scopes this;
        declaration := {| fn_id := fn_id (declaration this);
                          params := params (declaration this) ++ [expr];
                          fn_range := fn_range (declaration this) |};
        iife := iife this |}, IDs)).

(** The name [pushReference] looks up: the identifier itself, or the
    object of a member expression when that object is an identifier. *)
Definition referenceName (id : ESExpr) : option string :=
  match id with
  | ES_Identifier name _ => Some name
  | ES_MemberExpression (ES_Identifier name _) _ _ => Some name
  | _ => None
  end.

Definition boundIn (name : string) (scopes : list (gset string)) : bool :=
  existsb (λ scope : gset string, bool_decide (name ∈ scope)) scopes.

Definition pushReference (id : ESExpr) : ScopeM unit :=
  λ '(this, IDs),
    match referenceName id with
    | Some name =>
        if bool_decide (name ≠ EmptyString) && boundIn name (scopes this)
        then Ok (tt, (this, IDs))
        else let '(ref, IDs') := createReference id IDs in
             pushRaw ref (this, IDs')
    | None =>
        let '(ref, IDs') := createReference id IDs in
        pushRaw ref (this, IDs')
    end.

Definition pushIdentifierReference (id : Identifier) : ScopeM unit :=
  pushReference (createIdentifier id).

Fixpoint convertEntityName (node : EntityName) : ESExpr :=
  match node with
  | EN_Identifier i => createIdentifier i
  | EN_QualifiedName l r p =>
      ES_MemberExpression (convertEntityName l) (createIdentifier r) (rangeOf p)
  end.

(** [convertPropertyAccess(node)] for [node = expression.name] at [pos]. *)
Fixpoint convertPropertyAccess (expression : Expression) (name : MemberName)
    (pos : Pos) : Result ESExpr :=
  match expression with
  | E_Identifier i =>
      match name with
      | MN_PrivateIdentifier p =>
          Throw (UnsupportedSyntaxError p "Syntax not yet supported")
      | MN_Identifier property =>
          Ok (ES_MemberExpression (createIdentifier i)
                (createIdentifier property) (rangeOf pos))
      end
  | E_PropertyAccess expression' name' pos' =>
      match name with
      | MN_PrivateIdentifier p =>
          Throw (UnsupportedSyntaxError p "Syntax not yet supported")
      | MN_Identifier property =>
          match convertPropertyAccess expression' name' pos' with
          | Ok object =>
              Ok (ES_MemberExpression object (createIdentifier property) (rangeOf pos))
          | Throw e => Throw e
          end
      end
  | E_Literal _ p | E_Other p =>
      Throw (UnsupportedSyntaxError p "Syntax not yet supported")
  end.

Definition liftResult {A} (r : Result A) : ScopeM A :=
  λ s, match r with Ok a => Ok (a, s) | Throw e => Throw e end.

Definition convertComputedPropertyName (name : option PropertyName) : ScopeM unit :=
  match name with
  | Some (PN_Computed expression) =>
      match expression with
      | E_Literal _ _ => ret tt
      | E_Identifier i => pushReference (createIdentifier i)
      | E_PropertyAccess e n p =>
          let* r := liftResult (convertPropertyAccess e n p) in pushReference r
      | E_Other p => throw (UnsupportedSyntaxError p "Syntax not yet supported")
      end
  | _ => ret tt
  end.

Fixpoint convertTypeNode (node : TypeNode) : ScopeM unit :=
  match node with
  | TN_Ignored => ret tt
  | TN_TypeReference typeName typeArguments =>
      pushReference (convertEntityName typeName) >>
      whenSome (forEach convertTypeNode) typeArguments
  | TN_TypeLiteral members => forEach convertMember members
  | TN_Array elementType => convertTypeNode elementType
  | TN_Tuple elements => forEach convertTypeNode elements
  | TN_NamedTupleMember type
  | TN_Parenthesized type
  | TN_TypeOperator type => convertTypeNode type
  | TN_TypePredicate type => whenSome convertTypeNode type
  | TN_Union types
  | TN_Intersection types => forEach convertTypeNode types
  | TN_Mapped (TypeParameter name constraint _) type nameType =>
      whenSome convertTypeNode constraint >>
      pushScope >>
      pushTypeVariable name >>
      whenSome convertTypeNode type >>
      whenSome convertTypeNode nameType >>
      popScope 1
  | TN_Conditional checkType extendsType trueType falseType =>
      convertTypeNode checkType >>
      pushScope >>
      convertTypeNode extendsType >>
      convertTypeNode trueType >>
      convertTypeNode falseType >>
      popScope 1
  | TN_IndexedAccess objectType indexType =>
      convertTypeNode objectType >> convertTypeNode indexType
  | TN_FunctionOrConstructor sig => convertParametersAndType sig
  | TN_TypeQuery exprName => pushReference (convertEntityName exprName)
  | TN_Rest type => convertTypeNode type
  | TN_Optional type => convertTypeNode type
  | TN_TemplateLiteral templateSpans => forEach convertTypeNode templateSpans
  | TN_Infer typeParameterName => pushTypeVariable typeParameterName
  | TN_Unsupported p => throw (UnsupportedSyntaxError p "Syntax not yet supported")
  end
(** one iteration of the loop of [convertMembers] *)
with convertMember (node : TypeElement) : ScopeM unit :=
  match node with
  | TE_Property name type =>
      convertComputedPropertyName name >> whenSome convertTypeNode type
  | TE_Signature sig => convertParametersAndType sig
  | TE_Unsupported p => throw (UnsupportedSyntaxError p "Syntax not yet supported")
  end
with convertParametersAndType (node : SignatureDeclaration) : ScopeM unit :=
  match node with
  | Signature name typeParameters parameters type =>
      convertComputedPropertyName name >>
      whenSome (forEach convertTypeParameter) typeParameters >>
      forEach (whenSome convertTypeNode) parameters >>
      whenSome convertTypeNode type >>
      popScope (from_option length 0%nat typeParameters)
  end
(** one iteration of the loop of [convertTypeParameters] *)
with convertTypeParameter (node : TypeParameterDeclaration) : ScopeM unit :=
  match node with
  | TypeParameter name constraint default =>
      whenSome convertTypeNode constraint >>
      whenSome convertTypeNode default >>
      pushScope >>
      pushTypeVariable name
  end.

Definition convertMembers (members : list TypeElement) : ScopeM unit :=
  forEach convertMember members.

(** [convertTypeParameters(params)] returns the number of scopes pushed. *)
Definition convertTypeParameters (params : option (list TypeParameterDeclaration))
    : ScopeM nat :=
  match params with
  | None => ret 0%nat
  | Some l => forEach convertTypeParameter l >> ret (length l)
  end.


Definition convertTypeArguments (typeArguments : option (list TypeNode)) : ScopeM unit :=
  whenSome (forEach convertTypeNode) typeArguments.

Definition convertHeritageClauses (heritageClauses : option (list HeritageClause))
    : ScopeM unit :=
  forEach (forEach (λ type : ExpressionWithTypeArguments,
    let* r := liftResult (convertExpression (ht_expression type)) in
    pushReference r >>
    convertTypeArguments (ht_typeArguments type)))
    (default [] heritageClauses).

(** the body of the class / interface / type alias cases, shared by the
    namespace walk and the top-level statements *)
Definition convertClassLike (decl : ClassLike) : ScopeM unit :=
  let* typeVariables := convertTypeParameters (cl_typeParameters decl) in
  convertHeritageClauses (cl_heritageClauses decl) >>
  convertMembers (cl_members decl) >>
  popScope typeVariables.

Definition convertTypeAlias (typeParameters : option (list TypeParameterDeclaration))
    (type : TypeNode) : ScopeM unit :=
  let* typeVariables := convertTypeParameters typeParameters in
  convertTypeNode type >>
  popScope typeVariables.

(** [convertParametersAndType(stmt)] on a function declaration, whose
    name is never computed *)
Definition convertFunctionSignature (name : option Identifier)
    (typeParameters : option (list TypeParameterDeclaration))
    (parameters : list (option TypeNode)) (type : option TypeNode) : ScopeM unit :=
  convertParametersAndType
    (Signature ((λ _, PN_Plain) <$> name) typeParameters parameters type).

Definition hoistName (stmt : Statement) (name : option Identifier) : ScopeM unit :=
  match name with
  | Some id => pushTypeVariable id
  | None => throw (UnsupportedSyntaxError (Statement_pos stmt)
                     "non-Identifier name not supported")
  end.

(** first loop of [convertNamespace]: hoist the declared names *)
Definition hoist (stmt : Statement) : ScopeM unit :=
  match stmt with
  | EnumDeclaration _ name | InterfaceDeclaration _ name _
  | TypeAliasDeclaration _ name _ _ => hoistName stmt (Some name)
  | FunctionDeclaration _ name _ _ _ | ClassDeclaration _ name _ =>
      hoistName stmt name
  | ModuleDeclaration _ _ name _ =>
      hoistName stmt
        match name with ModuleName_Identifier id => Some id | _ => None end
  | VariableStatement _ declarations =>
      forEach (λ decl,
        match vd_name decl with
        | BN_Identifier id => pushTypeVariable id
        | BN_Pattern => throw (UnsupportedSyntaxError (vd_pos decl)
                                 "non-Identifier name not supported")
        end) declarations
  | ExportDeclaration _ _ _ => ret tt
  | _ => throw (UnsupportedSyntaxError (Statement_pos stmt)
                  "namespace child (hoisting) not supported yet")
  end.

(** second loop of [convertNamespace]: walk one child; [convertNamespace]
    is the method itself, called on nested namespaces *)
Definition walkChild (convertNamespace : Statement → ScopeM unit) (stmt : Statement)
    : ScopeM unit :=
  match stmt with
  | VariableStatement _ declarations =>
      forEach (λ decl, whenSome convertTypeNode (vd_type decl)) declarations
  | FunctionDeclaration _ name typeParameters parameters type =>
      convertFunctionSignature name typeParameters parameters type
  | InterfaceDeclaration _ _ decl | ClassDeclaration _ _ decl =>
      convertClassLike decl
  | TypeAliasDeclaration _ _ typeParameters type =>
      convertTypeAlias typeParameters type
  | ModuleDeclaration _ _ _ _ => convertNamespace stmt
  | EnumDeclaration _ _ => ret tt
  | ExportDeclaration _ _ exportClause =>
      match exportClause with
      | Some (NamespaceExport _ p) =>
          throw (UnsupportedSyntaxError p "Syntax not yet supported")
      | Some (NamedExports elements) =>
          forEach (λ decl,
            pushIdentifierReference
              (default (es_name decl) (es_propertyName decl))) elements
      | None => ret tt
      end
  | _ => throw (UnsupportedSyntaxError (Statement_pos stmt)
                  "namespace child (walking) not supported yet")
  end.

Fixpoint convertNamespace (node : Statement) : ScopeM unit :=
  pushScope >>
  match node with
  | ModuleDeclaration _ _ _ (Some statements) =>
      (* first, hoist all the declarations for correct shadowing *)
      forEach hoist statements >>
      (* and then walk all the children like normal… *)
      forEach (walkChild convertNamespace) statements >>
      popScope 1
  | _ => throw (UnsupportedSyntaxError (Statement_pos node)
                  ("namespace must have a " +:+ quoted "ModuleBlock" +:+ " body."))
  end.

End DeclarationScope.

(** ** The graph builder: [class Transformer] *)

Record ESExportSpecifier := mkESExportSpecifier { exported : ESExpr; local : ESExpr }.

Inductive ESImportSpecifier :=
| ImportSpecifier (local imported : ESExpr)
| ImportNamespaceSpecifier (local : ESExpr)
| ImportDefaultSpecifier (local : ESExpr).

(** The statements of [ast.body] that no [DeclarationScope] owns. *)
Inductive ESStatement :=
| ES_RemoveMe (range : Range)
| ES_ExportDefaultDeclaration (declaration : ESExpr) (range : Range)
| ES_ExportAllDeclaration (source exported : option ESExpr) (range : Range)
| ES_ExportNamedDeclaration (specifiers : list ESExportSpecifier)
    (source : option ESExpr) (range : Range)
| ES_ImportDeclaration (specifiers : list ESImportSpecifier)
    (source : ESExpr) (range : Range).

(** [ast.body] is the arena of the objects the transformer shares: the
    statement a [DeclarationScope] pushes (its [declaration], or its [iife]
    when it has no name) is stored with the scope object that owns it, and
    the index in [ast.body] stands for the object, in [declarations] and in
    the handle [createDeclaration] returns.  Statements are only ever
    appended, so an index keeps designating the same object. *)
Inductive BodyNode :=
| N_Scope (scope : DeclarationScope)
| N_Statement (st : ESStatement).

Definition set_ESStatement_range (r : Range) (st : ESStatement) : ESStatement :=
  match st with
  | ES_RemoveMe _ => ES_RemoveMe r
  | ES_ExportDefaultDeclaration d _ => ES_ExportDefaultDeclaration d r
  | ES_ExportAllDeclaration s e _ => ES_ExportAllDeclaration s e r
  | ES_ExportNamedDeclaration sp s _ => ES_ExportNamedDeclaration sp s r
  | ES_ImportDeclaration sp s _ => ES_ImportDeclaration sp s r
  end.

Definition ESStatement_range (st : ESStatement) : Range :=
  match st with
  | ES_RemoveMe r | ES_ExportDefaultDeclaration _ r | ES_ExportAllDeclaration _ _ r
  | ES_ExportNamedDeclaration _ _ r | ES_ImportDeclaration _ _ r => r
  end.

Definition set_fn_range (r : Range) (fn : FunctionNode) : FunctionNode :=
  {| fn_id := fn_id fn; params := params fn; fn_range := r |}.

(** [start] / [end] of the statement in [ast.body], and their update *)
Definition BodyNode_range (n : BodyNode) : Range :=
  match n with
  | N_Scope sc =>
      match iife sc with
      | Some f => iife_range f
      | None => fn_range (declaration sc)
      end
  | N_Statement st => ESStatement_range st
  end.

Definition set_BodyNode_range (r : Range) (n : BodyNode) : BodyNode :=
  match n with
  | N_Scope sc =>
      match iife sc with
      | Some f =>
          N_Scope {| scopes := scopes sc; declaration := declaration sc;
                     iife := Some {| callee := callee f; iife_range := r |} |}
      | None =>
          N_Scope {| scopes := scopes sc;
                     declaration := set_fn_range r (declaration sc); iife := None |}
      end
  | N_Statement st => N_Statement (set_ESStatement_range r st)
  end.

(** [createIIFE(range)]: [(function (_ = MARKER) {})()] *)
Definition createIIFE (range : Range) (IDs : N) : (FunctionNode * IIFENode) * N :=
  (({| fn_id := None; params := []; fn_range := range |},
    {| callee := String_ IDs; iife_range := range |}), (IDs + 1)%N).

(** [createDeclaration(id, range)]: [function ${id}(_ = MARKER) {}] *)
Definition createDeclaration (id : Identifier) (range : Range) : FunctionNode :=
  {| fn_id := Some (ES_Identifier (idText id) (rangeOf (id_pos id)));
     params := []; fn_range := range |}.

(** [new DeclarationScope({ id, range })] *)
Definition newDeclarationScope (id : option Identifier) (range : Range) (IDs : N)
    : DeclarationScope * N :=
  match id with
  | Some id =>
      ({| scopes := []; declaration := createDeclaration id range; iife := None |}, IDs)
  | None =>
      let '((fn, iife), IDs') := createIIFE range IDs in
      ({| scopes := []; declaration := fn; iife := Some iife |}, IDs')
  end.

Record Transformer := mkTransformer {
  ast_range : Range;
  ast_body : list BodyNode;
  typeReferences : gset string;
  declarations : gmap string nat;
  exports : gset string
}.

Record SourceFile := mkSourceFile {
  sf_pos : Pos;
  statements : list Statement
}.

(** A method of [Transformer] runs on [this] and the counter [IDs]. *)
Definition TransM (A : Type) : Type := M (Transformer * N) A.

Definition with_body (f : list BodyNode → list BodyNode) (this : Transformer)
    : Transformer :=
  {| ast_range := ast_range this; ast_body := f (ast_body this);
     typeReferences := typeReferences this;
     declarations := declarations this; exports := exports this |}.

(** [decl.start = decl.end = range.end] for every statement after [selfIdx] *)
Definition bumpAfter (selfIdx : nat) (end' : Z) (body : list BodyNode) : list BodyNode :=
  take (S selfIdx) body ++
  map (set_BodyNode_range {| start := end'; end_ := end' |}) (drop (S selfIdx) body).

(** [existingScope.declaration.end = range.end] *)
Definition set_declaration_end (end' : Z) (n : BodyNode) : BodyNode :=
  match n with
  | N_Scope sc =>
      N_Scope {| scopes := scopes sc;
                 declaration :=
                   set_fn_range {| start := start (fn_range (declaration sc));
                                   end_ := end' |} (declaration sc);
                 iife := iife sc |}
  | N_Statement st => N_Statement st
  end.

Module Transformer.

(** Call a method of the scope object at index [scope] of [ast.body]. *)
Definition onScope {A} (scope : nat) (m : ScopeM A) : TransM A :=
  λ '(this, IDs),
    match ast_body this !! scope with
    | Some (N_Scope sc) =>
        match m (sc, IDs) with
        | Ok (a, (sc', IDs')) =>
            Ok (a, (with_body (λ body, <[scope := N_Scope sc']> body) this, IDs'))
        | Throw e => Throw e
        end
    | _ => Throw (TypeError "not a DeclarationScope")
    end.

Definition pushStatement (node : BodyNode) : TransM unit :=
  modify (λ '(this, IDs), (with_body (λ body, body ++ [node]) this, IDs)).

Definition createDeclaration (node : Pos) (id : option Identifier) : TransM nat :=
  let range := {| start := getFullStart node; end_ := getEnd node |} in
  match id with
  | None =>
      λ '(this, IDs),
        let '(scope, IDs') := newDeclarationScope None range IDs in
        Ok (length (ast_body this),
            (with_body (λ body, body ++ [N_Scope scope]) this, IDs'))
  | Some id =>
      let name := getText id in
      λ '(this, IDs),
        let '(scope, IDs) := newDeclarationScope (Some id) range IDs in
        match declarations this !! name with
        | Some existingScope =>
            (onScope existingScope (DeclarationScope.pushIdentifierReference id) >>
             modify (λ '(this, IDs),
               (with_body (λ body,
                  bumpAfter existingScope (end_ range)
                    (alter (set_declaration_end (end_ range)) existingScope body))
                  this, IDs)) >>
             ret existingScope) (this, IDs)
        | None =>
            Ok (length (ast_body this),
                ({| ast_range := ast_range this;
                    ast_body := ast_body this ++ [N_Scope scope];
                    typeReferences := typeReferences this;
                    declarations := <[name := length (ast_body this)]> (declarations this);
                    exports := exports this |}, IDs))
        end
  end.

Definition removeStatement (node : Pos) : TransM unit :=
  pushStatement (N_Statement (ES_RemoveMe (rangeOf node))).

Definition liftResult {A} (r : Result A) : TransM A :=
  λ s, match r with Ok a => Ok (a, s) | Throw e => Throw e end.

Definition convertNamespaceDeclaration (node : Statement) (globalAugmentation : bool)
    (name : ModuleName) : TransM unit :=
  match globalAugmentation, name with
  | false, ModuleName_Identifier id =>
      let* scope := createDeclaration (Statement_pos node) (Some id) in
      onScope scope (DeclarationScope.pushIdentifierReference id) >>
      onScope scope (DeclarationScope.convertNamespace node)
  | _, _ =>
      let* scope := createDeclaration (Statement_pos node) None in
      onScope scope (DeclarationScope.convertNamespace node)
  end.

Definition convertEnumDeclaration (node : Pos) (name : Identifier) : TransM unit :=
  let* scope := createDeclaration node (Some name) in
  onScope scope (DeclarationScope.pushIdentifierReference name).

Definition convertFunctionDeclaration (node : Pos) (name : option Identifier)
    (typeParameters : option (list TypeParameterDeclaration))
    (parameters : list (option TypeNode)) (type : option TypeNode) : TransM unit :=
  match name with
  | None => throw (UnsupportedSyntaxError node "FunctionDeclaration should have a name")
  | Some id =>
      let* scope := createDeclaration node (Some id) in
      onScope scope (DeclarationScope.pushIdentifierReference id) >>
      onScope scope
        (DeclarationScope.convertFunctionSignature name typeParameters parameters type)
  end.

Definition convertClassOrInterfaceDeclaration (node : Pos) (name : option Identifier)
    (decl : ClassLike) : TransM unit :=
  match name with
  | None =>
      throw (UnsupportedSyntaxError node
               "ClassDeclaration / InterfaceDeclaration should have a name")
  | Some id =>
      let* scope := createDeclaration node (Some id) in
      onScope scope (DeclarationScope.convertClassLike decl)
  end.

Definition convertTypeAliasDeclaration (node : Pos) (name : Identifier)
    (typeParameters : option (list TypeParameterDeclaration)) (type : TypeNode)
    : TransM unit :=
  let* scope := createDeclaration node (Some name) in
  onScope scope (DeclarationScope.convertTypeAlias typeParameters type).

Definition convertVariableStatement (node : Pos)
    (declarations : list VariableDeclaration) : TransM unit :=
  match declarations with
  | [decl] =>
      match vd_name decl with
      | BN_Identifier id =>
          let* scope := createDeclaration node (Some id) in
          onScope scope (whenSome DeclarationScope.convertTypeNode (vd_type decl))
      | BN_Pattern =>
          throw (UnsupportedSyntaxError node "VariableDeclaration must have a name")
      end
  | _ =>
      throw (UnsupportedSyntaxError node
               "VariableStatement with more than one declaration not yet supported")
  end.

Definition convertExportSpecifier (node : ExportSpecifier) : ESExportSpecifier :=
  let exported := createIdentifier (es_name node) in
  {| exported := exported;
     local := match es_propertyName node with
              | Some p => createIdentifier p
              | None => exported
              end |}.

Definition convertExportDeclaration (node : Pos) (moduleSpecifier : option Expression)
    (exportClause : option ExportClause) : TransM unit :=
  let* source :=
    liftResult match moduleSpecifier with
               | Some e => match convertExpression e with
                           | Ok s => Ok (Some s)
                           | Throw err => Throw err
                           end
               | None => Ok None
               end in
  match exportClause with
  | None =>
      pushStatement (N_Statement (ES_ExportAllDeclaration source None (rangeOf node)))
  | Some (NamespaceExport name _) =>
      pushStatement (N_Statement
        (ES_ExportAllDeclaration source (Some (createIdentifier name)) (rangeOf node)))
  | Some (NamedExports elements) =>
      pushStatement (N_Statement
        (ES_ExportNamedDeclaration (map convertExportSpecifier elements) source
           (rangeOf node)))
  end.

Definition convertExportAssignment (node : Pos) (expression : Expression) : TransM unit :=
  let* declaration := liftResult (convertExpression expression) in
  pushStatement (N_Statement (ES_ExportDefaultDeclaration declaration (rangeOf node))).

Definition convertNamedImportBindings (node : NamedImportBindings)
    : list ESImportSpecifier :=
  match node with
  | NamedImports elements =>
      map (λ el,
        let local := createIdentifier (es_name el) in
        ImportSpecifier local
          match es_propertyName el with
          | Some p => createIdentifier p
          | None => local
          end) elements
  | NamespaceImport name => [ImportNamespaceSpecifier (createIdentifier name)]
  end.

Definition convertImportDeclaration (node : Pos) (moduleSpecifier : Expression)
    (importClause : option ImportClause) : TransM unit :=
  let* source := liftResult (convertExpression moduleSpecifier) in
  let specifiers :=
    match importClause with
    | Some {| ic_namedBindings := Some namedBindings |} =>
        convertNamedImportBindings namedBindings
    | _ => []
    end in
  let specifiers :=
    match importClause with
    | Some {| ic_name := Some name |} =>
        specifiers ++ [ImportDefaultSpecifier (createIdentifier name)]
    | _ => specifiers
    end in
  pushStatement (N_Statement (ES_ImportDeclaration specifiers source (rangeOf node))).

Definition convertImportEqualsDeclaration (node : Pos) (name : Identifier)
    (moduleReference : ModuleReference) : TransM unit :=
  match moduleReference with
  | InternalModuleReference =>
      throw (UnsupportedSyntaxError node "ImportEquals should have a literal source.")
  | ExternalModuleReference expression =>
      let* source := liftResult (convertExpression expression) in
      pushStatement (N_Statement
        (ES_ImportDeclaration [ImportDefaultSpecifier (createIdentifier name)] source
           (rangeOf node)))
  end.

Definition convertStatement (node : Statement) : TransM unit :=
  match node with
  | EnumDeclaration p name => convertEnumDeclaration p name
  | FunctionDeclaration p name typeParameters parameters type =>
      convertFunctionDeclaration p name typeParameters parameters type
  | InterfaceDeclaration p name decl =>
      convertClassOrInterfaceDeclaration p (Some name) decl
  | ClassDeclaration p name decl => convertClassOrInterfaceDeclaration p name decl
  | TypeAliasDeclaration p name typeParameters type =>
      convertTypeAliasDeclaration p name typeParameters type
  | VariableStatement p declarations => convertVariableStatement p declarations
  | ExportDeclaration p moduleSpecifier exportClause =>
      convertExportDeclaration p moduleSpecifier exportClause
  | ExportAssignment p expression => convertExportAssignment p expression
  | ModuleDeclaration _ globalAugmentation name _ =>
      convertNamespaceDeclaration node globalAugmentation name
  | NamespaceExportDeclaration p => removeStatement p
  | ImportDeclaration p moduleSpecifier importClause =>
      convertImportDeclaration p moduleSpecifier importClause
  | ImportEqualsDeclaration p name moduleReference =>
      convertImportEqualsDeclaration p name moduleReference
  | OtherStatement p => throw (UnsupportedSyntaxError p "Syntax not yet supported")
  end.

(** [createProgram(sourceFile)] and the fields the constructor sets *)
Definition init (sourceFile : SourceFile) : Transformer :=
  {| ast_range := {| start := getFullStart (sf_pos sourceFile);
                     end_ := getEnd (sf_pos sourceFile) |};
     ast_body := []; typeReferences := ∅; declarations := ∅; exports := ∅ |}.

(** [new Transformer(sourceFile)], started with the counter at [IDs] *)
Definition new (sourceFile : SourceFile) (IDs : N) : Result (Transformer * N) :=
  match forEach convertStatement (statements sourceFile) (init sourceFile, IDs) with
  | Ok (_, s) => Ok s
  | Throw e => Throw e
  end.

(** [transform()] returns [{ ast, typeReferences }] *)
Definition transform (this : Transformer) : list BodyNode * gset string :=
  (ast_body this, typeReferences this).

End Transformer.

(** ** JavaScript strings *)

(** Strings are sequences of characters and offsets count characters.
    [s.slice(from, to)], with the clamping [String.prototype.slice] does. *)
Definition clampIndex (len i : Z) : Z :=
  if i <? 0 then Z.max (len + i) 0 else Z.min i len.

Definition js_slice (s : string) (from to : Z) : string :=
  let len := Z.of_nat (String.length s) in
  let from := clampIndex len from in
  let to := clampIndex len to in
  String.substring (Z.to_nat from) (Z.to_nat (to - from)) s.

(** [s.slice(from)] *)
Definition js_slice_from (s : string) (from : Z) : string :=
  js_slice s from (Z.of_nat (String.length s)).

Definition startsWith (s pre : string) : bool := String.prefix pre s.

Definition endsWith (s suf : string) : bool :=
  (String.length suf <=? String.length s)%nat &&
  String.eqb (String.substring (String.length s - String.length suf)
                (String.length suf) s) suf.

Definition includes (s pat : string) : bool :=
  bool_decide (is_Some (String.index 0 pat s)).

(** the line feed, [\n] in the source *)
Definition newline : string := String (Ascii.ascii_of_nat 10) EmptyString.

(** [[x0, x1, ...].join(sep)] *)
Fixpoint join (sep : string) (l : list string) : string :=
  match l with
  | [] => EmptyString
  | [x] => x
  | x :: l' => x +:+ sep +:+ join sep l'
  end.

(** ** The namespace reconstructor: [class NamespaceFixer] *)

Module NamespaceFixer.

(** What [findNamespaces] and [fix] read of a statement of the chunk. *)
Inductive Property :=
| PropertyAssignment (pos : Pos)
    (name : option string)          (* its text, when [prop.name] is an identifier *)
    (initializer : option string)   (* its text, when [prop.initializer] is an identifier *)
| OtherProperty (pos : Pos).        (* shorthand, spread, method, accessor *)

Inductive CallArgument :=
| ObjectLiteralExpression (properties : list Property)
| OtherArgument.

Inductive Initializer :=
| CallExpression (expression_getFullText : string) (argument0 : option CallArgument)
| OtherInitializer.

Record VariableDeclaration := mkVariableDeclaration {
  name_getText : string;
  initializer : option Initializer
}.

Inductive Statement :=
| EmptyStatement (pos : Pos)
| ImportOrExportDeclaration (pos : Pos)
    (moduleSpecifier : option (string * Z))  (* text and getEnd() of a string literal *)
| ClassDeclaration (pos : Pos)
    (name : option string)          (* [node.name] is undefined for a default *)
    (typeParameters : option nat)   (* export without a name                  *)
| FunctionDeclaration (pos : Pos) (name : option string)
| InterfaceDeclaration (pos : Pos) (name : string) (typeParameters : option nat)
| TypeAliasDeclaration (pos : Pos) (name : string) (typeParameters : option nat)
| ModuleDeclaration (pos : Pos) (name : option string) (* an identifier name *)
| EnumDeclaration (pos : Pos) (name : string)
| VariableStatement (pos : Pos) (declarations : list VariableDeclaration)
| OtherStatement (pos : Pos).

Definition Statement_pos (node : Statement) : Pos :=
  match node with
  | EmptyStatement p | ImportOrExportDeclaration p _ | ClassDeclaration p _ _
  | FunctionDeclaration p _ | InterfaceDeclaration p _ _
  | TypeAliasDeclaration p _ _ | ModuleDeclaration p _ | EnumDeclaration p _
  | VariableStatement p _ | OtherStatement p => p
  end.

Record SourceFile := mkSourceFile {
  getFullText : string;
  statements : list Statement
}.

Record Export := mkExport { exportedName : string; localName : string }.

Record Namespace := mkNamespace {
  name : string;
  exports : list Export;
  location : Range
}.

(** [{ type, generics }]; [generics] is [undefined] when the statement
    has no type parameters or its kind records none. *)
Record Item := mkItem { type : string; generics : option nat }.

(** [items] is a plain object used as a map.  An assignment to the key
    [__proto__] does not create a property: it replaces the prototype of
    [items], which is [Object.prototype] until then. *)
Record Items := mkItems { own : gmap string Item; proto : option Item }.

Definition Object_prototype_keys : list string :=
  [ "constructor"; "__defineGetter__"; "__defineSetter__"; "hasOwnProperty";
    "__lookupGetter__"; "__lookupSetter__"; "isPrototypeOf";
    "propertyIsEnumerable"; "toString"; "valueOf"; "__proto__";
    "toLocaleString" ].

(** [items[key] = item] *)
Definition items_set (key : string) (item : Item) (items : Items) : Items :=
  if bool_decide (key = "__proto__")
  then {| own := own items; proto := Some item |}
  else {| own := <[key := item]> (own items); proto := proto items |}.

(** What [items[key]] evaluates to, as far as destructuring
    [{ type, generics }] from it can tell. *)
Inductive Lookup :=
| L_Item (item : Item)   (* an item object *)
| L_Other                (* another value: both fields come out [undefined] *)
| L_Undefined.           (* [undefined]: destructuring throws *)

Definition items_get (items : Items) (key : string) : Lookup :=
  match own items !! key with
  | Some item => L_Item item
  | None =>
      match proto items with
      | Some p =>
          if bool_decide (key = "__proto__") then L_Item p
          else if bool_decide (key = "type") then L_Other
          else if bool_decide (key = "generics")
               then match generics p with Some _ => L_Other | None => L_Undefined end
          else if bool_decide (key ∈ Object_prototype_keys) then L_Other
          else L_Undefined
      | None =>
          if bool_decide (key ∈ Object_prototype_keys) then L_Other
          else L_Undefined
      end
  end.

(** The property loop of [findNamespaces]. *)
Fixpoint collectExports (properties : list Property) (exports : list Export)
    : Result (list Export) :=
  match properties with
  | [] => Ok exports
  | prop :: rest =>
      match prop with
      | PropertyAssignment pos (Some name) initializer =>
          if bool_decide (name = "__proto__") then collectExports rest exports
          else match initializer with
               | Some localName =>
                   collectExports rest
                     (exports ++ [{| exportedName := name; localName := localName |}])
               | None =>
                   Throw (UnsupportedSyntaxError pos "Expected a property assignment")
               end
      | PropertyAssignment pos None _ | OtherProperty pos =>
          Throw (UnsupportedSyntaxError pos "Expected a property assignment")
      end
  end.

Definition location_of (node : Statement) : Range :=
  {| start := getStart (Statement_pos node); end_ := getEnd (Statement_pos node) |}.

(** One iteration of the statement loop of [findNamespaces], on the
    pair [(namespaces, items)]. *)
Definition findNamespaces_step (node : Statement)
    (acc : list Namespace * Items) : Result (list Namespace * Items) :=
  let '(namespaces, items) := acc in
  let location := location_of node in
  let emptyNamespace loc := {| name := EmptyString; exports := []; location := loc |} in
  match node with
  | EmptyStatement _ => Ok (emptyNamespace location :: namespaces, items)
  | ImportOrExportDeclaration _ moduleSpecifier =>
      match moduleSpecifier with
      | Some (text, getEnd) =>
          if startsWith text "." && endsWith text ".d.ts" then
            let end' := getEnd - 1 in
            Ok (emptyNamespace {| start := end' - 5; end_ := end' |} :: namespaces, items)
          else Ok (namespaces, items)
      | None => Ok (namespaces, items)
      end
  | ClassDeclaration _ (Some name) typeParameters =>
      Ok (namespaces, items_set name {| type := "class"; generics := typeParameters |} items)
  | FunctionDeclaration _ (Some name) =>
      Ok (namespaces, items_set name {| type := "function"; generics := None |} items)
  | ClassDeclaration _ None _ | FunctionDeclaration _ None =>
      (* [node.name.getText()] on a class or function without a name *)
      Throw (TypeError "Cannot read properties of undefined (reading 'getText')")
  | InterfaceDeclaration _ name typeParameters =>
      Ok (namespaces,
          items_set name {| type := "interface"; generics := typeParameters |} items)
  | TypeAliasDeclaration _ name typeParameters =>
      Ok (namespaces, items_set name {| type := "type"; generics := typeParameters |} items)
  | ModuleDeclaration _ (Some name) =>
      Ok (namespaces, items_set name {| type := "namespace"; generics := None |} items)
  | ModuleDeclaration _ None => Ok (namespaces, items)
  | EnumDeclaration _ name =>
      Ok (namespaces, items_set name {| type := "enum"; generics := None |} items)
  | VariableStatement _ [decl] =>
      let name := name_getText decl in
      match initializer decl with
      | Some (CallExpression expression obj) =>
          if negb (includes expression "/*#__PURE__*/Object.freeze")
          then Ok (namespaces, items)
          else match obj with
               | Some (ObjectLiteralExpression properties) =>
                   match collectExports properties [] with
                   | Ok exports =>
                       Ok ({| name := name; exports := exports; location := location |}
                             :: namespaces, items)
                   | Throw e => Throw e
                   end
               | Some OtherArgument => Ok (namespaces, items)
               | None => Throw (TypeError "Cannot read properties of undefined")
               end
      | _ => Ok (namespaces, items_set name {| type := "var"; generics := None |} items)
      end
  | VariableStatement _ _ => Ok (namespaces, items)
  | OtherStatement _ => Ok (namespaces, items)
  end.

Fixpoint findNamespaces_loop (nodes : list Statement)
    (acc : list Namespace * Items) : Result (list Namespace * Items) :=
  match nodes with
  | [] => Ok acc
  | node :: rest =>
      match findNamespaces_step node acc with
      | Ok acc' => findNamespaces_loop rest acc'
      | Throw e => Throw e
      end
  end.

Definition findNamespaces (sourceFile : SourceFile) : Result (list Namespace * Items) :=
  findNamespaces_loop (statements sourceFile) ([], {| own := ∅; proto := None |}).

(** [renderTypeParams(num)] *)
Definition renderTypeParams (num : option nat) : string :=
  match num with
  | None | Some O => EmptyString
  | Some n =>
      "<" +:+ join ", " (map (λ i, "_" +:+ String_ (N.of_nat i)) (seq 0 n)) +:+ ">"
  end.

(** The text one export of [ns] adds before the namespace block. *)
Definition renderAlias (itemTypes : Items) (ns_name : string) (e : Export)
    : Result string :=
  let exportedName := exportedName e in
  let localName := localName e in
  if bool_decide (exportedName = localName) then
    let typeAlias generics :=
      let typeParams := renderTypeParams generics in
      "type " +:+ ns_name +:+ "_" +:+ exportedName +:+ typeParams +:+ " = " +:+
      localName +:+ typeParams +:+ ";" +:+ newline in
    let constAlias :=
      "declare const " +:+ ns_name +:+ "_" +:+ exportedName +:+ ": typeof " +:+
      localName +:+ ";" +:+ newline in
    match items_get itemTypes localName with
    | L_Undefined =>
        Throw (TypeError "Cannot destructure property 'type' of 'itemTypes[localName]' as it is undefined.")
    | L_Other => Ok constAlias
    | L_Item {| type := type; generics := generics |} =>
        if bool_decide (type = "interface") || bool_decide (type = "type")
        then Ok (typeAlias generics)
        else if bool_decide (type = "enum") || bool_decide (type = "class")
        then Ok (typeAlias generics +:+ constAlias)
        else Ok constAlias
    end
  else Ok EmptyString.

Fixpoint renderAliases (itemTypes : Items) (ns_name : string) (exports : list Export)
    (code : string) : Result string :=
  match exports with
  | [] => Ok code
  | e :: rest =>
      match renderAlias itemTypes ns_name e with
      | Ok text => renderAliases itemTypes ns_name rest (code +:+ text)
      | Throw err => Throw err
      end
  end.

Definition renderExport (ns_name : string) (e : Export) : string :=
  if bool_decide (exportedName e = localName e)
  then "    " +:+ ns_name +:+ "_" +:+ exportedName e +:+ " as " +:+ exportedName e +:+
       "," +:+ newline
  else "    " +:+ localName e +:+ " as " +:+ exportedName e +:+ "," +:+ newline.

Definition renderBlock (ns : Namespace) : string :=
  if bool_decide (name ns = EmptyString) then EmptyString
  else "declare namespace " +:+ name ns +:+ " {" +:+ newline +:+
       "  export {" +:+ newline +:+
       foldl (λ code e, code +:+ renderExport (name ns) e) EmptyString (exports ns) +:+
       "  };" +:+ newline +:+ "}".

(** The loop of [fix] over the namespaces found. *)
Fixpoint fix_loop (itemTypes : Items) (namespaces : list Namespace) (code : string)
    : Result string :=
  match namespaces with
  | [] => Ok code
  | ns :: rest =>
      let codeAfter := js_slice_from code (end_ (location ns)) in
      let code := js_slice code 0 (start (location ns)) in
      match renderAliases itemTypes (name ns) (exports ns) code with
      | Ok code => fix_loop itemTypes rest (code +:+ renderBlock ns +:+ codeAfter)
      | Throw e => Throw e
      end
  end.

Definition fix_ (sourceFile : SourceFile) : Result string :=
  match findNamespaces sourceFile with
  | Ok (namespaces, itemTypes) => fix_loop itemTypes namespaces (getFullText sourceFile)
  | Throw e => Throw e
  end.

End NamespaceFixer.

(** ** The text buffer of the pre-processor *)

(** [magic-string] is a dependency of the plugin, not part of it: the
    pre-processor is written against the operations it calls, all keyed by
    offsets into the original text. *)
Module MagicString.
Class Ops (T : Type) := {
  new : string → T;
  remove : Z → Z → T → T;
  appendLeft : Z → string → T → T;
  appendRight : Z → string → T → T;
  overwrite : Z → Z → string → T → T;
  move : Z → Z → Z → T → T;
  append : string → T → T;
  prepend : string → T → T;
  slice : Z → Z → T → string;
  toString : T → string
}.
End MagicString.

(** ** The pre-processor: [preProcess] *)

(** [set.add(x)] on a [Set] whose iteration order is observed *)
Definition set_add (x : string) (l : list string) : list string :=
  if bool_decide (x ∈ l) then l else l ++ [x].

(** [map.set(k, v)] on a [Map] whose iteration order is observed *)
Fixpoint map_set {V} (k : string) (v : V) (m : list (string * V)) : list (string * V) :=
  match m with
  | [] => [(k, v)]
  | (k', v') :: m' =>
      if bool_decide (k' = k) then (k, v) :: m' else (k', v') :: map_set k v m'
  end.

(** [map.get(k)] *)
Fixpoint map_get {V} (k : string) (m : list (string * V)) : option V :=
  match m with
  | [] => None
  | (k', v') :: m' => if bool_decide (k' = k) then Some v' else map_get k m'
  end.

Definition isWhiteSpace (c : Ascii.ascii) : bool :=
  let n := Ascii.nat_of_ascii c in
  ((9 <=? n) && (n <=? 13) || (n =? 32))%nat.

(** [s.length - s.trimStart().length] *)
Fixpoint leadingWhiteSpace (s : string) : nat :=
  match s with
  | String c s' => if isWhiteSpace c then S (leadingWhiteSpace s') else O
  | EmptyString => O
  end.

Definition isIdentifierChar (c : Ascii.ascii) : bool :=
  let n := Ascii.nat_of_ascii c in
  ((97 <=? n) && (n <=? 122) || (65 <=? n) && (n <=? 90) ||
   (48 <=? n) && (n <=? 57) || (n =? 95) || (n =? 36))%nat.

(** [fileId.replace(/[^a-zA-Z0-9_$]/g, () => "_")] *)
Fixpoint sanitize (fileId : string) : string :=
  match fileId with
  | String c s' =>
      String (if isIdentifierChar c then c else Ascii.ascii_of_nat 95) (sanitize s')
  | EmptyString => EmptyString
  end.

Module PreProcess.

Inductive SyntaxKind :=
| ExportKeyword | DefaultKeyword | DeclareKeyword
| CommaToken
| OtherPunctuation      (* another kind from FirstPunctuation to LastPunctuation *)
| OtherKind.

Record Token := mkToken { kind : SyntaxKind; tok_pos : Pos }.

(** [kind >= FirstPunctuation && kind <= LastPunctuation] *)
Definition isPunctuation (k : SyntaxKind) : bool :=
  match k with
  | CommaToken | OtherPunctuation => true
  | _ => false
  end.

(** [node.argument] of an import type: the text of the string literal of
    a literal type, or anything else. *)
Inductive ImportArgument :=
| StringLiteralType (text : string)
| OtherArgument.

(** The tree [ts.forEachChild] walks.  Of an import type node the
    record keeps [getStart()] of its [import] keyword and of the first
    [.] or [<] token after the argument, if any. *)
Inductive Node :=
| ImportTypeNode (pos : Pos) (argument : ImportArgument)
    (importKeyword_getStart : Z) (dotOrLessThan_getStart : option Z)
    (forEachChild : list Node)
| OtherNode (forEachChild : list Node).

Inductive DeclarationKind :=
| EnumDeclaration | FunctionDeclaration | InterfaceDeclaration
| ClassDeclaration | TypeAliasDeclaration | ModuleDeclaration.

Record VariableDeclaration := mkVariableDeclaration {
  name_isIdentifier : bool;
  name_getText : string;
  vd_pos : Pos
}.

(** [node.declarationList]: [flags & Let], [flags & Const], and the
    children of its syntax list (declarations and comma tokens). *)
Record VariableDeclarationList := mkVariableDeclarationList {
  declarations : list VariableDeclaration;
  flags_Let : bool;
  flags_Const : bool;
  syntaxList : list Token
}.

(** Of a declaration the record keeps, besides its name, [getEnd()] of
    its [class] / [function] keyword and the token that follows it
    ([children[idx]] and [children[idx + 1]] in pass 2). *)
Inductive Shape :=
| EmptyStatement
| Declaration (kind : DeclarationKind) (name : option string)
    (flags_GlobalAugmentation : bool) (keyword_getEnd : Z) (nextToken : Token)
| VariableStatement (declarationList : VariableDeclarationList)
| OtherStatement.

Record Statement := mkStatement {
  shape : Shape;
  pos : Pos;
  modifiers : list Token;
  getCombinedModifierFlags : Z;
  forEachChild : list Node
}.

(** a [/// <reference types="..." />] directive, with the start and the
    end of its line ([lineStarts[line]], [getLineEndOfPosition(ref.pos)]) *)
Record FileReference := mkFileReference {
  fileName : string;
  lineStart : Z;
  lineEnd : Z
}.

Record SourceFile := mkSourceFile {
  getFullText : string;
  statements : list Statement;
  typeReferenceDirectives : list FileReference
}.

(** [ts.ModifierFlags] *)
Definition Export : Z := 1.
Definition Default : Z := 512.
Definition ExportDefault : Z := Z.lor Export Default.

Definition matchesModifier (node : Statement) (flags : Z) : bool :=
  Z.land (getCombinedModifierFlags node) flags =? flags.

(** [node.getSourceFile().getFullText()[idx] == "\n"] *)
Definition newlineAt (fullText : string) (idx : Z) : bool :=
  (0 <=? idx) &&
  bool_decide (String.get (Z.to_nat idx) fullText = Some (Ascii.ascii_of_nat 10)).

Definition getStart_ (fullText : string) (node : Pos) : Z :=
  getFullStart node + (if newlineAt fullText (getFullStart node) then 1 else 0).

Definition getEnd_ (fullText : string) (node : Pos) : Z :=
  getEnd node + (if newlineAt fullText (getEnd node) then 1 else 0).

Definition needsDeclare (s : Shape) : bool :=
  match s with
  | Declaration (ClassDeclaration | FunctionDeclaration | ModuleDeclaration) _ _ _ _
  | VariableStatement _ => true
  | _ => false
  end.

Section buffer.
Context {T : Type} `{MagicString.Ops T}.
Import MagicString.

(** The variables [preProcess] declares and its closures share. *)
Record State := mkState {
  code : T;
  declaredNames : gset string;
  exportedNames : list string;
  defaultExport : string;
  inlineImports : list (string * string);
  nameRanges : list (string * list (Z * Z))
}.

Definition with_code (f : T → T) (s : State) : State :=
  {| code := f (code s); declaredNames := declaredNames s;
     exportedNames := exportedNames s; defaultExport := defaultExport s;
     inlineImports := inlineImports s; nameRanges := nameRanges s |}.

Definition fixModifiers (node : Statement) (code : T) : T :=
  let '(code, hasDeclare) :=
    foldl (λ '(code, hasDeclare) modifier,
             match kind modifier with
             | ExportKeyword | DefaultKeyword =>
                 (remove (getStart (tok_pos modifier))
                    (getEnd (tok_pos modifier) + 1) code,
                  hasDeclare)
             | DeclareKeyword => (code, true)
             | _ => (code, hasDeclare)
             end)
          (code, false) (modifiers node) in
  if needsDeclare (shape node) && negb hasDeclare
  then appendRight (getStart (pos node)) "declare " code
  else code.

(** [last[1] = range[1]] when the ranges touch, [nodes.push(range)] otherwise *)
Fixpoint pushRange (range : Z * Z) (nodes : list (Z * Z)) : list (Z * Z) :=
  match nodes with
  | [] => [range]
  | [last] => if last.2 =? range.1 then [(last.1, range.2)] else [last; range]
  | r :: nodes' => r :: pushRange range nodes'
  end.

Definition pushNamedNode (name : string) (range : Z * Z) (s : State) : State :=
  {| code := code s; declaredNames := declaredNames s;
     exportedNames := exportedNames s; defaultExport := defaultExport s;
     inlineImports := inlineImports s;
     nameRanges :=
       match map_get name (nameRanges s) with
       | None => nameRanges s ++ [(name, [range])]
       | Some nodes => map_set name (pushRange range nodes) (nameRanges s)
       end |}.

Definition declare (name : string) (s : State) : State :=
  {| code := code s; declaredNames := declaredNames s ∪ {[name]};
     exportedNames := exportedNames s; defaultExport := defaultExport s;
     inlineImports := inlineImports s; nameRanges := nameRanges s |}.

Definition export (name : string) (s : State) : State :=
  {| code := code s; declaredNames := declaredNames s;
     exportedNames := set_add name (exportedNames s);
     defaultExport := defaultExport s;
     inlineImports := inlineImports s; nameRanges := nameRanges s |}.

Definition set_defaultExport (name : string) (s : State) : State :=
  {| code := code s; declaredNames := declaredNames s;
     exportedNames := exportedNames s; defaultExport := name;
     inlineImports := inlineImports s; nameRanges := nameRanges s |}.

(** The loop that splits a variable statement at its commas. *)
Definition splitDeclarations (prefix : string) (list : list Token) (code : T) : T :=
  snd (foldl (λ '(commaPos, code) node,
         match kind node with
         | CommaToken =>
             let commaPos := getStart (tok_pos node) in
             (commaPos, remove commaPos (getEnd (tok_pos node)) code)
         | _ =>
             if negb (commaPos =? 0) then
               let code :=
                 appendLeft commaPos
                   (";" +:+ newline) code in
               let start := getFullStart (tok_pos node) in
               let whitespace :=
                 Z.of_nat (leadingWhiteSpace
                             (slice start (getStart (tok_pos node)) code)) in
               (commaPos,
                if negb (whitespace =? 0)
                then overwrite start (start + whitespace) prefix code
                else appendLeft start prefix code)
             else (commaPos, code)
         end)
       (0, code) list).

(** One iteration of pass 1. *)
Definition pass1 (fullText : string) (s : State) (node : Statement) : State :=
  match shape node with
  | EmptyStatement =>
      with_code (remove (getStart (pos node)) (getEnd (pos node))) s
  | Declaration _ name flags_GlobalAugmentation _ _ =>
      let s :=
        match name with
        | Some name =>
            let s := declare name s in
            let s :=
              if matchesModifier node ExportDefault then set_defaultExport name s
              else if matchesModifier node Export then export name s
              else s in
            if negb flags_GlobalAugmentation
            then pushNamedNode name
                   (getStart_ fullText (pos node), getEnd_ fullText (pos node)) s
            else s
        | None => s
        end in
      with_code (fixModifiers node) s
  | VariableStatement declarationList =>
      let isExport := matchesModifier node Export in
      let s :=
        foldl (λ s decl,
                 if name_isIdentifier decl then
                   let s := declare (name_getText decl) s in
                   if isExport then export (name_getText decl) s else s
                 else s)
              s (declarations declarationList) in
      let s := with_code (fixModifiers node) s in
      let s :=
        match declarations declarationList with
        | [decl] =>
            if name_isIdentifier decl
            then pushNamedNode (name_getText decl)
                   (getStart_ fullText (pos node), getEnd_ fullText (pos node)) s
            else s
        | [] => s   (* a declaration list is never empty *)
        | first :: decls =>
            let s := pushNamedNode (name_getText first)
                       (getStart_ fullText (pos node), getEnd (vd_pos first)) s in
            foldl (λ s decl,
                     if name_isIdentifier decl
                     then pushNamedNode (name_getText decl)
                            (getFullStart (vd_pos decl), getEnd (vd_pos decl)) s
                     else s)
                  s decls
        end in
      let type :=
        if flags_Let declarationList then "let"
        else if flags_Const declarationList then "const" else "var" in
      let prefix := "declare " +:+ type +:+ " " in
      with_code (splitDeclarations prefix (syntaxList declarationList)) s
  | OtherStatement => s
  end.

(** [uniqName(hint)]: the loop runs while the name is taken; each
    round makes the name longer, and only finitely many declared names
    are at least as long. *)
Definition longer (name : string) (declaredNames : gset string) : nat :=
  size (filter (λ x : string, (String.length name ≤ String.length x)%nat) declaredNames).

Equations uniqName_loop (declaredNames : gset string) (name : string) : string
  by wf (longer name declaredNames) lt :=
  uniqName_loop declaredNames name with decide (name ∈ declaredNames) := {
    | Specif.left Hin => uniqName_loop declaredNames ("_" +:+ name)
    | Specif.right _ => name }.
Next Obligation.
  unfold longer. apply subset_size, elem_of_subset. split.
  - intros x. rewrite !elem_of_filter. unfold String.append; cbn.
    intros [? ?]. split; [lia|done].
  - intros Hsub. specialize (Hsub name). rewrite !elem_of_filter in Hsub.
    unfold String.append in Hsub; cbn in Hsub. destruct Hsub as [? _]; [done|lia].
Qed.

Definition uniqName (hint : string) (declaredNames : gset string)
    : string * gset string :=
  let name := uniqName_loop declaredNames hint in
  (name, declaredNames ∪ {[name]}).

Definition createNamespaceImport (fileId : string) (s : State) : string * State :=
  match map_get fileId (inlineImports s) with
  | Some (String c n) => (String c n, s)
  | _ =>
      let '(importName, declaredNames) := uniqName (sanitize fileId) (declaredNames s) in
      (importName,
       {| code := code s; declaredNames := declaredNames;
          exportedNames := exportedNames s; defaultExport := defaultExport s;
          inlineImports := map_set fileId importName (inlineImports s);
          nameRanges := nameRanges s |})
  end.

(** [checkInlineImport(node)]: the children first, then the node. *)
Fixpoint checkInlineImport (node : Node) (s : State) : Result State :=
  let children := match node with
                  | ImportTypeNode _ _ _ _ children | OtherNode children => children
                  end in
  match (fix each (l : list Node) (s : State) : Result State :=
           match l with
           | [] => Ok s
           | child :: l' =>
               match checkInlineImport child s with
               | Ok s' => each l' s'
               | Throw e => Throw e
               end
           end) children s with
  | Throw e => Throw e
  | Ok s =>
      match node with
      | ImportTypeNode pos argument importKeyword dotOrLessThan _ =>
          match argument with
          | OtherArgument =>
              Throw (UnsupportedSyntaxError pos
                       "inline imports should have a literal argument")
          | StringLiteralType fileId =>
              let start := importKeyword in
              let end' := default (getEnd pos) dotOrLessThan in
              let '(importName, s) := createNamespaceImport fileId s in
              Ok (with_code (overwrite start end' importName) s)
          end
      | OtherNode _ => Ok s
      end
  end.

(** [checkInlineImport] on a statement, which is no import type itself *)
Fixpoint checkInlineImports (nodes : list Node) (s : State) : Result State :=
  match nodes with
  | [] => Ok s
  | node :: rest =>
      match checkInlineImport node s with
      | Ok s' => checkInlineImports rest s'
      | Throw e => Throw e
      end
  end.

(** One iteration of pass 2. *)
Definition pass2 (node : Statement) (s : State) : Result State :=
  match checkInlineImports (forEachChild node) s with
  | Throw e => Throw e
  | Ok s =>
      if negb (matchesModifier node ExportDefault) then Ok s
      else match shape node with
           | Declaration (FunctionDeclaration | ClassDeclaration) None _
               keyword_getEnd nextToken =>
               let s :=
                 if bool_decide (defaultExport s = EmptyString) then
                   let '(name, declaredNames) :=
                     uniqName "export_default" (declaredNames s) in
                   {| code := code s; declaredNames := declaredNames;
                      exportedNames := exportedNames s; defaultExport := name;
                      inlineImports := inlineImports s; nameRanges := nameRanges s |}
                 else s in
               Ok (with_code
                     (if isPunctuation (kind nextToken)
                      then appendLeft (getStart (tok_pos nextToken)) (defaultExport s)
                      else appendRight keyword_getEnd (" " +:+ defaultExport s)) s)
           | _ => Ok s
           end
  end.

Fixpoint pass2_loop (nodes : list Statement) (s : State) : Result State :=
  match nodes with
  | [] => Ok s
  | node :: rest =>
      match pass2 node s with
      | Ok s' => pass2_loop rest s'
      | Throw e => Throw e
      end
  end.

(** [last = ranges.pop()], then every remaining range moves before it *)
Definition reorder (code : T) (ranges : list (Z * Z)) : T :=
  match last ranges with
  | Some lastRange =>
      foldl (λ code node, move node.1 node.2 lastRange.1 code) code (removelast ranges)
  | None => code
  end.

Definition removeTypeReference (code : T) (ref : FileReference) : T :=
  let end' := lineEnd ref in
  let end' :=
    if String.eqb (slice end' (end' + 1) code) newline
    then end' + 1 else end' in
  remove (lineStart ref) end' code.

(** What [preProcess] returns: [{ code, typeReferences }]. *)
Record Output := mkOutput { out_code : T; out_typeReferences : list string }.

Definition finish (sourceFile : SourceFile) (s : State) : Output :=
  let nl := newline in
  let code := foldl reorder (code s) (map snd (nameRanges s)) in
  let code :=
    if bool_decide (defaultExport s = EmptyString) then code
    else append (nl +:+ "export default " +:+ defaultExport s +:+ ";" +:+ nl) code in
  let code :=
    match exportedNames s with
    | [] => code
    | names => append (nl +:+ "export { " +:+ join ", " names +:+ " };" +:+ nl) code
    end in
  let code :=
    foldl (λ code '(fileId, importName),
             prepend ("import * as " +:+ importName +:+ " from " +:+
                      quoted fileId +:+ ";" +:+ nl) code)
          code (inlineImports s) in
  {| out_code := foldl removeTypeReference code (typeReferenceDirectives sourceFile);
     out_typeReferences :=
       foldl (λ refs ref, set_add (fileName ref) refs) []
             (typeReferenceDirectives sourceFile) |}.

Definition initial (sourceFile : SourceFile) : State :=
  {| code := new (getFullText sourceFile); declaredNames := ∅; exportedNames := [];
     defaultExport := EmptyString; inlineImports := []; nameRanges := [] |}.

Definition preProcess (sourceFile : SourceFile) : Result Output :=
  let s := foldl (pass1 (getFullText sourceFile)) (initial sourceFile)
             (statements sourceFile) in
  match pass2_loop (statements sourceFile) s with
  | Ok s => Ok (finish sourceFile s)
  | Throw e => Throw e
  end.

End buffer.

End PreProcess.

(** ** A buffer to run the pre-processor on *)

(** An implementation of the buffer operations with one cell per character
    of the original text.  A cell holds what is rendered for its character:
    the text inserted before it ([appendRight] at its offset), its content
    (the character, a replacement, or nothing once removed) and the text
    inserted after it ([appendLeft] at the next offset).  Removing or
    overwriting a range drops the insertions inside it, and moving a range
    moves its cells. *)
Module CharBuffer.

Record Cell := mkCell {
  offset : Z;
  cell_intro : string;
  content : string;
  cell_outro : string
}.

Record t := mkBuffer { intro : string; cells : list Cell; outro : string }.

Fixpoint cellsOf (s : string) (i : Z) : list Cell :=
  match s with
  | EmptyString => []
  | String c s' =>
      {| offset := i; cell_intro := EmptyString;
         content := String c EmptyString; cell_outro := EmptyString |}
      :: cellsOf s' (i + 1)
  end.

Definition new (s : string) : t :=
  {| intro := EmptyString; cells := cellsOf s 0; outro := EmptyString |}.

Definition inRange (from to : Z) (c : Cell) : bool :=
  (from <=? offset c) && (offset c <? to).

Definition mapCells (f : Cell → Cell) (b : t) : t :=
  {| intro := intro b; cells := map f (cells b); outro := outro b |}.

Definition cleared (c : Cell) (text : string) : Cell :=
  {| offset := offset c; cell_intro := EmptyString; content := text;
     cell_outro := EmptyString |}.

Definition remove (from to : Z) (b : t) : t :=
  mapCells (λ c, if inRange from to c then cleared c EmptyString else c) b.

Definition overwrite (from to : Z) (text : string) (b : t) : t :=
  mapCells (λ c, if inRange from to c
                 then cleared c (if offset c =? from then text else EmptyString)
                 else c) b.

Definition appendLeft (index : Z) (text : string) (b : t) : t :=
  if existsb (λ c, offset c =? index - 1) (cells b)
  then mapCells (λ c, if offset c =? index - 1
                      then {| offset := offset c; cell_intro := cell_intro c;
                              content := content c;
                              cell_outro := cell_outro c +:+ text |}
                      else c) b
  else {| intro := intro b +:+ text; cells := cells b; outro := outro b |}.

Definition appendRight (index : Z) (text : string) (b : t) : t :=
  if existsb (λ c, offset c =? index) (cells b)
  then mapCells (λ c, if offset c =? index
                      then {| offset := offset c; cell_intro := cell_intro c +:+ text;
                              content := content c; cell_outro := cell_outro c |}
                      else c) b
  else {| intro := intro b; cells := cells b; outro := outro b +:+ text |}.

(** the cells of [from, to) are taken out and put back before the cell
    of [index] (at the end when there is none) *)
Definition move (from to index : Z) (b : t) : t :=
  let moved := filter (λ c, inRange from to c = true) (cells b) in
  let rest := filter (λ c, inRange from to c = false) (cells b) in
  let before := filter (λ c, (offset c <? index) = true) rest in
  let after := filter (λ c, (offset c <? index) = false) rest in
  {| intro := intro b; cells := before ++ moved ++ after; outro := outro b |}.

Definition append (text : string) (b : t) : t :=
  {| intro := intro b; cells := cells b; outro := outro b +:+ text |}.

Definition prepend (text : string) (b : t) : t :=
  {| intro := text +:+ intro b; cells := cells b; outro := outro b |}.

Definition render (c : Cell) : string := cell_intro c +:+ content c +:+ cell_outro c.

Definition renderAll (l : list Cell) : string :=
  foldr (λ c s, render c +:+ s) EmptyString l.

Definition slice (from to : Z) (b : t) : string :=
  renderAll (filter (λ c, inRange from to c = true) (cells b)).

Definition toString (b : t) : string :=
  intro b +:+ renderAll (cells b) +:+ outro b.

End CharBuffer.

#[global] Instance CharBuffer_ops : MagicString.Ops CharBuffer.t := {|
  MagicString.new := CharBuffer.new;
  MagicString.remove := CharBuffer.remove;
  MagicString.appendLeft := CharBuffer.appendLeft;
  MagicString.appendRight := CharBuffer.appendRight;
  MagicString.overwrite := CharBuffer.overwrite;
  MagicString.move := CharBuffer.move;
  MagicString.append := CharBuffer.append;
  MagicString.prepend := CharBuffer.prepend;
  MagicString.slice := CharBuffer.slice;
  MagicString.toString := CharBuffer.toString
|}.


(** * Notions the statements are written in *)

(** ** The scope tracker *)

Definition depth (s : DeclarationScope * N) : nat := length (scopes s.1).

(** What a method of [DeclarationScope] leaves alone, and how it extends
    the references of the declaration: the new references come after the
    old ones and are named by the values the counter goes through. *)
Definition Frame (s s' : DeclarationScope * N) : Prop :=
  fn_id (declaration s'.1) = fn_id (declaration s.1) ∧
  fn_range (declaration s'.1) = fn_range (declaration s.1) ∧
  iife s'.1 = iife s.1 ∧
  ∃ extra : list AssignmentPattern,
    params (declaration s'.1) = params (declaration s.1) ++ extra ∧
    s'.2 = (s.2 + N.of_nat (length extra))%N ∧
    ∀ i r, extra !! i = Some r → left r = String_ (s.2 + N.of_nat i).

(** A method that, when it returns, has taken the stack from depth [d] to
    depth [f d]. *)
Definition Moves (f : nat → nat) {A} (m : ScopeM A) : Prop :=
  ∀ s a s', m s = Ok (a, s') → Frame s s' ∧ depth s' = f (depth s).

Definition Balanced {A} (m : ScopeM A) : Prop := Moves (λ d, d) m.

(** the mapped type reads the constraint of its type parameter on its own *)
Definition constraintOf (node : TypeParameterDeclaration) : option TypeNode :=
  match node with TypeParameter _ constraint _ => constraint end.

(** The methods the graph builder runs on the subtree of a declaration. *)
Inductive SubtreeConversion : ScopeM unit → Prop :=
| SC_ParametersAndType node :
    SubtreeConversion (DeclarationScope.convertParametersAndType node)
| SC_FunctionSignature name typeParameters parameters type :
    SubtreeConversion
      (DeclarationScope.convertFunctionSignature name typeParameters parameters type)
| SC_TypeAlias typeParameters type :
    SubtreeConversion (DeclarationScope.convertTypeAlias typeParameters type)
| SC_ClassLike decl : SubtreeConversion (DeclarationScope.convertClassLike decl)
| SC_Namespace node : SubtreeConversion (DeclarationScope.convertNamespace node)
| SC_TypeNode node : SubtreeConversion (DeclarationScope.convertTypeNode node)
| SC_Members members : SubtreeConversion (DeclarationScope.convertMembers members)
| SC_HeritageClauses heritageClauses :
    SubtreeConversion (DeclarationScope.convertHeritageClauses heritageClauses).

(** ** The graph builder *)

(** the name of a graph node: the identifier of a named declaration, which
    [createDeclaration] takes from [ts.idText] *)
Definition nodeName (n : BodyNode) : option string :=
  match n with
  | N_Scope sc =>
      match fn_id (declaration sc) with
      | Some (ES_Identifier name _) => Some name
      | _ => None
      end
  | N_Statement _ => None
  end.

(** the references of a node, and of a whole program *)
Definition nodeRefs (n : BodyNode) : list AssignmentPattern :=
  match n with
  | N_Scope sc => params (declaration sc)
  | N_Statement _ => []
  end.

Definition allRefs (body : list BodyNode) : list AssignmentPattern :=
  body ≫= nodeRefs.

(** What holds of the transformer between two top-level statements.  The
    map of declarations is keyed by the names as the file writes them
    ([id.getText()]): every key stands for one named node of the program and
    every named node for one key, and [R] relates the key to the name of the
    node.  Every scope stack is empty, and the references carry distinct
    names the counter has passed. *)
Record Inv (R : string → string → Prop) (s : Transformer * N) : Prop := mkInv {
  inv_declared : ∀ key i, declarations s.1 !! key = Some i →
    ∃ sc name, ast_body s.1 !! i = Some (N_Scope sc) ∧
               nodeName (N_Scope sc) = Some name ∧ R key name ∧ iife sc = None;
  inv_named : ∀ i n name, ast_body s.1 !! i = Some n → nodeName n = Some name →
    ∃ key, declarations s.1 !! key = Some i;
  inv_registered : ∀ key key' i, declarations s.1 !! key = Some i →
    declarations s.1 !! key' = Some i → key = key';
  inv_scopes : ∀ i sc, ast_body s.1 !! i = Some (N_Scope sc) → scopes sc = [];
  inv_fresh : ∀ r, r ∈ allRefs (ast_body s.1) → ∃ k, left r = String_ k ∧ (k < s.2)%N;
  inv_distinct : NoDup (map left (allRefs (ast_body s.1)))
}.

(** the states the constructor goes through, from any value of the counter *)
Definition Reachable (s : Transformer * N) : Prop :=
  ∃ sourceFile IDs stmts,
    forEach Transformer.convertStatement stmts (Transformer.init sourceFile, IDs)
    = Ok (tt, s).

(** the identifier [convertStatement] passes to [createDeclaration] *)
Definition declaredName (node : Statement) : option Identifier :=
  match node with
  | EnumDeclaration _ name | InterfaceDeclaration _ name _
  | TypeAliasDeclaration _ name _ _ => Some name
  | FunctionDeclaration _ name _ _ _ | ClassDeclaration _ name _ => name
  | VariableStatement _ [decl] =>
      match vd_name decl with BN_Identifier id => Some id | BN_Pattern => None end
  | ModuleDeclaration _ false (ModuleName_Identifier id) _ => Some id
  | _ => None
  end.

Definition Preserves (R : string → string → Prop) {A} (m : TransM A) : Prop :=
  ∀ s a s', Inv R s → m s = Ok (a, s') → Inv R s'.

(** any key for any name: what holds of every file *)
Definition anyName (key name : string) : Prop := True.


(** two nodes that differ in their ranges only *)
Definition RangeOnly (n n' : BodyNode) : Prop :=
  nodeName n' = nodeName n ∧ nodeRefs n' = nodeRefs n ∧
  match n, n' with
  | N_Scope sc, N_Scope sc' =>
      scopes sc' = scopes sc ∧ (iife sc = None → iife sc' = None)
  | N_Statement _, N_Statement _ => True
  | _, _ => False
  end.

(** what [createDeclaration] makes of the scope of a name that has a node
    already *)
Definition merged (node : Pos) (id : Identifier) (IDs : N) (sc : DeclarationScope)
    : DeclarationScope :=
  {| scopes := scopes sc;
     declaration :=
       {| fn_id := fn_id (declaration sc);
          params := params (declaration sc) ++
                    [{| left := String_ IDs; right := createIdentifier id |}];
          fn_range := {| start := start (fn_range (declaration sc));
                         end_ := getEnd node |} |};
     iife := iife sc |}.

(** the scope object at [i] went through methods of [DeclarationScope] *)
Definition Updated (i : nat) (s s' : Transformer * N) : Prop :=
  ∃ sc sc', ast_body s.1 !! i = Some (N_Scope sc) ∧ Frame (sc, s.2) (sc', s'.2) ∧
            s'.1 = with_body (λ body, <[i := N_Scope sc']> body) s.1.

(** ** The namespace reconstructor *)

Section fixer_notions.
Import NamespaceFixer.

(** a property that is neither an assignment keyed [__proto__] nor an
    identifier-keyed assignment of an identifier *)
Definition unsupported (prop : Property) : bool :=
  match prop with
  | PropertyAssignment _ (Some name) initializer =>
      negb (bool_decide (name = "__proto__")) &&
      match initializer with Some _ => false | None => true end
  | _ => true
  end.

(** the entry a supported property contributes, if any *)
Definition entryOf (prop : Property) : option Export :=
  match prop with
  | PropertyAssignment _ (Some name) (Some localName) =>
      if bool_decide (name = "__proto__") then None
      else Some {| exportedName := name; localName := localName |}
  | _ => None
  end.

(** a self-aliased entry whose local name [itemTypes] does not know *)
Definition missingItem (itemTypes : Items) (e : Export) : bool :=
  bool_decide (exportedName e = localName e) &&
  match items_get itemTypes (localName e) with L_Undefined => true | _ => false end.



(** an entry under another name than its local one, whose local name
    [itemTypes] does not know either *)
Definition missingAliased (itemTypes : Items) (e : Export) : bool :=
  negb (bool_decide (exportedName e = localName e)) &&
  match items_get itemTypes (localName e) with L_Undefined => true | _ => false end.

End fixer_notions.

(** ** The pre-processor *)

(** [hint] behind [k] underscores *)
Definition underscores (k : nat) (hint : string) : string :=
  Nat.iter k (λ s, "_" +:+ s) hint.

Section preprocessor_notions.
Import PreProcess.

(** an import type whose argument is no string literal, somewhere in [node] *)
Fixpoint hasBadImport (node : Node) : bool :=
  match node with
  | ImportTypeNode _ argument _ _ children =>
      existsb hasBadImport children ||
      match argument with OtherArgument => true | StringLiteralType _ => false end
  | OtherNode children => existsb hasBadImport children
  end.

Definition childrenOf (node : Node) : list Node :=
  match node with
  | ImportTypeNode _ _ _ _ children | OtherNode children => children
  end.

Definition badImportMessage : string := "inline imports should have a literal argument".

(** a statement with such an import *)
Definition unitHasBadImport (stmts : list Statement) : bool :=
  existsb (λ node, existsb hasBadImport (forEachChild node)) stmts.

(** the names of the named declarations that carry [export default], in
    source order *)
Definition defaultNames (stmts : list Statement) : list string :=
  omap (λ node,
    match shape node with
    | Declaration _ (Some name) _ _ _ =>
        if matchesModifier node ExportDefault then Some name else None
    | _ => None
    end) stmts.

End preprocessor_notions.

(** * Example units *)

Definition ident (text : string) (fullStart start end' : Z) : Identifier :=
  {| getText := text; idText := text; id_pos := mkPos fullStart start end' |}.

(** [declare namespace N { namespace A { namespace B { type C = number } } type X = A.B.C }] *)
Definition qualified_unit : SourceFile :=
  {| sf_pos := mkPos 0 0 86;
     statements :=
       [ ModuleDeclaration (mkPos 0 0 86) false (ModuleName_Identifier (ident "N" 17 18 19))
           (Some
              [ ModuleDeclaration (mkPos 21 22 69) false
                  (ModuleName_Identifier (ident "A" 31 32 33))
                  (Some
                     [ ModuleDeclaration (mkPos 35 36 67) false
                         (ModuleName_Identifier (ident "B" 45 46 47))
                         (Some [ TypeAliasDeclaration (mkPos 49 50 65)
                                   (ident "C" 54 55 56) None TN_Ignored ]) ]);
                TypeAliasDeclaration (mkPos 69 70 84) (ident "X" 74 75 76) None
                  (TN_TypeReference
                     (EN_QualifiedName
                        (EN_QualifiedName (EN_Identifier (ident "A" 78 79 80))
                           (ident "B" 81 81 82) (mkPos 78 79 82))
                        (ident "C" 83 83 84) (mkPos 78 79 84))
                     None) ]) ] |}.

(** [declare function f<T>(x: T, y: U): T;] *)
Definition generic_unit : SourceFile :=
  {| sf_pos := mkPos 0 0 37;
     statements :=
       [ FunctionDeclaration (mkPos 0 0 37) (Some (ident "f" 16 17 18))
           (Some [ TypeParameter (ident "T" 19 19 20) None None ])
           [ Some (TN_TypeReference (EN_Identifier (ident "T" 24 25 26)) None);
             Some (TN_TypeReference (EN_Identifier (ident "U" 30 31 32)) None) ]
           (Some (TN_TypeReference (EN_Identifier (ident "T" 34 35 36)) None)) ] |}.

(** [interface Foo {a: number}] and, on the next line, [declare namespace Foo {}] *)
Definition merging_interface : Statement :=
  InterfaceDeclaration (mkPos 0 0 25) (ident "Foo" 9 10 13)
    {| cl_typeParameters := None; cl_heritageClauses := None;
       cl_members := [ TE_Property (Some PN_Plain) (Some TN_Ignored) ] |}.

Definition merging_namespace : Statement :=
  ModuleDeclaration (mkPos 25 26 50) false (ModuleName_Identifier (ident "Foo" 43 44 47))
    (Some []).




Definition merging_unit : SourceFile :=
  {| sf_pos := mkPos 0 0 50; statements := [ merging_interface; merging_namespace ] |}.

(** the text left of [export function foo(): Bar; export interface Bar {}]
    by the pre-processor, parsed again:
    [declare function foo(): Bar; interface Bar {}], a line break, and
    [export { foo, Bar };] *)
Definition canonical_foo_Bar : SourceFile :=
  {| sf_pos := mkPos 0 0 67;
     statements :=
       [ FunctionDeclaration (mkPos 0 0 28) (Some (ident "foo" 16 17 20)) None []
           (Some (TN_TypeReference (EN_Identifier (ident "Bar" 23 24 27)) None));
         InterfaceDeclaration (mkPos 28 29 45) (ident "Bar" 38 39 42)
           {| cl_typeParameters := None; cl_heritageClauses := None; cl_members := [] |};
         ExportDeclaration (mkPos 45 46 66) None
           (Some (NamedExports
              [ {| es_name := ident "foo" 54 55 58; es_propertyName := None |};
                {| es_name := ident "Bar" 59 60 63; es_propertyName := None |} ])) ] |}.


(** [export function foo(): Bar; export interface Bar {}], as the
    pre-processor reads it *)
Definition noToken : PreProcess.Token := PreProcess.mkToken PreProcess.OtherKind (mkPos 0 0 0).

Definition foo_Bar_unit : PreProcess.SourceFile :=
  {| PreProcess.getFullText := "export function foo(): Bar; export interface Bar {}";
     PreProcess.statements :=
       [ {| PreProcess.shape :=
              PreProcess.Declaration PreProcess.FunctionDeclaration (Some "foo") false 15
                (PreProcess.mkToken PreProcess.OtherKind (mkPos 15 16 19));
            PreProcess.pos := mkPos 0 0 27;
            PreProcess.modifiers :=
              [ PreProcess.mkToken PreProcess.ExportKeyword (mkPos 0 0 6) ];
            PreProcess.getCombinedModifierFlags := PreProcess.Export;
            PreProcess.forEachChild :=
              [ PreProcess.OtherNode []; PreProcess.OtherNode [];
                PreProcess.OtherNode [ PreProcess.OtherNode [] ] ] |};
         {| PreProcess.shape :=
              PreProcess.Declaration PreProcess.InterfaceDeclaration (Some "Bar") false 0
                noToken;
            PreProcess.pos := mkPos 27 28 51;
            PreProcess.modifiers :=
              [ PreProcess.mkToken PreProcess.ExportKeyword (mkPos 27 28 34) ];
            PreProcess.getCombinedModifierFlags := PreProcess.Export;
            PreProcess.forEachChild := [ PreProcess.OtherNode []; PreProcess.OtherNode [] ] |} ];
     PreProcess.typeReferenceDirectives := [] |}.

(** [export default class A {}] and, on the next line, [export default class B {}] *)
Definition two_defaults_unit : PreProcess.SourceFile :=
  {| PreProcess.getFullText :=
       "export default class A {}" +:+ newline +:+ "export default class B {}";
     PreProcess.statements :=
       [ {| PreProcess.shape :=
              PreProcess.Declaration PreProcess.ClassDeclaration (Some "A") false 20
                (PreProcess.mkToken PreProcess.OtherKind (mkPos 20 21 22));
            PreProcess.pos := mkPos 0 0 25;
            PreProcess.modifiers :=
              [ PreProcess.mkToken PreProcess.ExportKeyword (mkPos 0 0 6);
                PreProcess.mkToken PreProcess.DefaultKeyword (mkPos 6 7 14) ];
            PreProcess.getCombinedModifierFlags := PreProcess.ExportDefault;
            PreProcess.forEachChild := [ PreProcess.OtherNode [] ] |};
         {| PreProcess.shape :=
              PreProcess.Declaration PreProcess.ClassDeclaration (Some "B") false 46
                (PreProcess.mkToken PreProcess.OtherKind (mkPos 46 47 48));
            PreProcess.pos := mkPos 25 26 51;
            PreProcess.modifiers :=
              [ PreProcess.mkToken PreProcess.ExportKeyword (mkPos 25 26 32);
                PreProcess.mkToken PreProcess.DefaultKeyword (mkPos 32 33 40) ];
            PreProcess.getCombinedModifierFlags := PreProcess.ExportDefault;
            PreProcess.forEachChild := [ PreProcess.OtherNode [] ] |} ];
     PreProcess.typeReferenceDirectives := [] |}.




(** a conditional type with an inferred binding: [T extends Array<infer U> ? U : never] *)
Definition conditional_type : TypeNode :=
  TN_Conditional
    (TN_TypeReference (EN_Identifier (ident "T" 0 0 1)) None)
    (TN_TypeReference (EN_Identifier (ident "Array" 9 10 15))
       (Some [ TN_Infer (ident "U" 22 22 23) ]))
    (TN_TypeReference (EN_Identifier (ident "U" 26 27 28)) None)
    TN_Ignored.

Definition empty_scope : DeclarationScope :=
  {| scopes := [];
     declaration := {| fn_id := None; params := []; fn_range := mkRange 0 0 |};
     iife := None |}.

(** the transformer after the first statement of [merging_unit], and after both *)
Definition state_of (r : Result (Transformer * N)) : Transformer * N :=
  match r with
  | Ok s => s
  | Throw _ => (Transformer.init merging_unit, 1%N)
  end.


Definition merging_after : Transformer * N := state_of (Transformer.new merging_unit 1).

(** * The glue code of the plugin *)

(** [s.split(c)] for a separator [c] of one character *)
Fixpoint split_on (c : Ascii.ascii) (s : string) : list string :=
  match s with
  | EmptyString => [EmptyString]
  | String x s' =>
      if Ascii.eqb x c then EmptyString :: split_on c s'
      else match split_on c s' with
           | piece :: pieces => String x piece :: pieces
           | [] => [String x EmptyString]
           end
  end.

Module Plugin.

Definition dts : string := ".d.ts".

(** the backslash (code 92) *)
Definition backslash : Ascii.ascii := Ascii.ascii_of_nat 92.

(** [fileName.split("\\").join("/")] *)
Definition forwardSlashes (fileName : string) : string :=
  join "/" (split_on backslash fileName).

(** [writeBlock(codes)] *)
Definition writeBlock (codes : list string) : string :=
  match codes with
  | [] => EmptyString
  | _ :: _ => join newline codes +:+ newline
  end.

(** the directive [renderChunk] writes for a type reference *)
Definition directive (ref : string) : string :=
  "/// <reference types=" +:+ quoted ref +:+ " />".

(** [renderChunk(code, chunk)], on the map [allTypeReferences] filled by
    [transformFile], the source file parsed from [code] and the keys of
    [chunk.modules]; the result is the [code] of the object returned. *)
Definition renderChunk (allTypeReferences : list (string * list string))
    (source : NamespaceFixer.SourceFile) (modules : list string) : Result string :=
  let typeReferences :=
    foldl (λ typeReferences fileName,
             foldl (λ typeReferences ref, set_add ref typeReferences) typeReferences
               (default [] (map_get (forwardSlashes fileName) allTypeReferences)))
          [] modules in
  let code := writeBlock (map directive typeReferences) in
  match NamespaceFixer.fix_ source with
  | Ok fixed => Ok (code +:+ fixed)
  | Throw e => Throw e
  end.

(** What [getCompilerOptions] returns. *)
Record Options (C : Type) := mkOptions {
  dtsFiles : list string;
  dirName : string;
  compilerOptions : C
}.

Arguments mkOptions {C}.
Arguments dtsFiles {C}.
Arguments dirName {C}.
Arguments compilerOptions {C}.

(** A program is known by what [ts.createProgram] is called with: the two
    operands of [inputs.concat(Array.from(dtsFiles))] and the options. *)
Record Program (C : Type) := mkProgram {
  rootInputs : list string;
  rootDtsFiles : list string;
  programOptions : C
}.

Arguments mkProgram {C}.
Arguments rootInputs {C}.
Arguments rootDtsFiles {C}.
Arguments programOptions {C}.

Definition rootNames {C} (p : Program C) : list string := rootInputs p ++ rootDtsFiles p.

(** The variables of the loop of [createPrograms]. *)
Record Grouping (C : Type) := mkGrouping {
  g_programs : list (Program C);
  g_inputs : list string;
  g_dtsFiles : list string;
  g_dirName : string;
  g_compilerOptions : C
}.

Arguments mkGrouping {C}.
Arguments g_programs {C}.
Arguments g_inputs {C}.
Arguments g_dtsFiles {C}.
Arguments g_dirName {C}.
Arguments g_compilerOptions {C}.

Section programs.
Context {C O : Type}.

(** [path.resolve], [getCompilerOptions] and the empty object [{}] *)
Variable resolve : string → string.
Variable getCompilerOptions : string → O → Options C.
Variable noOptions : C.

Definition createPrograms_step (overrideOptions : O) (g : Grouping C) (main : string)
    : Grouping C :=
  if endsWith main dts then g
  else
    let main := resolve main in
    let options := getCompilerOptions main overrideOptions in
    let dtsFiles := foldl (λ set f, set_add f set) (g_dtsFiles g) (dtsFiles options) in
    match g_inputs g with
    | [] =>
        {| g_programs := g_programs g; g_inputs := [main]; g_dtsFiles := dtsFiles;
           g_dirName := dirName options; g_compilerOptions := compilerOptions options |}
    | _ :: _ =>
        if String.eqb (dirName options) (g_dirName g) then
          {| g_programs := g_programs g; g_inputs := g_inputs g ++ [main];
             g_dtsFiles := dtsFiles;
             g_dirName := g_dirName g; g_compilerOptions := g_compilerOptions g |}
        else
          {| g_programs :=
               g_programs g ++
               [ {| rootInputs := g_inputs g; rootDtsFiles := dtsFiles;
                    programOptions := g_compilerOptions g |} ];
             g_inputs := [main]; g_dtsFiles := dtsFiles;
             g_dirName := dirName options; g_compilerOptions := compilerOptions options |}
    end.

Definition createPrograms (input : list string) (overrideOptions : O) : list (Program C) :=
  let g := foldl (createPrograms_step overrideOptions)
             {| g_programs := []; g_inputs := []; g_dtsFiles := [];
                g_dirName := EmptyString; g_compilerOptions := noOptions |} input in
  match g_inputs g with
  | [] => g_programs g
  | _ :: _ =>
      g_programs g ++
      [ {| rootInputs := g_inputs g; rootDtsFiles := g_dtsFiles g;
           programOptions := g_compilerOptions g |} ]
  end.

End programs.

End Plugin.

(** * Notions for the properties of the code *)

(** ** Scopes and references *)

(** the stack [l] starts with the scopes of [base], each of which may have
    gained names *)
Definition Above (base l : list (gset string)) : Prop :=
  ∃ base' rest, l = base' ++ rest ∧ Forall2 (⊆) base base'.

(** a reference whose root, when [pushReference] finds one, is bound in no
    scope of [base] *)
Definition Unbound (base : list (gset string)) (r : AssignmentPattern) : Prop :=
  ∀ name, DeclarationScope.referenceName (right r) = Some name →
          name ≠ EmptyString → DeclarationScope.boundIn name base = false.

(** A method that keeps the scopes it does not pop, and pushes no
    reference rooted at a name they bind. *)
Definition Shields {A} (m : ScopeM A) : Prop :=
  ∀ s a s' base, m s = Ok (a, s') → Above base (scopes s.1) →
    (length base ≤ depth s')%nat →
    Above base (scopes s'.1) ∧
    ∃ extra, params (declaration s'.1) = params (declaration s.1) ++ extra ∧
             Forall (Unbound base) extra.


(** [node.name] of a type parameter *)
Definition typeParameterName (node : TypeParameterDeclaration) : Identifier :=
  match node with TypeParameter name _ _ => name end.


(** ** The graph builder *)

(** the statement declares a name that has a node already *)
Definition merges (node : Statement) (this : Transformer) : bool :=
  match declaredName node with
  | Some id => bool_decide (is_Some (declarations this !! getText id))
  | None => false
  end.

(** the names the statements of a file declare *)
Definition namesDeclared (stmts : list Statement) : list string :=
  omap (λ node, getText <$> declaredName node) stmts.

(** A method that appends [n] statements to [ast.body] and leaves the
    other fields of the transformer alone. *)
Definition Adds (n : nat) {A} (m : TransM A) : Prop :=
  ∀ s a s', m s = Ok (a, s') →
    length (ast_body s'.1) = (length (ast_body s.1) + n)%nat ∧
    declarations s'.1 = declarations s.1 ∧
    typeReferences s'.1 = typeReferences s.1 ∧
    exports s'.1 = exports s.1 ∧
    ast_range s'.1 = ast_range s.1.

(** the identifiers a node takes from the counter: the callee of its IIFE,
    when it has one, and the left-hand names of its references *)
Definition nodeMarkers (n : BodyNode) : list string :=
  match n with
  | N_Scope sc =>
      match iife sc with Some f => [callee f] | None => [] end ++
      map left (params (declaration sc))
  | N_Statement _ => []
  end.

Definition allMarkers (body : list BodyNode) : list string := body ≫= nodeMarkers.

(** The identifiers of the program are the numerals of distinct values
    the counter went through since [lo]. *)
Record Fresh (lo : N) (s : Transformer * N) : Prop := mkFresh {
  fresh_counter : (lo ≤ s.2)%N;
  fresh_range : ∀ x, x ∈ allMarkers (ast_body s.1) →
    ∃ k, x = String_ k ∧ (lo ≤ k < s.2)%N;
  fresh_distinct : NoDup (allMarkers (ast_body s.1))
}.

Definition KeepsFresh {A} (m : TransM A) : Prop :=
  ∀ lo s a s', Fresh lo s → m s = Ok (a, s') → Fresh lo s'.

(** ** The pre-processor *)

(** ranges of one name that [pushNamedNode] would have merged: none ends
    where the next one starts *)
Definition NoTouch (ranges : list (Z * Z)) : Prop :=
  ∀ i a b, ranges !! i = Some a → ranges !! S i = Some b → a.2 ≠ b.1.

Section preprocessor_states.
Import PreProcess.

(** a default-exported function or class without a name *)
Definition namelessDefault (node : Statement) : bool :=
  matchesModifier node ExportDefault &&
  match shape node with
  | Declaration (FunctionDeclaration | ClassDeclaration) None _ _ _ => true
  | _ => false
  end.

Context {T : Type} `{MagicString.Ops T}.

(** the state pass 2 starts from *)
Definition afterPass1 (sourceFile : SourceFile) : @State T :=
  foldl (pass1 (getFullText sourceFile)) (initial sourceFile) (statements sourceFile).

(** What holds of the names pass 2 makes up, over the names [D0] that
    were declared before it. *)
Record Synthesized (D0 : gset string) (s : @State T) : Prop := mkSynthesized {
  syn_declared : D0 ⊆ declaredNames s;
  syn_keys : NoDup (map fst (inlineImports s));
  syn_names : NoDup (map snd (inlineImports s));
  syn_import : ∀ fileId name, (fileId, name) ∈ inlineImports s →
    (name ∈ declaredNames s) ∧ (name ∉ D0) ∧
    (∃ k, name = underscores k (sanitize fileId));
  syn_default : defaultExport s = EmptyString ∨ defaultExport s ∈ declaredNames s;
  syn_apart : ∀ fileId name, (fileId, name) ∈ inlineImports s →
    defaultExport s ≠ EmptyString → name ≠ defaultExport s
}.

(** what pass 1 keeps of the exported names and the default export *)
Definition ExportsOk (s : @State T) : Prop :=
  NoDup (exportedNames s) ∧
  (∀ n, n ∈ exportedNames s → n ∈ declaredNames s) ∧
  (defaultExport s = EmptyString ∨ defaultExport s ∈ declaredNames s) ∧
  inlineImports s = [].

(** what pass 1 keeps of the ranges it collects *)
Definition RangesOk (s : @State T) : Prop :=
  NoDup (map fst (nameRanges s)) ∧
  Forall (λ entry, entry.2 ≠ [] ∧ NoTouch entry.2) (nameRanges s).

End preprocessor_states.

(** ** The namespace reconstructor *)

Section fixer_places.
Import NamespaceFixer.

(** The places of the namespaces lie inside the first [bound] characters
    and come last place first, none overlapping the one before it. *)
Fixpoint Within (bound : Z) (namespaces : list Namespace) : Prop :=
  match namespaces with
  | [] => True
  | ns :: rest =>
      0 ≤ start (location ns) ≤ end_ (location ns) ∧ end_ (location ns) ≤ bound ∧
      Within (start (location ns)) rest
  end.

(** The statements of a parsed file follow each other between [from] and
    [upto], and the module specifier of an import or export lies inside
    its statement, with room for the six characters in front of its
    closing quote. *)
Fixpoint Ascending (from upto : Z) (nodes : list Statement) : Prop :=
  match nodes with
  | [] => from ≤ upto
  | node :: rest =>
      from ≤ getStart (Statement_pos node) ≤ getEnd (Statement_pos node) ∧
      match node with
      | ImportOrExportDeclaration _ (Some (_, e)) =>
          getStart (Statement_pos node) ≤ e - 6 ∧ e - 1 ≤ getEnd (Statement_pos node)
      | _ => True
      end ∧
      Ascending (getEnd (Statement_pos node)) upto rest
  end.

(** the statements [findNamespaces] records a namespace for *)
Definition isMarker (node : Statement) : bool :=
  match node with
  | EmptyStatement _ => true
  | ImportOrExportDeclaration _ (Some (text, _)) =>
      startsWith text "." && endsWith text ".d.ts"
  | VariableStatement _ [decl] =>
      match initializer decl with
      | Some (CallExpression expression _) =>
          includes expression "/*#__PURE__*/Object.freeze"
      | _ => false
      end
  | _ => false
  end.

(** a class or function declaration without a name, and the message of
    the error [node.name.getText()] throws on it *)
Definition nameless (node : Statement) : bool :=
  match node with
  | ClassDeclaration _ None _ | FunctionDeclaration _ None => true
  | _ => false
  end.

Definition namelessMessage : string :=
  "Cannot read properties of undefined (reading 'getText')".

End fixer_places.

(** ** The programs of the plugin *)

(** the inputs the loop of [createPrograms] has put into programs, and the
    ones it holds for the next program *)
Definition allInputs {C} (g : Plugin.Grouping C) : list string :=
  concat (map Plugin.rootInputs (Plugin.g_programs g)) ++ Plugin.g_inputs g.

Section program_notions.
Context {C O : Type}.
Variable getCompilerOptions : string → O → Plugin.Options C.
Variable overrideOptions : O.

(** the inputs of a group share the directory and the options of the
    first one, and [dtsFiles] has the declaration files of each *)
Definition GroupOk (inputs dtsFiles : list string) (dirName : string) (options : C) : Prop :=
  NoDup dtsFiles ∧
  (∀ first rest, inputs = first :: rest →
     options = Plugin.compilerOptions (getCompilerOptions first overrideOptions)) ∧
  ∀ main, main ∈ inputs →
    Plugin.dirName (getCompilerOptions main overrideOptions) = dirName ∧
    Plugin.dtsFiles (getCompilerOptions main overrideOptions) ⊆ dtsFiles.

Definition ProgramOk (p : Plugin.Program C) : Prop :=
  ∃ dirName, GroupOk (Plugin.rootInputs p) (Plugin.rootDtsFiles p) dirName
               (Plugin.programOptions p).

(** the inputs of two programs lie in different directories *)
Definition Apart (p q : Plugin.Program C) : Prop :=
  ∀ main main', main ∈ Plugin.rootInputs p → main' ∈ Plugin.rootInputs q →
    Plugin.dirName (getCompilerOptions main overrideOptions) ≠
    Plugin.dirName (getCompilerOptions main' overrideOptions).

Definition Neighbours (programs : list (Plugin.Program C)) : Prop :=
  ∀ i p q, programs !! i = Some p → programs !! S i = Some q → Apart p q.

(** the invariant of the loop of [createPrograms] *)
Definition GroupingOk (g : Plugin.Grouping C) : Prop :=
  GroupOk (Plugin.g_inputs g) (Plugin.g_dtsFiles g) (Plugin.g_dirName g)
    (Plugin.g_compilerOptions g) ∧
  Forall ProgramOk (Plugin.g_programs g) ∧
  Neighbours (Plugin.g_programs g) ∧
  ∀ p, last (Plugin.g_programs g) = Some p →
    Plugin.g_inputs g ≠ [] ∧
    ∀ main, main ∈ Plugin.rootInputs p →
      Plugin.dirName (getCompilerOptions main overrideOptions) ≠ Plugin.g_dirName g.

End program_notions.

(** * More examples *)


Definition reference_to_U : TypeNode :=
  TN_TypeReference (EN_Identifier (ident "U" 30 31 32)) None.



(** a scope stack that binds [T] *)
Definition scope_binding_T : DeclarationScope :=
  {| scopes := [ {[ "T" ]} ];
     declaration := {| fn_id := None; params := []; fn_range := mkRange 0 0 |};
     iife := None |}.

(** the tuple type [[T, U]] *)
Definition tuple_T_U : TypeNode :=
  TN_Tuple
    [ TN_TypeReference (EN_Identifier (ident "T" 1 1 2)) None;
      reference_to_U ].

(** [interface Foo {a: number}], [export { Foo };] and
    [declare namespace Foo {}], one per line *)
Definition export_Foo : Statement :=
  ExportDeclaration (mkPos 25 26 40) None
    (Some (NamedExports
       [ {| es_name := (ident "Foo" 34 35 38);
            es_propertyName := None |} ])).

Definition later_namespace : Statement :=
  ModuleDeclaration (mkPos 40 41 65) false
    (ModuleName_Identifier (ident "Foo" 58 59 62)) (Some []).

Definition collapsing_before : Transformer * N :=
  state_of (Transformer.new {| sf_pos := mkPos 0 0 65;
                               statements := [ merging_interface; export_Foo ] |} 1).

Definition collapsing_after : Transformer * N :=
  state_of (Transformer.new
              {| sf_pos := mkPos 0 0 65;
                 statements := [ merging_interface; export_Foo; later_namespace ] |} 1).

(** [declare global { interface Window { app: App } }] *)
Definition global_unit : SourceFile :=
  {| sf_pos := mkPos 0 0 48;
     statements :=
       [ ModuleDeclaration (mkPos 0 0 48) true
           (ModuleName_Identifier (ident "global" 7 8 14))
           (Some [ InterfaceDeclaration (mkPos 16 17 46)
                     (ident "Window" 26 27 33)
                     {| cl_typeParameters := None; cl_heritageClauses := None;
                        cl_members :=
                          [ TE_Property (Some PN_Plain)
                              (Some (TN_TypeReference
                                 (EN_Identifier
                                    (ident "App" 40 41 44))
                                 None)) ] |} ]) ] |}.

(** [export type A = import("./b").B;] *)
Definition inline_import_unit : PreProcess.SourceFile :=
  {| PreProcess.getFullText := "export type A = import(" +:+ quoted "./b" +:+ ").B;";
     PreProcess.statements :=
       [ {| PreProcess.shape :=
              PreProcess.Declaration PreProcess.TypeAliasDeclaration (Some "A") false 0
                noToken;
            PreProcess.pos := mkPos 0 0 32;
            PreProcess.modifiers :=
              [ PreProcess.mkToken PreProcess.ExportKeyword (mkPos 0 0 6) ];
            PreProcess.getCombinedModifierFlags := PreProcess.Export;
            PreProcess.forEachChild :=
              [ PreProcess.OtherNode []; PreProcess.OtherNode [];
                PreProcess.ImportTypeNode (mkPos 15 16 31)
                  (PreProcess.StringLiteralType "./b") 16 (Some 29)
                  [ PreProcess.OtherNode [ PreProcess.OtherNode [] ];
                    PreProcess.OtherNode [] ] ] |} ];
     PreProcess.typeReferenceDirectives := [] |}.

(** [export default function () {}] *)
Definition nameless_default_unit : PreProcess.SourceFile :=
  {| PreProcess.getFullText := "export default function () {}";
     PreProcess.statements :=
       [ {| PreProcess.shape :=
              PreProcess.Declaration PreProcess.FunctionDeclaration None false 23
                (PreProcess.mkToken PreProcess.OtherPunctuation (mkPos 23 24 25));
            PreProcess.pos := mkPos 0 0 29;
            PreProcess.modifiers :=
              [ PreProcess.mkToken PreProcess.ExportKeyword (mkPos 0 0 6);
                PreProcess.mkToken PreProcess.DefaultKeyword (mkPos 6 7 14) ];
            PreProcess.getCombinedModifierFlags := PreProcess.ExportDefault;
            PreProcess.forEachChild := [ PreProcess.OtherNode [] ] |} ];
     PreProcess.typeReferenceDirectives := [] |}.

(** the directive [/// <reference types="node" />] on two lines, then
    [export {};] *)
Definition reference_directive : string :=
  "/// <reference types=" +:+ quoted "node" +:+ " />".

Definition reference_unit : PreProcess.SourceFile :=
  {| PreProcess.getFullText :=
       reference_directive +:+ newline +:+ reference_directive +:+ newline +:+
       "export {};";
     PreProcess.statements :=
       [ {| PreProcess.shape := PreProcess.OtherStatement;
            PreProcess.pos := mkPos 61 62 72;
            PreProcess.modifiers := [];
            PreProcess.getCombinedModifierFlags := 0;
            PreProcess.forEachChild := [ PreProcess.OtherNode [] ] |} ];
     PreProcess.typeReferenceDirectives :=
       [ {| PreProcess.fileName := "node"; PreProcess.lineStart := 0;
            PreProcess.lineEnd := 30 |};
         {| PreProcess.fileName := "node"; PreProcess.lineStart := 31;
            PreProcess.lineEnd := 61 |} ] |}.

(** a chunk with an interface, the marker of a namespace that exports it
    and an empty statement:
<<
interface A {}
const ns = /*#__PURE__*/Object.freeze({ __proto__: null, A: A });
;
>> *)
Definition typed_chunk : NamespaceFixer.SourceFile :=
  {| NamespaceFixer.getFullText :=
       "interface A {}" +:+ newline +:+
       "const ns = /*#__PURE__*/Object.freeze({ __proto__: null, A: A });" +:+ newline +:+
       ";";
     NamespaceFixer.statements :=
       [ NamespaceFixer.InterfaceDeclaration (mkPos 0 0 14) "A" None;
         NamespaceFixer.VariableStatement (mkPos 14 15 80)
           [ {| NamespaceFixer.name_getText := "ns";
                NamespaceFixer.initializer :=
                  Some (NamespaceFixer.CallExpression " /*#__PURE__*/Object.freeze"
                    (Some (NamespaceFixer.ObjectLiteralExpression
                       [ NamespaceFixer.PropertyAssignment (mkPos 54 55 70)
                           (Some "__proto__") None;
                         NamespaceFixer.PropertyAssignment (mkPos 71 72 76)
                           (Some "A") (Some "A") ]))) |} ];
         NamespaceFixer.EmptyStatement (mkPos 80 81 82) ] |}.

(** what [findNamespaces] returns for it *)
Definition typed_chunk_namespace : NamespaceFixer.Namespace :=
  {| NamespaceFixer.name := "ns";
     NamespaceFixer.exports :=
       [ {| NamespaceFixer.exportedName := "A"; NamespaceFixer.localName := "A" |} ];
     NamespaceFixer.location := {| start := 15; end_ := 80 |} |}.

Definition typed_chunk_empty : NamespaceFixer.Namespace :=
  {| NamespaceFixer.name := EmptyString;
     NamespaceFixer.exports := [];
     NamespaceFixer.location := {| start := 81; end_ := 82 |} |}.

Definition typed_chunk_items : NamespaceFixer.Items :=
  NamespaceFixer.items_set "A"
    {| NamespaceFixer.type := "interface"; NamespaceFixer.generics := None |}
    {| NamespaceFixer.own := ∅; NamespaceFixer.proto := None |}.

(** a chunk without markers *)
Definition plain_chunk : NamespaceFixer.SourceFile :=
  {| NamespaceFixer.getFullText := "interface A {}";
     NamespaceFixer.statements :=
       [ NamespaceFixer.InterfaceDeclaration (mkPos 0 0 14) "A" None ] |}.

(** a default-exported class without a name: [export default class {}] *)
Definition nameless_chunk : NamespaceFixer.SourceFile :=
  {| NamespaceFixer.getFullText := "export default class {}";
     NamespaceFixer.statements :=
       [ NamespaceFixer.ClassDeclaration (mkPos 0 0 23) None None ] |}.

(** two inputs next to one [tsconfig.json], one next to another, and a
    declaration file *)
Definition example_input : list string := [ "a/x.ts"; "a/y.ts"; "b/z.ts"; "c.d.ts" ].

Definition example_resolve (main : string) : string := "/root/" +:+ main.

Definition example_getCompilerOptions (main : string) (overrideOptions : unit)
    : Plugin.Options nat :=
  if startsWith main "/root/a/"
  then {| Plugin.dtsFiles := [ "/root/a/types.d.ts" ]; Plugin.dirName := "/root/a";
          Plugin.compilerOptions := 1%nat |}
  else {| Plugin.dtsFiles := []; Plugin.dirName := "/root/b";
          Plugin.compilerOptions := 2%nat |}.

Definition example_program_a : Plugin.Program nat :=
  {| Plugin.rootInputs := [ "/root/a/x.ts"; "/root/a/y.ts" ];
     Plugin.rootDtsFiles := [ "/root/a/types.d.ts" ];
     Plugin.programOptions := 1%nat |}.

Definition example_program_b : Plugin.Program nat :=
  {| Plugin.rootInputs := [ "/root/b/z.ts" ];
     Plugin.rootDtsFiles := [ "/root/a/types.d.ts" ];
     Plugin.programOptions := 2%nat |}.

(** the type references recorded for two files, and the modules of a chunk,
    the first one named with a backslash *)
Definition example_allTypeReferences : list (string * list string) :=
  [ ("src/a.d.ts", [ "node" ]); ("src/b.d.ts", [ "node"; "react" ]) ].

Definition example_modules : list string :=
  [ "src" +:+ String Plugin.backslash "a.d.ts"; "src/b.d.ts"; "src/c.d.ts" ].

(** two statements on two lines; the second one starts at the line feed *)
Definition two_lines : string := "type A = 1;" +:+ newline +:+ "type B = 2;".


(** * Proofs *)

(** ** Stateful computations *)

Lemma bind_Ok {S A B} (m : M S A) (k : A → M S B) s b s'' :
  bind m k s = Ok (b, s'') → ∃ a s', m s = Ok (a, s') ∧ k a s' = Ok (b, s'').
Proof.
  unfold bind. destruct (m s) as [[a s']|e]; [|done]. eauto.
Qed.

Lemma Frame_refl s : Frame s s.
Proof.
  repeat split. exists []. rewrite app_nil_r. cbn. split; [done|]. split; [lia|].
  intros i r Hi. done.
Qed.

Lemma Frame_trans s1 s2 s3 : Frame s1 s2 → Frame s2 s3 → Frame s1 s3.
Proof.
  intros (Hi1 & Hr1 & Hf1 & e1 & Hp1 & Hn1 & He1) (Hi2 & Hr2 & Hf2 & e2 & Hp2 & Hn2 & He2).
  repeat split; try congruence.
  exists (e1 ++ e2). split; [by rewrite Hp2, Hp1, app_assoc|].
  split; [rewrite Hn2, Hn1, length_app; lia|].
  intros i r Hi. apply lookup_app_Some in Hi as [Hi|[Hlen Hi]].
  - by apply He1.
  - apply He2 in Hi. rewrite Hi, Hn1. f_equal. lia.
Qed.

Lemma Moves_ret {A} (a : A) : Balanced (ret a : ScopeM A).
Proof. intros s a' s' [= <- <-]. split; [apply Frame_refl|done]. Qed.

Lemma Moves_bind {A B} f g (m : ScopeM A) (k : A → ScopeM B) :
  Moves f m → (∀ a, Moves g (k a)) → Moves (λ d, g (f d)) (bind m k).
Proof.
  intros Hm Hk s b s'' (a & s' & H1 & H2)%bind_Ok.
  apply Hm in H1 as [F1 D1]. apply Hk in H2 as [F2 D2].
  split; [by eapply Frame_trans|congruence].
Qed.

Lemma Moves_ext {A} f g (m : ScopeM A) :
  (∀ d, f d = g d) → Moves f m → Moves g m.
Proof. intros E Hm s a s' H. apply Hm in H as [? ?]. split; [done|]. by rewrite <- E. Qed.

Lemma Moves_throw {A} f e : Moves f (throw e : ScopeM A).
Proof. intros s a s' H. done. Qed.

Lemma Moves_modify_scopes f g :
  (∀ l, length (g l) = f (length l)) →
  Moves f (modify (λ '(this, IDs), (with_scopes g this, IDs)) : ScopeM unit).
Proof.
  intros Hg [this IDs] [] s' [= <-]. split.
  - repeat split. exists []. cbn. rewrite app_nil_r. split; [done|]. split; [lia|]. done.
  - unfold depth. cbn. apply Hg.
Qed.

Lemma pushScope_Moves : Moves S DeclarationScope.pushScope.
Proof. apply Moves_modify_scopes. intros l. rewrite length_app. cbn. lia. Qed.

Lemma length_removelast {A} (l : list A) : length (removelast l) = (length l - 1)%nat.
Proof.
  induction l as [|x [|y l] IH]; [done..|].
  change (removelast (x :: y :: l)) with (x :: removelast (y :: l)).
  cbn [length]. rewrite IH. cbn. lia.
Qed.

Lemma popScope_Moves n : Moves (λ d, (d - n)%nat) (DeclarationScope.popScope n).
Proof.
  induction n as [|n IH]; cbn.
  - eapply Moves_ext; [|apply Moves_ret]. intros; cbn; lia.
  - eapply Moves_ext; [|eapply Moves_bind; [apply (Moves_modify_scopes (λ d, (d - 1)%nat))|intros; apply IH]].
    + intros; cbn; lia.
    + intros l. apply length_removelast.
Qed.

Lemma length_addToLast name l : length (addToLast name l) = length l.
Proof. induction l as [|x [|y l] IH]; [done..|]. cbn in *. by rewrite IH. Qed.

Lemma pushTypeVariable_Moves id : Balanced (DeclarationScope.pushTypeVariable id).
Proof. apply Moves_modify_scopes. apply length_addToLast. Qed.

Lemma pushRaw_spec r this IDs :
  DeclarationScope.pushRaw r (this, IDs) =
  Ok (tt, ({| scopes := scopes this;
              declaration := {| fn_id := fn_id (declaration this);
                                params := params (declaration this) ++ [r];
                                fn_range := fn_range (declaration this) |};
              iife := iife this |}, IDs)).
Proof. done. Qed.

Lemma pushReference_Moves id : Balanced (DeclarationScope.pushReference id).
Proof.
  intros [this IDs] [] s'. unfold DeclarationScope.pushReference.
  assert (Hemit : ∀ s', (let '(ref, IDs') := createReference id IDs in
             DeclarationScope.pushRaw ref (this, IDs')) = Ok ((), s') →
             Frame (this, IDs) s' ∧ depth s' = depth (this, IDs)).
  { clear s'. intros s'. cbn. intros [= <-]. split; [|done].
    repeat split. exists [{| left := String_ IDs; right := id |}]. cbn.
    split; [done|]. split; [lia|]. intros [|i] r; cbn; [|done].
    intros [= <-]. cbn. f_equal. lia. }
  destruct (DeclarationScope.referenceName id) as [name|]; [|apply Hemit].
  destruct (_ && _); [|apply Hemit].
  intros [= <-]. split; [apply Frame_refl|done].
Qed.

Lemma Balanced_bind {A B} (m : ScopeM A) (k : A → ScopeM B) :
  Balanced m → (∀ a, Balanced (k a)) → Balanced (bind m k).
Proof. intros Hm Hk. by apply (Moves_bind (λ d, d) (λ d, d)). Qed.

Lemma forEach_Moves {A} (f : A → ScopeM unit) (n : nat) (l : list A) :
  Forall (λ x, Moves (λ d, (d + n)%nat) (f x)) l →
  Moves (λ d, (d + n * length l)%nat) (forEach f l).
Proof.
  induction 1 as [|x l Hx Hl IH]; cbn [forEach].
  - eapply Moves_ext; [|apply Moves_ret]. intros; cbn; lia.
  - eapply Moves_ext; [|eapply Moves_bind; [apply Hx|intros; apply IH]].
    intros; cbn; lia.
Qed.

Lemma forEach_Balanced {A} (f : A → ScopeM unit) (l : list A) :
  Forall (λ x, Balanced (f x)) l → Balanced (forEach f l).
Proof.
  intros H. eapply Moves_ext; [|apply (forEach_Moves f 0 l)].
  - intros; cbn; lia.
  - eapply Forall_impl; [exact H|]. intros x Hx. eapply Moves_ext; [|exact Hx].
    intros; cbn; lia.
Qed.

Lemma whenSome_Balanced {A} (f : A → ScopeM unit) (o : option A) :
  (∀ x, o = Some x → Balanced (f x)) → Balanced (whenSome f o).
Proof. destruct o; cbn; [eauto|intros; apply Moves_ret]. Qed.

Lemma list_all_Forall {A} (P : A → Prop) (l : list A) :
  list_all A P l → Forall P l.
Proof. induction 1; constructor; auto. Qed.

Lemma option_all_Some {A} (P : A → Prop) (o : option A) :
  option_all A P o → ∀ x, o = Some x → P x.
Proof. destruct 1; [intros ? [= <-]; done|done]. Qed.

Lemma liftResult_Balanced {A} (r : Result A) : Balanced (DeclarationScope.liftResult r).
Proof.
  intros s a s'. unfold DeclarationScope.liftResult. destruct r; [|done].
  intros [= <- <-]. split; [apply Frame_refl|done].
Qed.

Lemma convertComputedPropertyName_Balanced name :
  Balanced (DeclarationScope.convertComputedPropertyName name).
Proof.
  unfold DeclarationScope.convertComputedPropertyName.
  destruct name as [[e|]|]; try apply Moves_ret.
  destruct e; try apply Moves_ret.
  - apply Balanced_bind; [apply liftResult_Balanced|intros; apply pushReference_Moves].
  - apply pushReference_Moves.
  - apply Moves_throw.
Qed.

Lemma typeParameters_Moves (typeParameters : option (list TypeParameterDeclaration)) :
  option_all _
    (list_all _ (λ t, Moves S (DeclarationScope.convertTypeParameter t) ∧
                      Balanced (whenSome DeclarationScope.convertTypeNode (constraintOf t))))
    typeParameters →
  Moves (λ d, (d + from_option length 0%nat typeParameters)%nat)
    (whenSome (forEach DeclarationScope.convertTypeParameter) typeParameters).
Proof.
  intros H. destruct H as [l Hl|]; cbn.
  - eapply Moves_ext; [|apply (forEach_Moves _ 1)].
    + intros; cbn; lia.
    + apply list_all_Forall in Hl. eapply Forall_impl; [exact Hl|].
      intros x [Hx _]. eapply Moves_ext; [|exact Hx]. intros; cbn; lia.
  - eapply Moves_ext; [|apply Moves_ret]. intros; cbn; lia.
Qed.


Lemma forEach_all {A} (f : A → ScopeM unit) (l : list A) :
  list_all A (λ x, Balanced (f x)) l → Balanced (forEach f l).
Proof. intros H. by apply forEach_Balanced, list_all_Forall. Qed.

Lemma whenSome_all {A} (f : A → ScopeM unit) (o : option A) :
  option_all A (λ x, Balanced (f x)) o → Balanced (whenSome f o).
Proof. intros H. apply whenSome_Balanced. by apply (option_all_Some _ _ H). Qed.

Lemma whenSome_forEach_all {A} (f : A → ScopeM unit) (o : option (list A)) :
  option_all _ (list_all A (λ x, Balanced (f x))) o → Balanced (whenSome (forEach f) o).
Proof. intros [l Hl|]; cbn; [by apply forEach_all|apply Moves_ret]. Qed.

Lemma forEach_whenSome_all {A} (f : A → ScopeM unit) (l : list (option A)) :
  list_all _ (option_all A (λ x, Balanced (f x))) l → Balanced (forEach (whenSome f) l).
Proof.
  intros H. apply forEach_Balanced.
  induction H as [|o Ho l Hl IH]; constructor; [by apply whenSome_all|done].
Qed.

(** chain the effects of a sequence of calls, then compare the depths *)
Ltac moves_chain :=
  repeat first
    [ apply pushScope_Moves
    | apply popScope_Moves
    | apply pushTypeVariable_Moves
    | apply pushReference_Moves
    | apply convertComputedPropertyName_Balanced
    | apply liftResult_Balanced
    | apply Moves_ret
    | apply Moves_throw
    | apply typeParameters_Moves; assumption
    | apply whenSome_all; assumption
    | apply forEach_all; assumption
    | apply whenSome_forEach_all; assumption
    | apply forEach_whenSome_all; assumption
    | match goal with H : Balanced ?m |- Moves _ ?m => exact H end
    | match goal with H : ∀ x, Balanced (?m x) |- Moves _ (?m _) => apply H end
    | match goal with H : Moves ?f ?m |- Moves _ ?m => exact H end
    | eapply Moves_bind; [|intros ?] ].

Ltac moves :=
  eapply Moves_ext; cycle 1; [moves_chain..|intros ?; first [reflexivity|cbn; lia]].

Lemma convertTypeNode_Balanced_mut :
  (∀ node, Balanced (DeclarationScope.convertTypeNode node)) ∧
  (∀ node, Balanced (DeclarationScope.convertMember node)) ∧
  (∀ node, Balanced (DeclarationScope.convertParametersAndType node)) ∧
  (∀ node, Moves S (DeclarationScope.convertTypeParameter node) ∧
           Balanced (whenSome DeclarationScope.convertTypeNode (constraintOf node))).
Proof.
  apply TypeNode_mutind; intros; cbn [DeclarationScope.convertTypeNode
    DeclarationScope.convertMember DeclarationScope.convertParametersAndType
    DeclarationScope.convertTypeParameter];
    try match goal with |- context [match ?t with TypeParameter _ _ _ => _ end] =>
      destruct t end;
    repeat match goal with H : _ ∧ _ |- _ => destruct H end;
    try match goal with |- _ ∧ _ => split end; cbn [constraintOf] in *;
    unfold Balanced in *; moves.
Qed.

Lemma Moves_pointwise {A} f (m m' : ScopeM A) :
  (∀ s, m s = m' s) → Moves f m' → Moves f m.
Proof. intros E H s a s' Hm. rewrite E in Hm. exact (H s a s' Hm). Qed.

Lemma convertTypeParameters_bind {B} params (k : nat → ScopeM B) s :
  bind (DeclarationScope.convertTypeParameters params) k s =
  bind (whenSome (forEach DeclarationScope.convertTypeParameter) params)
       (λ _, k (from_option length 0%nat params)) s.
Proof.
  destruct params as [l|]; cbn; [|done].
  unfold bind. by destruct (forEach _ l s) as [[[] s']|].
Qed.

Lemma convertTypeParameters_Moves params :
  Moves (λ d, (d + from_option length 0%nat params)%nat)
    (whenSome (forEach DeclarationScope.convertTypeParameter) params).
Proof.
  destruct params as [l|]; cbn.
  - eapply Moves_ext; [|apply (forEach_Moves _ 1)].
    + intros; cbn; lia.
    + apply Forall_forall. intros x _.
      eapply Moves_ext; [|apply convertTypeNode_Balanced_mut]. intros; cbn; lia.
  - eapply Moves_ext; [|apply Moves_ret]. intros; cbn; lia.
Qed.

Lemma convertTypeNode_Balanced node : Balanced (DeclarationScope.convertTypeNode node).
Proof. apply convertTypeNode_Balanced_mut. Qed.

Lemma convertMembers_Balanced members : Balanced (DeclarationScope.convertMembers members).
Proof.
  apply forEach_Balanced, Forall_forall. intros x _. apply convertTypeNode_Balanced_mut.
Qed.

Lemma convertParametersAndType_Balanced node :
  Balanced (DeclarationScope.convertParametersAndType node).
Proof. apply convertTypeNode_Balanced_mut. Qed.

Lemma convertTypeArguments_Balanced typeArguments :
  Balanced (DeclarationScope.convertTypeArguments typeArguments).
Proof.
  apply whenSome_Balanced. intros l _. apply forEach_Balanced, Forall_forall.
  intros x _. apply convertTypeNode_Balanced.
Qed.

Lemma convertHeritageClauses_Balanced heritageClauses :
  Balanced (DeclarationScope.convertHeritageClauses heritageClauses).
Proof.
  apply forEach_Balanced, Forall_forall. intros clause _.
  apply forEach_Balanced, Forall_forall. intros type _.
  apply Balanced_bind; [apply liftResult_Balanced|intros r].
  apply Balanced_bind; [apply pushReference_Moves|intros _].
  apply convertTypeArguments_Balanced.
Qed.

Ltac moves_chain ::=
  repeat first
    [ match goal with H : Balanced ?m |- Moves _ ?m => exact H end
    | match goal with H : Moves ?f ?m |- Moves _ ?m => exact H end
    | apply pushScope_Moves
    | apply popScope_Moves
    | apply pushTypeVariable_Moves
    | apply pushReference_Moves
    | apply convertComputedPropertyName_Balanced
    | apply liftResult_Balanced
    | apply Moves_ret
    | apply Moves_throw
    | apply convertTypeParameters_Moves
    | apply convertTypeNode_Balanced
    | apply convertMembers_Balanced
    | apply convertParametersAndType_Balanced
    | apply convertHeritageClauses_Balanced
    | apply convertTypeArguments_Balanced
    | apply whenSome_Balanced; intros ? ?
    | apply forEach_Balanced, Forall_forall; intros ? ?
    | eapply Moves_bind; [|intros ?] ].

Lemma convertClassLike_Balanced decl : Balanced (DeclarationScope.convertClassLike decl).
Proof.
  unfold DeclarationScope.convertClassLike.
  eapply Moves_pointwise; [apply convertTypeParameters_bind|]. moves.
Qed.

Lemma convertTypeAlias_Balanced typeParameters type :
  Balanced (DeclarationScope.convertTypeAlias typeParameters type).
Proof.
  unfold DeclarationScope.convertTypeAlias.
  eapply Moves_pointwise; [apply convertTypeParameters_bind|]. moves.
Qed.

Lemma convertFunctionSignature_Balanced name typeParameters parameters type :
  Balanced (DeclarationScope.convertFunctionSignature name typeParameters parameters type).
Proof. apply convertParametersAndType_Balanced. Qed.

Lemma hoist_Balanced stmt : Balanced (DeclarationScope.hoist stmt).
Proof.
  destruct stmt; cbn; unfold DeclarationScope.hoistName;
    repeat case_match; unfold Balanced; try (moves; fail).
  apply forEach_Balanced, Forall_forall. intros decl _. case_match; unfold Balanced; moves.
Qed.

Lemma walkChild_Balanced convertNamespace stmt :
  Balanced (convertNamespace stmt) →
  Balanced (DeclarationScope.walkChild convertNamespace stmt).
Proof.
  intros IH. destruct stmt; cbn; try done;
    try first [apply convertClassLike_Balanced | apply convertTypeAlias_Balanced
              | apply convertFunctionSignature_Balanced];
    repeat case_match; unfold Balanced, DeclarationScope.pushIdentifierReference; moves.
Qed.

Lemma convertNamespace_Balanced node : Balanced (DeclarationScope.convertNamespace node).
Proof.
  induction node; cbn [DeclarationScope.convertNamespace];
    try (unfold Balanced; moves; fail).
  destruct body as [statements|]; [|unfold Balanced; moves].
  assert (Forall (λ stmt, Balanced (DeclarationScope.walkChild
            DeclarationScope.convertNamespace stmt)) statements) as Hwalk.
  { match goal with H : option_all _ _ _ |- _ => inversion H as [? Hall|]; subst end.
    apply list_all_Forall in Hall. eapply Forall_impl; [exact Hall|].
    intros stmt. apply walkChild_Balanced. }
  assert (Balanced (forEach (DeclarationScope.walkChild
            DeclarationScope.convertNamespace) statements)) by by apply forEach_Balanced.
  assert (Balanced (forEach DeclarationScope.hoist statements)).
  { apply forEach_Balanced, Forall_forall. intros; apply hoist_Balanced. }
  unfold Balanced in *. moves.
Qed.


Lemma String__inj n m : String_ n = String_ m → n = m.
Proof.
  unfold String_. intros H. apply Unsigned.to_uint_inj.
  assert (∀ k, NilZero.uint_of_string (NilZero.string_of_uint (N.to_uint k))
               = Some (N.to_uint k)) as Hk.
  { intros k. apply NilZero.usu. destruct k; [done|]. cbn.
    pose proof (DecimalPos.Unsigned.to_uint_nonnil p). by destruct (Pos.to_uint p). }
  apply (f_equal NilZero.uint_of_string) in H. rewrite !Hk in H. congruence.
Qed.

(** ** The transformer between statements *)

Lemma onScope_Ok {A} i (m : ScopeM A) this IDs a s' :
  Transformer.onScope i m (this, IDs) = Ok (a, s') →
  ∃ sc sc' IDs', ast_body this !! i = Some (N_Scope sc) ∧
    m (sc, IDs) = Ok (a, (sc', IDs')) ∧
    s' = (with_body (λ body, <[i := N_Scope sc']> body) this, IDs').
Proof.
  unfold Transformer.onScope. destruct (ast_body this !! i) as [[sc|]|]; [|done..].
  destruct (m (sc, IDs)) as [[a' [sc' IDs']]|] eqn:Hm; [|done].
  intros [= <- <-]. eauto 10.
Qed.

Lemma allRefs_cons n body : allRefs (n :: body) = nodeRefs n ++ allRefs body.
Proof. done. Qed.

Lemma allRefs_app body1 body2 : allRefs (body1 ++ body2) = allRefs body1 ++ allRefs body2.
Proof. unfold allRefs. apply bind_app. Qed.

Lemma allRefs_insert body i n n' extra :
  body !! i = Some n → nodeRefs n' = nodeRefs n ++ extra →
  allRefs (<[i := n']> body) ≡ₚ allRefs body ++ extra.
Proof.
  revert i. induction body as [|x body IH]; intros [|i] Hi Hn; try done.
  - cbn in Hi. injection Hi as ->. cbn [insert list_insert]. rewrite !allRefs_cons, Hn.
    rewrite <- !app_assoc. apply Permutation_app_head, Permutation_app_comm.
  - cbn in Hi. change (<[S i := n']> (x :: body)) with (x :: <[i := n']> body).
    rewrite !allRefs_cons, <- app_assoc. apply Permutation_app_head. by apply IH.
Qed.

Lemma allRefs_map f body :
  (∀ n, nodeRefs (f n) = nodeRefs n) → allRefs (map f body) = allRefs body.
Proof.
  intros Hf. induction body as [|x body IH]; [done|].
  cbn [map]. by rewrite !allRefs_cons, Hf, IH.
Qed.

Lemma extra_names (extra : list AssignmentPattern) IDs :
  (∀ i r, extra !! i = Some r → left r = String_ (IDs + N.of_nat i)) →
  map left extra = map (λ i, String_ (IDs + N.of_nat i)) (seq 0 (length extra)).
Proof.
  intros H. apply list_eq. intros i. rewrite !list_lookup_fmap.
  destruct (extra !! i) as [r|] eqn:Hr; cbn.
  - rewrite (H _ _ Hr). rewrite lookup_seq_lt; [done|]. by eapply lookup_lt_Some.
  - rewrite lookup_seq_ge; [done|]. by apply lookup_ge_None.
Qed.

Lemma Inv_extend {R} this IDs i sc sc' IDs' :
  Inv R (this, IDs) → ast_body this !! i = Some (N_Scope sc) →
  Frame (sc, IDs) (sc', IDs') → length (scopes sc') = length (scopes sc) →
  Inv R (with_body (λ body, <[i := N_Scope sc']> body) this, IDs').
Proof.
  intros [Hd Hn Hreg Hs Hf Hnd] Hi (Hid & Hrange & Hiife & extra & Hp & HIDs & Hex) Hdepth.
  cbn [fst snd] in *.
  assert (nodeName (N_Scope sc') = nodeName (N_Scope sc)) as Hname.
  { cbn. by rewrite Hid. }
  assert (allRefs (<[i := N_Scope sc']> (ast_body this)) ≡ₚ allRefs (ast_body this) ++ extra)
    as Hperm by (eapply allRefs_insert; [exact Hi|done]).
  split; cbn [fst snd with_body ast_body declarations].
  - intros key j Hj. destruct (Hd _ _ Hj) as (sc0 & name & Hsc0 & Hnm & HR & Hii).
    destruct (decide (j = i)) as [->|Hne].
    + exists sc', name. rewrite list_lookup_insert_eq by by eapply lookup_lt_Some.
      assert (sc0 = sc) as -> by congruence. split; [done|].
      split; [by rewrite Hname|]. split; [done|congruence].
    + exists sc0, name. by rewrite list_lookup_insert_ne.
  - intros j n name Hj Hnm. destruct (decide (j = i)) as [->|Hne].
    + rewrite list_lookup_insert_eq in Hj by by eapply lookup_lt_Some.
      injection Hj as <-. rewrite Hname in Hnm. by eapply Hn.
    + rewrite list_lookup_insert_ne in Hj by done. by eapply Hn.
  - exact Hreg.
  - intros j sc0 Hj. destruct (decide (j = i)) as [->|Hne].
    + rewrite list_lookup_insert_eq in Hj by by eapply lookup_lt_Some.
      injection Hj as <-. apply nil_length_inv. rewrite Hdepth.
      by rewrite (Hs _ _ Hi).
    + rewrite list_lookup_insert_ne in Hj by done. by eapply Hs.
  - intros r Hr. rewrite Hperm in Hr. apply elem_of_app in Hr as [Hr|Hr].
    + destruct (Hf _ Hr) as (k & Hk & Hlt). exists k. split; [done|]. lia.
    + apply list_elem_of_lookup in Hr as [j Hj]. exists (IDs + N.of_nat j)%N.
      split; [by apply Hex|]. apply lookup_lt_Some in Hj. lia.
  - rewrite Hperm, map_app. apply NoDup_app. split; [done|]. split.
    + intros x Hx Hx'. apply list_elem_of_fmap in Hx as (r & -> & Hr).
      destruct (Hf _ Hr) as (k & Hk & Hlt).
      rewrite (extra_names _ _ Hex) in Hx'.
      apply list_elem_of_fmap in Hx' as (j & Hj & _).
      rewrite Hk in Hj. apply String__inj in Hj. lia.
    + rewrite (extra_names _ _ Hex). apply NoDup_fmap_2; [|apply NoDup_seq].
      intros a b Hab. apply String__inj in Hab. lia.
Qed.

Lemma Preserves_onScope {R A} i (m : ScopeM A) :
  Balanced m → Preserves R (Transformer.onScope i m).
Proof.
  intros Hm [this IDs] a s' HI (sc & sc' & IDs' & Hi & Hrun & ->)%onScope_Ok.
  apply Hm in Hrun as [HF Hd]. by eapply Inv_extend.
Qed.

Lemma Preserves_bind {R A B} (m : TransM A) (k : A → TransM B) :
  Preserves R m → (∀ a, Preserves R (k a)) → Preserves R (bind m k).
Proof.
  intros Hm Hk s b s'' HI (a & s' & H1 & H2)%bind_Ok. eapply Hk; [|exact H2]. by eapply Hm.
Qed.

Lemma Preserves_ret {R A} (a : A) : Preserves R (ret a).
Proof. by intros s a' s' HI [= <- <-]. Qed.

Lemma Preserves_throw {R A} e : Preserves R (throw e : TransM A).
Proof. by intros s a' s' HI. Qed.

Lemma Preserves_liftResult {R A} (r : Result A) :
  Preserves R (Transformer.liftResult r).
Proof.
  intros s a s' HI. unfold Transformer.liftResult. destruct r; [|done].
  by intros [= <- <-].
Qed.

Lemma RangeOnly_refl n : RangeOnly n n.
Proof. by destruct n. Qed.

Lemma RangeOnly_set_range r n : RangeOnly n (set_BodyNode_range r n).
Proof.
  destruct n as [sc|st]; [|done]. unfold RangeOnly. cbn.
  destruct (iife sc); repeat split; done.
Qed.

Lemma RangeOnly_set_end e n : RangeOnly n (set_declaration_end e n).
Proof. by destruct n as [sc|st]. Qed.

Lemma Forall2_RangeOnly_refl body : Forall2 RangeOnly body body.
Proof. induction body; constructor; auto using RangeOnly_refl. Qed.

Lemma RangeOnly_trans n1 n2 n3 : RangeOnly n1 n2 → RangeOnly n2 n3 → RangeOnly n1 n3.
Proof.
  intros (?&?&H1) (?&?&H2). split; [congruence|]. split; [congruence|].
  destruct n1, n2, n3; try done. destruct H1, H2. split; [congruence|auto].
Qed.

Lemma allRefs_RangeOnly body body' : Forall2 RangeOnly body body' → allRefs body' = allRefs body.
Proof.
  induction 1 as [|n n' body body' (_ & Hr & _) _ IH]; [done|].
  by rewrite !allRefs_cons, Hr, IH.
Qed.

Lemma Inv_RangeOnly {R} this IDs body' :
  Inv R (this, IDs) → Forall2 RangeOnly (ast_body this) body' →
  Inv R (with_body (λ _, body') this, IDs).
Proof.
  intros [Hd Hn Hreg Hs Hf Hnd] HR. cbn [fst snd] in *.
  split; cbn [fst snd with_body ast_body declarations].
  - intros key j Hj. destruct (Hd _ _ Hj) as (sc & name & Hsc & Hnm & Hkn & Hii).
    destruct (Forall2_lookup_l _ _ _ _ _ HR Hsc) as (n' & Hn' & (Hnn & _ & Hrest)).
    destruct n' as [sc'|]; [|done]. destruct Hrest as [_ Hi']. exists sc', name.
    split; [done|]. split; [congruence|]. split; [done|auto].
  - intros j n' name Hj Hnm.
    destruct (Forall2_lookup_r _ _ _ _ _ HR Hj) as (n & Hn0 & (Hnn & _)).
    eapply (Hn _ _ name); [exact Hn0|congruence].
  - exact Hreg.
  - intros j sc' Hj.
    destruct (Forall2_lookup_r _ _ _ _ _ HR Hj) as (n & Hn0 & (_ & _ & Hrest)).
    destruct n as [sc|]; [|done]. destruct Hrest as [-> _]. by eapply Hs.
  - rewrite (allRefs_RangeOnly _ _ HR). done.
  - by rewrite (allRefs_RangeOnly _ _ HR).
Qed.

Lemma RangeOnly_bumpAfter i e body : Forall2 RangeOnly body (bumpAfter i e body).
Proof.
  unfold bumpAfter. rewrite <- (take_drop (S i) body) at 1.
  apply Forall2_app.
  - apply Forall2_RangeOnly_refl.
  - induction (drop (S i) body); constructor; auto using RangeOnly_set_range.
Qed.

Lemma RangeOnly_alter f i body :
  (∀ n, RangeOnly n (f n)) → Forall2 RangeOnly body (alter f i body).
Proof.
  intros Hf. revert i. induction body as [|n body IH]; intros [|i]; cbn; constructor;
    auto using RangeOnly_refl, Forall2_RangeOnly_refl.
Qed.

Lemma Forall2_RangeOnly_trans b1 b2 b3 :
  Forall2 RangeOnly b1 b2 → Forall2 RangeOnly b2 b3 → Forall2 RangeOnly b1 b3.
Proof.
  intros H. revert b3. induction H; intros b3 H3; inversion H3; subst; constructor;
    eauto using RangeOnly_trans.
Qed.

Lemma Preserves_pushStatement {R} st :
  Preserves R (Transformer.pushStatement (N_Statement st)).
Proof.
  intros [this IDs] [] s' [Hd Hn Hreg Hs Hf Hnd] [= <-]. cbn [fst snd] in *.
  split; cbn [fst snd with_body ast_body declarations].
  - intros key j Hj. destruct (Hd _ _ Hj) as (sc & name & Hsc & ?). exists sc, name.
    split; [|done]. by apply lookup_app_l_Some.
  - intros j n name Hj Hnm. apply lookup_app_Some in Hj as [Hj|[_ Hj]]; [by eapply Hn|].
    apply list_lookup_singleton_Some in Hj as [_ <-]. done.
  - exact Hreg.
  - intros j sc Hj. apply lookup_app_Some in Hj as [Hj|[_ Hj]]; [by eapply Hs|].
    by apply list_lookup_singleton_Some in Hj as [_ ?].
  - rewrite allRefs_app. cbn. by rewrite app_nil_r.
  - rewrite allRefs_app. cbn. by rewrite app_nil_r.
Qed.

Lemma Inv_mono {R} this IDs IDs' : Inv R (this, IDs) → (IDs ≤ IDs')%N → Inv R (this, IDs').
Proof.
  intros [Hd Hn Hreg Hs Hf Hnd] Hle. split; try done. cbn [fst snd] in *.
  intros r Hr. destruct (Hf _ Hr) as (k & ? & ?). exists k. split; [done|lia].
Qed.

Lemma list_alter_insert_same {A} (f : A → A) i x (l : list A) :
  alter f i (<[i := x]> l) = <[i := f x]> l.
Proof. revert i. induction l as [|y l IH]; intros [|i]; cbn; f_equal; auto. Qed.

Lemma createDeclaration_merge {R} this IDs node id existing :
  Inv R (this, IDs) → declarations this !! getText id = Some existing →
  ∃ sc, ast_body this !! existing = Some (N_Scope sc) ∧
    Transformer.createDeclaration node (Some id) (this, IDs) =
    Ok (existing,
        (with_body (λ body, bumpAfter existing (getEnd node)
                     (<[existing := N_Scope (merged node id IDs sc)]> body)) this,
         (IDs + 1)%N)).
Proof.
  intros HI Hex. destruct (inv_declared _ _ HI _ _ Hex) as (sc & name & Hsc & Hnm & _).
  cbn [fst snd] in *. exists sc. split; [done|].
  pose proof (inv_scopes _ _ HI _ _ Hsc) as Hnil. cbn [fst] in Hnil.
  unfold Transformer.createDeclaration. cbn [newDeclarationScope]. rewrite Hex.
  unfold bind, Transformer.onScope. rewrite Hsc.
  unfold DeclarationScope.pushIdentifierReference, DeclarationScope.pushReference.
  cbn [createIdentifier DeclarationScope.referenceName]. rewrite Hnil.
  cbn [DeclarationScope.boundIn existsb]. rewrite andb_false_r.
  cbn [createReference]. rewrite pushRaw_spec. cbn [modify ret].
  do 3 f_equal. unfold with_body. cbn [ast_body]. f_equal. f_equal.
  rewrite list_alter_insert_same. done.
Qed.

Lemma pushIdentifierReference_Balanced id :
  Balanced (DeclarationScope.pushIdentifierReference id).
Proof. apply pushReference_Moves. Qed.

Lemma Inv_push_scope {R} this IDs IDs' sc (key : option string) :
  Inv R (this, IDs) → (IDs ≤ IDs')%N → scopes sc = [] → params (declaration sc) = [] →
  match key with
  | Some k => declarations this !! k = None ∧ iife sc = None ∧
              ∃ name, nodeName (N_Scope sc) = Some name ∧ R k name
  | None => nodeName (N_Scope sc) = None
  end →
  Inv R ({| ast_range := ast_range this;
            ast_body := ast_body this ++ [N_Scope sc];
            typeReferences := typeReferences this;
            declarations :=
              match key with
              | Some k => <[k := length (ast_body this)]> (declarations this)
              | None => declarations this
              end;
            exports := exports this |}, IDs').
Proof.
  intros [Hd Hn Hreg Hs Hf Hnd] Hle Hsc Hp Hnew. cbn [fst snd] in *.
  assert (∀ key' j, declarations this !! key' = Some j →
    (j < length (ast_body this))%nat ∧
    ∃ sc0 name, (ast_body this ++ [N_Scope sc]) !! j = Some (N_Scope sc0) ∧
                nodeName (N_Scope sc0) = Some name ∧ R key' name ∧ iife sc0 = None)
    as Hold.
  { intros key' j Hj. destruct (Hd _ _ Hj) as (sc0 & name & Hsc0 & ?).
    split; [by eapply lookup_lt_Some|]. exists sc0, name.
    split; [by apply lookup_app_l_Some|done]. }
  split; cbn [fst snd ast_body declarations].
  - intros key' j Hj. destruct key as [k|]; [|by apply Hold].
    destruct Hnew as (Hnone & Hii & name & Hname & HR).
    destruct (decide (k = key')) as [->|Hne].
    + rewrite lookup_insert_eq in Hj. injection Hj as <-. exists sc, name.
      split; [|done]. rewrite lookup_app_r by done. by rewrite Nat.sub_diag.
    + rewrite lookup_insert_ne in Hj by done. by apply Hold.
  - intros j n name' Hj Hnm. apply lookup_app_Some in Hj as [Hj|[Hlen Hj]].
    + destruct (Hn _ _ _ Hj Hnm) as [key0 Hdecl]. exists key0.
      destruct key as [k|]; [|done]. destruct Hnew as (Hnone & _).
      rewrite lookup_insert_ne; [done|]. intros ->. congruence.
    + apply list_lookup_singleton_Some in Hj as [Hj <-].
      destruct key as [k|]; [|congruence]. exists k.
      rewrite lookup_insert_eq. f_equal. lia.
  - intros k1 k2 j H1 H2. destruct key as [k|]; [|by eapply Hreg].
    destruct (decide (k = k1)) as [<-|Hne1]; destruct (decide (k = k2)) as [<-|Hne2];
      [done| | |].
    + rewrite lookup_insert_eq in H1. injection H1 as <-.
      rewrite lookup_insert_ne in H2 by done. apply Hold in H2 as [Hlt _]. lia.
    + rewrite lookup_insert_eq in H2. injection H2 as <-.
      rewrite lookup_insert_ne in H1 by done. apply Hold in H1 as [Hlt _]. lia.
    + rewrite lookup_insert_ne in H1, H2 by done. by eapply Hreg.
  - intros j sc0 Hj. apply lookup_app_Some in Hj as [Hj|[_ Hj]]; [by eapply Hs|].
    apply list_lookup_singleton_Some in Hj as [_ Hj]. congruence.
  - rewrite allRefs_app. cbn. rewrite Hp, app_nil_r. intros r Hr.
    destruct (Hf _ Hr) as (k & ? & ?). exists k. split; [done|lia].
  - rewrite allRefs_app. cbn. by rewrite Hp, app_nil_r.
Qed.

Lemma Preserves_modify_RangeOnly {R} g :
  (∀ body, Forall2 RangeOnly body (g body)) →
  Preserves R (modify (λ '(this, IDs), (with_body g this, IDs))).
Proof.
  intros Hg [this IDs] [] s' HI [= <-].
  apply (Inv_RangeOnly this IDs (g (ast_body this)) HI (Hg _)).
Qed.

(** [createDeclaration] keeps the invariant when the node it names, if
    any, gets a name [R] relates to the key *)
Lemma Preserves_createDeclaration {R} node id :
  match id with Some i => R (getText i) (idText i) | None => True end →
  Preserves R (Transformer.createDeclaration node id).
Proof.
  intros HR [this IDs] a s' HI. destruct id as [id|].
  - destruct (declarations this !! getText id) as [existing|] eqn:Hex.
    + unfold Transformer.createDeclaration. cbn [newDeclarationScope]. rewrite Hex.
      revert HI.
      apply Preserves_bind; [apply Preserves_onScope, pushIdentifierReference_Balanced|].
      intros _. apply Preserves_bind; [|intros _; apply Preserves_ret].
      apply Preserves_modify_RangeOnly. intros body.
      eapply Forall2_RangeOnly_trans; [|apply RangeOnly_bumpAfter].
      apply RangeOnly_alter, RangeOnly_set_end.
    + unfold Transformer.createDeclaration. cbn [newDeclarationScope]. rewrite Hex.
      intros [= <- <-].
      apply (Inv_push_scope this IDs IDs _ (Some (getText id))); first [done | lia | idtac].
      split; [done|]. split; [done|]. by exists (idText id).
  - unfold Transformer.createDeclaration. cbn. intros [= <- <-].
    apply (Inv_push_scope this IDs (IDs + 1) _ None); first [done | lia].
Qed.

Ltac preserves :=
  repeat first
    [ apply Preserves_createDeclaration
    | apply Preserves_pushStatement
    | apply Preserves_liftResult
    | apply Preserves_ret
    | apply Preserves_throw
    | apply Preserves_onScope
    | apply Preserves_bind; [|intros ?] ].

Lemma whenSome_convertTypeNode_Balanced type :
  Balanced (whenSome DeclarationScope.convertTypeNode type).
Proof. apply whenSome_Balanced. intros; apply convertTypeNode_Balanced. Qed.

#[local] Hint Resolve pushIdentifierReference_Balanced convertNamespace_Balanced
  convertFunctionSignature_Balanced convertClassLike_Balanced convertTypeAlias_Balanced
  whenSome_convertTypeNode_Balanced : core.

(** a statement keeps the invariant when [R] relates the name it declares,
    as written, to the name [ts.idText] gives its node *)
Lemma Preserves_convertStatement {R} node :
  (∀ id, declaredName node = Some id → R (getText id) (idText id)) →
  Preserves R (Transformer.convertStatement node).
Proof.
  intros Hnode.
  destruct node; cbn [Transformer.convertStatement];
    unfold Transformer.convertEnumDeclaration, Transformer.convertFunctionDeclaration,
      Transformer.convertClassOrInterfaceDeclaration,
      Transformer.convertTypeAliasDeclaration, Transformer.convertVariableStatement,
      Transformer.convertExportDeclaration, Transformer.convertExportAssignment,
      Transformer.convertNamespaceDeclaration, Transformer.removeStatement,
      Transformer.convertImportDeclaration, Transformer.convertImportEqualsDeclaration;
    repeat case_match; subst; preserves; auto;
    apply Hnode; cbn [declaredName];
    match goal with H : vd_name _ = _ |- _ => by rewrite H end.
Qed.

Lemma Inv_init {R} sourceFile IDs : Inv R (Transformer.init sourceFile, IDs).
Proof.
  split; cbn; try done.
  - intros r Hr. by apply elem_of_nil in Hr.
  - constructor.
Qed.

Lemma Preserves_forEach {R A} (f : A → TransM unit) l :
  (∀ x, x ∈ l → Preserves R (f x)) → Preserves R (forEach f l).
Proof.
  induction l as [|x l IH]; intros Hf; cbn [forEach]; [apply Preserves_ret|].
  apply Preserves_bind; [apply Hf, elem_of_cons; by left|intros _; apply IH].
  intros y Hy. apply Hf, elem_of_cons. by right.
Qed.

Lemma Reachable_Inv s : Reachable s → Inv anyName s.
Proof.
  intros (sourceFile & IDs & stmts & Hrun).
  eapply (Preserves_forEach _ stmts); [|apply Inv_init|exact Hrun].
  intros node _. by apply Preserves_convertStatement.
Qed.

Lemma Updated_onScope {A} i f (m : ScopeM A) s a s' :
  Moves f m → Transformer.onScope i m s = Ok (a, s') → Updated i s s'.
Proof.
  intros Hm. destruct s as [this IDs].
  intros (sc & sc' & IDs' & Hi & Hrun & ->)%onScope_Ok.
  apply Hm in Hrun as [HF _]. by exists sc, sc'.
Qed.

Lemma Updated_trans i s1 s2 s3 : Updated i s1 s2 → Updated i s2 s3 → Updated i s1 s3.
Proof.
  intros (sc1 & sc2 & H1 & F1 & E1) (sc2' & sc3 & H2 & F2 & E2).
  rewrite E1 in H2. cbn [with_body ast_body] in H2.
  rewrite list_lookup_insert_eq in H2 by by eapply lookup_lt_Some.
  injection H2 as <-. exists sc1, sc3. split; [done|].
  split; [by eapply Frame_trans|]. rewrite E2, E1. unfold with_body. cbn.
  by rewrite list_insert_insert_eq.
Qed.

Lemma Updated_onScope_Balanced {A} i (m : ScopeM A) s a s' :
  Balanced m → Transformer.onScope i m s = Ok (a, s') → Updated i s s'.
Proof. apply Updated_onScope. Qed.

Lemma convertStatement_declared node id s s' :
  declaredName node = Some id →
  Transformer.convertStatement node s = Ok (tt, s') →
  ∃ i s1, Transformer.createDeclaration (Statement_pos node) (Some id) s = Ok (i, s1) ∧
          Updated i s1 s'.
Proof.
  intros Hid Hrun. destruct node; cbn in Hid; try done;
    cbn [Transformer.convertStatement] in Hrun;
    unfold Transformer.convertEnumDeclaration, Transformer.convertFunctionDeclaration,
      Transformer.convertClassOrInterfaceDeclaration,
      Transformer.convertTypeAliasDeclaration, Transformer.convertVariableStatement,
      Transformer.convertNamespaceDeclaration in Hrun;
    repeat match type of Hid with
           | context [match ?x with _ => _ end] => destruct x; try done
           end;
    try (injection Hid as <-); try subst;
    apply bind_Ok in Hrun as (i & s1 & H1 & H2);
    exists i, s1; (split; [exact H1|]);
    try (apply bind_Ok in H2 as ([] & s2 & H2 & H3);
         eapply Updated_trans;
           [eapply Updated_onScope_Balanced; [|exact H2]; auto
           |eapply Updated_onScope_Balanced; [|exact H3]; auto]; fail);
    (eapply Updated_onScope_Balanced; [|exact H2]; auto).
Qed.

Lemma length_bumpAfter i e body : length (bumpAfter i e body) = length body.
Proof.
  unfold bumpAfter. rewrite length_app, length_map, length_take, length_drop. lia.
Qed.


(** ** The pre-processor: synthesized names *)

Lemma underscores_S_r k hint : underscores k ("_" +:+ hint) = underscores (S k) hint.
Proof. unfold underscores. by rewrite Nat.iter_succ_r. Qed.

Lemma uniqName_loop_spec (declaredNames : gset string) (name : string) :
  ∃ k, (PreProcess.uniqName_loop declaredNames name = underscores k name) ∧
       (underscores k name ∉ declaredNames) ∧
       (∀ j, (j < k)%nat → underscores j name ∈ declaredNames).
Proof.
  funelim (PreProcess.uniqName_loop declaredNames name).
  - destruct H as (k & Hk & Hnot & Hin'). exists (S k).
    rewrite <- !underscores_S_r. split; [done|]. split; [done|].
    intros [|j] Hj; [done|]. rewrite <- underscores_S_r. apply Hin'. lia.
  - exists 0%nat. split; [done|]. split; [done|]. lia.
Qed.

(** ** The namespace reconstructor *)

Section fixer.
Import NamespaceFixer.

Lemma collectExports_supported props acc :
  forallb (λ p, negb (unsupported p)) props = true →
  collectExports props acc = Ok (acc ++ omap entryOf props).
Proof.
  revert acc. induction props as [|prop props IH]; intros acc Hall; cbn.
  - by rewrite app_nil_r.
  - cbn in Hall. apply andb_true_iff in Hall as [Hp Hall].
    destruct prop as [pos [name|] init|pos]; cbn in Hp; try done.
    destruct (bool_decide (name = "__proto__")) eqn:Hproto; cbn in *.
    + rewrite IH by done. destruct init; by rewrite ?Hproto.
    + destruct init as [localName|]; [|done]. rewrite IH by done.
      by rewrite Hproto, <- app_assoc.
Qed.

Lemma collectExports_unsupported props acc :
  existsb unsupported props = true →
  ∃ pos, collectExports props acc
         = Throw (UnsupportedSyntaxError pos "Expected a property assignment").
Proof.
  revert acc. induction props as [|prop props IH]; intros acc Hex; [done|].
  cbn in Hex. destruct (unsupported prop) eqn:Hp; cbn in Hex.
  - destruct prop as [pos [name|] init|pos]; cbn in *; eauto.
    destruct (bool_decide (name = "__proto__")); [done|]. destruct init; [done|eauto].
  - destruct prop as [pos [name|] init|pos]; cbn in *; try done.
    destruct (bool_decide (name = "__proto__")); [by apply IH|].
    destruct init; [by apply IH|done].
Qed.

Lemma collectExports_skip_proto l1 pos init l2 acc :
  collectExports (l1 ++ PropertyAssignment pos (Some "__proto__") init :: l2) acc
  = collectExports (l1 ++ l2) acc.
Proof.
  revert acc. induction l1 as [|prop l1 IH]; intros acc; cbn; [done|].
  destruct prop as [pos' [name|] init'|pos']; try done.
  destruct (bool_decide (name = "__proto__")); [done|]. by destruct init'.
Qed.


Lemma renderAlias_Ok itemTypes ns_name e :
  missingItem itemTypes e = false → ∃ text, renderAlias itemTypes ns_name e = Ok text.
Proof.
  unfold missingItem, renderAlias. destruct (bool_decide (_ = _)); [|eauto]. cbn.
  destruct (items_get _ _) as [[type generics]| |]; try done; eauto.
  intros _. repeat case_match; eauto.
Qed.


Lemma renderAliases_Ok itemTypes ns_name exports code :
  existsb (missingItem itemTypes) exports = false →
  ∃ code', renderAliases itemTypes ns_name exports code = Ok code'.
Proof.
  revert code. induction exports as [|e exports IH]; intros code Hex; [cbn; eauto|].
  cbn in *. apply orb_false_iff in Hex as [He Hex].
  destruct (renderAlias_Ok _ ns_name _ He) as [text ->]. by apply IH.
Qed.


Lemma fix_loop_Ok itemTypes namespaces code :
  existsb (λ ns, existsb (missingItem itemTypes) (exports ns)) namespaces = false →
  ∃ code', fix_loop itemTypes namespaces code = Ok code'.
Proof.
  revert code. induction namespaces as [|ns namespaces IH]; intros code Hex; [cbn; eauto|].
  cbn in *. apply orb_false_iff in Hex as [Hns Hex].
  destruct (renderAliases_Ok _ (name ns) _
              (js_slice code 0 (start (location ns))) Hns) as [code' ->]. by apply IH.
Qed.




End fixer.

(** ** The pre-processor: inline imports and default exports *)

Section preprocessor.
Import PreProcess.
Context {T : Type} `{MagicString.Ops T}.

Lemma checkInlineImport_unfold (node : Node) (s : State) :
  checkInlineImport node s =
  match checkInlineImports (childrenOf node) s with
  | Throw e => Throw e
  | Ok s =>
      match node with
      | ImportTypeNode pos argument importKeyword dotOrLessThan _ =>
          match argument with
          | OtherArgument => Throw (UnsupportedSyntaxError pos badImportMessage)
          | StringLiteralType fileId =>
              let '(importName, s) := createNamespaceImport fileId s in
              Ok (with_code (MagicString.overwrite importKeyword
                               (default (getEnd pos) dotOrLessThan) importName) s)
          end
      | OtherNode _ => Ok s
      end
  end.
Proof. by destruct node. Qed.

Lemma checkInlineImports_spec (nodes : list Node) :
  Forall (λ node, ∀ s : State,
    if hasBadImport node
    then ∃ pos, checkInlineImport node s
                = Throw (UnsupportedSyntaxError pos badImportMessage)
    else ∃ s', checkInlineImport node s = Ok s') nodes →
  ∀ s : State,
    if existsb hasBadImport nodes
    then ∃ pos, checkInlineImports nodes s
                = Throw (UnsupportedSyntaxError pos badImportMessage)
    else ∃ s', checkInlineImports nodes s = Ok s'.
Proof.
  induction 1 as [|node nodes Hnode _ IH]; intros s; cbn; [eauto|].
  specialize (Hnode s). destruct (hasBadImport node); cbn.
  - destruct Hnode as [pos ->]. eauto.
  - destruct Hnode as [s' ->]. apply IH.
Qed.

Lemma checkInlineImport_spec (node : Node) (s : State) :
  if hasBadImport node
  then ∃ pos, checkInlineImport node s
              = Throw (UnsupportedSyntaxError pos badImportMessage)
  else ∃ s', checkInlineImport node s = Ok s'.
Proof.
  revert s. induction node as [pos argument ik dl children IH|children IH]; intros s;
    rewrite checkInlineImport_unfold; cbn [childrenOf hasBadImport];
    apply list_all_Forall in IH;
    pose proof (checkInlineImports_spec children IH s) as Hch;
    destruct (existsb hasBadImport children); cbn.
  - destruct Hch as [p ->]. eauto.
  - destruct Hch as [s' ->]. destruct argument; [|eauto].
    destruct (createNamespaceImport text s'). eauto.
  - destruct Hch as [p ->]. eauto.
  - destruct Hch as [s' ->]. eauto.
Qed.

Lemma defaultNames_cons node stmts :
defaultNames (node :: stmts) =
match shape node with
| Declaration _ (Some name) _ _ _ =>
    if matchesModifier node ExportDefault then name :: defaultNames stmts
    else defaultNames stmts
| _ => defaultNames stmts
end.
Proof.
unfold defaultNames. cbn. destruct (shape node) as [|kind [name|] ga ke nt|dl|]; try done.
by destruct (matchesModifier node ExportDefault).
Qed.


Lemma pass2_spec (node : Statement) (s : @State T) :
  if existsb hasBadImport (forEachChild node)
  then ∃ pos, pass2 node s = Throw (UnsupportedSyntaxError pos badImportMessage)
  else ∃ s', pass2 node s = Ok s'.
Proof.
  unfold pass2.
  pose proof (checkInlineImports_spec (forEachChild node)) as Hch.
  specialize (Hch (proj2 (Forall_forall _ _) (λ n _ s, checkInlineImport_spec n s)) s).
  destruct (existsb hasBadImport (forEachChild node)).
  - destruct Hch as [pos ->]. eauto.
  - destruct Hch as [s' ->]. repeat case_match; eauto.
Qed.

Lemma pass2_loop_spec (nodes : list Statement) (s : @State T) :
  if unitHasBadImport nodes
  then ∃ pos, pass2_loop nodes s = Throw (UnsupportedSyntaxError pos badImportMessage)
  else ∃ s', pass2_loop nodes s = Ok s'.
Proof.
  revert s. induction nodes as [|node nodes IH]; intros s; cbn; [eauto|].
  pose proof (pass2_spec node s) as Hnode.
  destruct (existsb hasBadImport (forEachChild node)); cbn.
  - destruct Hnode as [pos ->]. eauto.
  - destruct Hnode as [s' ->]. apply IH.
Qed.

Lemma preProcess_spec (sourceFile : PreProcess.SourceFile) :
  if unitHasBadImport (PreProcess.statements sourceFile)
  then ∃ pos, preProcess sourceFile
              = Throw (UnsupportedSyntaxError pos badImportMessage)
  else ∃ out, preProcess sourceFile = Ok out.
Proof.
  unfold preProcess.
  pose proof (pass2_loop_spec (PreProcess.statements sourceFile)
                (foldl (pass1 (PreProcess.getFullText sourceFile))
                   (initial sourceFile) (PreProcess.statements sourceFile))) as Hloop.
  destruct (unitHasBadImport _).
  - destruct Hloop as [pos ->]. eauto.
  - destruct Hloop as [s' ->]. eauto.
Qed.

Lemma defaultExport_pushNamedNode name range (s : @State T) :
  defaultExport (pushNamedNode name range s) = defaultExport s.
Proof. done. Qed.

Lemma defaultExport_foldl_keep {A} (f : @State T → A → @State T) (l : list A) (s : @State T) :
  (∀ s x, defaultExport (f s x) = defaultExport s) →
  defaultExport (foldl f s l) = defaultExport s.
Proof.
  intros Hf. revert s. induction l as [|x l IH]; intros s; cbn; [done|].
  by rewrite IH, Hf.
Qed.

Lemma defaultExport_pass1 (fullText : string) (s : @State T) (node : Statement) :
  defaultExport (pass1 fullText s node) =
  match shape node with
  | Declaration _ (Some name) _ _ _ =>
      if matchesModifier node ExportDefault then name else defaultExport s
  | _ => defaultExport s
  end.
Proof.
  unfold pass1. destruct (shape node) as [|kind [name|] ga ke nt|dl|]; try done.
  - cbn. repeat case_match; done.
  - assert (∀ l (s0 : @State T),
      defaultExport (foldl (λ s1 decl,
        if name_isIdentifier decl
        then pushNamedNode (name_getText decl)
               (getFullStart (vd_pos decl), getEnd (vd_pos decl)) s1
        else s1) s0 l) = defaultExport s0) as Hrest.
    { intros l s0. apply defaultExport_foldl_keep. intros; by case_match. }
    match goal with |- context [with_code (fixModifiers node) ?s1] => set (s' := s1) end.
    assert (defaultExport s' = defaultExport s) as Hnames.
    { apply defaultExport_foldl_keep. intros; repeat case_match; done. }
    clearbody s'.
    destruct (declarations dl) as [|d1 [|d2 l]]; cbn [with_code defaultExport].
    + done.
    + by case_match.
    + by rewrite Hrest.
Qed.

Lemma defaultExport_after_pass1 (fullText : string) (stmts : list Statement)
    (s : @State T) :
  defaultExport (foldl (pass1 fullText) s stmts)
  = default (defaultExport s) (last (defaultNames stmts)).
Proof.
  revert s. induction stmts as [|node stmts IH]; intros s; [done|].
  cbn [foldl]. rewrite IH, defaultExport_pass1, defaultNames_cons.
  destruct (shape node) as [|kind [name|] ga ke nt|dl|]; try done.
  destruct (matchesModifier node ExportDefault); [|done].
  destruct (defaultNames stmts) as [|n l] eqn:Hl; [done|].
  rewrite last_cons_cons. destruct (last (n :: l)) eqn:E; [done|].
  by apply last_None in E.
Qed.
End preprocessor.

(** * Properties of the specification *)

(** ** The graph builder *)










(** C2. The reference [A.B.C] is pushed although its root [A] is bound on
    the scope stack: [pushReference] finds a name to look up only when the
    object of the member expression is itself an identifier.  In
    [declare namespace N { namespace A { namespace B { type C = number } } type X = A.B.C }]
    the node of [N] gets the reference to [A.B.C], with [A] hoisted into
    the scope of [N]. *)
Theorem qualified_name_root_not_checked :
  let id := DeclarationScope.convertEntityName
              (EN_QualifiedName
                 (EN_QualifiedName (EN_Identifier (ident "A" 78 79 80))
                    (ident "B" 81 81 82) (mkPos 78 79 82))
                 (ident "C" 83 83 84) (mkPos 78 79 84)) in
  let this := {| scopes := [ {[ "A"; "X" ]} ];
                 declaration := {| fn_id := None; params := [];
                                   fn_range := mkRange 0 86 |};
                 iife := None |} in
  DeclarationScope.boundIn "A" (scopes this) = true ∧
  DeclarationScope.pushReference id (this, 2%N)
    = Ok (tt, ({| scopes := scopes this;
                  declaration := {| fn_id := None;
                                    params := [ {| left := "2"; right := id |} ];
                                    fn_range := mkRange 0 86 |};
                  iife := None |}, 3%N)) ∧
  ∃ t, Transformer.new qualified_unit 1 = Ok (t, 3%N) ∧
       allRefs (ast_body t) =
         [ {| left := "1"; right := ES_Identifier "N" (mkRange 18 19) |};
           {| left := "2"; right := id |} ].
Proof.
  cbn zeta. split; [vm_compute; reflexivity|]. split; [vm_compute; reflexivity|].
  eexists. split; vm_compute; reflexivity.
Qed.

(** An identifier, or a qualified name of two segments, is referenced
    exactly when its root is bound in no scope of the stack. *)
Lemma pushReference_root_checked (root : Identifier) (right_ : option (Identifier * Pos))
    (this : DeclarationScope) (IDs : N) :
  getText root ≠ EmptyString →
  let id := DeclarationScope.convertEntityName
              match right_ with
              | Some (r, p) => EN_QualifiedName (EN_Identifier root) r p
              | None => EN_Identifier root
              end in
  DeclarationScope.pushReference id (this, IDs) =
  if DeclarationScope.boundIn (getText root) (scopes this)
  then Ok (tt, (this, IDs))
  else DeclarationScope.pushRaw {| left := String_ IDs; right := id |}
         (this, (IDs + 1)%N).
Proof.
  intros Hne. cbn zeta. unfold DeclarationScope.pushReference.
  destruct right_ as [[r p]|]; cbn [DeclarationScope.convertEntityName createIdentifier
    DeclarationScope.referenceName]; rewrite bool_decide_true by done;
    by destruct (DeclarationScope.boundIn _ _).
Qed.

(** In [declare function f<T>(x: T, y: U): T;] the node of [f] refers to
    [f] and to [U], and not to [T]. *)
Example generic_parameter_not_referenced :
  ∃ t, Transformer.new generic_unit 1 = Ok (t, 3%N) ∧
       allRefs (ast_body t) =
         [ {| left := "1"; right := ES_Identifier "f" (mkRange 17 18) |};
           {| left := "2"; right := ES_Identifier "U" (mkRange 31 32) |} ].
Proof. eexists. split; vm_compute; reflexivity. Qed.

(** C3. Each method the graph builder runs on the subtree of a declaration
    (parameters and type, type alias, class or interface, namespace, type
    node, members, heritage clauses) returns with the scope stack as deep
    as it found it. *)
Theorem scope_depth_restored (m : ScopeM unit) (this : DeclarationScope) (IDs : N)
    (this' : DeclarationScope) (IDs' : N) :
  SubtreeConversion m →
  m (this, IDs) = Ok (tt, (this', IDs')) →
  length (scopes this') = length (scopes this).
Proof.
  intros Hm Hrun.
  assert (Balanced m) as Hb.
  { destruct Hm; auto using convertParametersAndType_Balanced,
      convertFunctionSignature_Balanced, convertTypeAlias_Balanced,
      convertClassLike_Balanced, convertNamespace_Balanced, convertTypeNode_Balanced,
      convertMembers_Balanced, convertHeritageClauses_Balanced. }
  by destruct (Hb _ _ _ Hrun) as [_ Hd].
Qed.

Lemma scope_depth_restored_witness :
  ∃ this' IDs',
    DeclarationScope.convertTypeNode conditional_type (empty_scope, 1%N)
      = Ok (tt, (this', IDs')) ∧
    length (scopes this') = length (scopes empty_scope).
Proof.
  eexists _, _. split; [vm_compute; reflexivity|].
  apply (scope_depth_restored (DeclarationScope.convertTypeNode conditional_type)
           empty_scope 1%N _ 3%N); [constructor|vm_compute; reflexivity].
Defined.

(** Between two top-level statements every scope stack of the program is
    empty. *)
Lemma scopes_empty_between_statements (s : Transformer * N) (i : nat)
    (sc : DeclarationScope) :
  Reachable s → ast_body s.1 !! i = Some (N_Scope sc) → scopes sc = [].
Proof. intros HI%Reachable_Inv. apply (inv_scopes _ _ HI). Qed.

(** C9. In every state the transformer reaches, the references of the
    program carry pairwise distinct left-hand names; the next reference,
    whatever it refers to, gets a name none of them carries, and creating
    it moves the counter strictly up. *)
Theorem reference_names_distinct (s : Transformer * N) :
  Reachable s →
  NoDup (map left (allRefs (ast_body s.1))) ∧
  ∀ id : ESExpr,
    (s.2 < (createReference id s.2).2)%N ∧
    ∀ r, r ∈ allRefs (ast_body s.1) → left (createReference id s.2).1 ≠ left r.
Proof.
  intros HI%Reachable_Inv. split; [apply (inv_distinct _ _ HI)|].
  intros id. cbn. split; [lia|]. intros r Hr Heq.
  destruct (inv_fresh _ _ HI _ Hr) as (k & Hk & Hlt). rewrite Hk in Heq.
  apply String__inj in Heq. lia.
Qed.

Lemma reference_names_distinct_witness :
  NoDup (map left (allRefs (ast_body merging_after.1))) ∧
  ∀ id : ESExpr,
    (merging_after.2 < (createReference id merging_after.2).2)%N ∧
    ∀ r, r ∈ allRefs (ast_body merging_after.1) →
         left (createReference id merging_after.2).1 ≠ left r.
Proof.
  apply (reference_names_distinct merging_after).
  exists merging_unit, 1%N, (statements merging_unit). vm_compute. reflexivity.
Defined.

(** Two calls of [createReference], on any identifiers, give the same name
    only at the same value of the counter. *)
Lemma createReference_names (id1 id2 : ESExpr) (n m : N) :
  left (createReference id1 n).1 = left (createReference id2 m).1 ↔ n = m.
Proof. cbn. split; [apply String__inj|by intros ->]. Qed.

(** ** The pre-processor *)

(** C4, as stated, fails: of [export default class A {}] followed by
    [export default class B {}], pass 1 records [B], not the first
    name [A]. *)
Lemma first_default_overwritten :
  head (defaultNames (PreProcess.statements two_defaults_unit)) = Some "A" ∧
  PreProcess.defaultExport
    (foldl (PreProcess.pass1 (H := CharBuffer_ops)
              (PreProcess.getFullText two_defaults_unit))
       (PreProcess.initial two_defaults_unit)
       (PreProcess.statements two_defaults_unit)) = "B" ∧
  PreProcess.defaultExport
    (foldl (PreProcess.pass1 (H := CharBuffer_ops)
              (PreProcess.getFullText two_defaults_unit))
       (PreProcess.initial two_defaults_unit)
       (PreProcess.statements two_defaults_unit)) ≠ "A".
Proof. repeat split; vm_compute; [reflexivity..|discriminate]. Qed.

(** C4, amended. After pass 1 the default export name is the name of the
    last named declaration that carries [export default] (last writer
    wins), and the name it had before when there is none; pass 1 raises no
    error. *)
Theorem last_default_recorded {T : Type} `{MagicString.Ops T} (fullText : string)
    (stmts : list PreProcess.Statement) (s : @PreProcess.State T) :
  PreProcess.defaultExport (foldl (PreProcess.pass1 fullText) s stmts)
  = default (PreProcess.defaultExport s) (last (defaultNames stmts)).
Proof. apply defaultExport_after_pass1. Qed.

(** C5. Of [export function foo(): Bar; export interface Bar {}] the
    pre-processor removes the two [export] modifiers, adds [declare] to
    the function and appends [export { foo, Bar };] last, on any buffer,
    and records no reference directive; on the character buffer the text
    is as shown.  Of that text, parsed again, the transformer makes the
    node of [foo], with a reference to itself and one to [Bar], the node
    of [Bar], without references, and the export statement: no import and
    no reference directive. *)
Theorem foo_Bar_scenario :
  (∀ (T : Type) (ops : MagicString.Ops T),
     PreProcess.preProcess foo_Bar_unit =
     Ok {| PreProcess.out_code :=
             MagicString.append (newline +:+ "export { foo, Bar };" +:+ newline)
               (MagicString.remove 28 35
                  (MagicString.appendRight 0 "declare "
                     (MagicString.remove 0 7
                        (MagicString.new (PreProcess.getFullText foo_Bar_unit)))));
           PreProcess.out_typeReferences := [] |}) ∧
  (∃ out, PreProcess.preProcess (H := CharBuffer_ops) foo_Bar_unit = Ok out ∧
          MagicString.toString (PreProcess.out_code out) =
          "declare function foo(): Bar; interface Bar {}" +:+ newline +:+
          "export { foo, Bar };" +:+ newline) ∧
  ∃ t, Transformer.new canonical_foo_Bar 1 = Ok (t, 3%N) ∧
       typeReferences t = ∅ ∧
       ast_body t =
         [ N_Scope {| scopes := [];
                      declaration :=
                        {| fn_id := Some (ES_Identifier "foo" (mkRange 17 20));
                           params :=
                             [ {| left := "1";
                                  right := ES_Identifier "foo" (mkRange 17 20) |};
                               {| left := "2";
                                  right := ES_Identifier "Bar" (mkRange 24 27) |} ];
                           fn_range := mkRange 0 28 |};
                      iife := None |};
           N_Scope {| scopes := [];
                      declaration :=
                        {| fn_id := Some (ES_Identifier "Bar" (mkRange 39 42));
                           params := [];
                           fn_range := mkRange 28 45 |};
                      iife := None |};
           N_Statement
             (ES_ExportNamedDeclaration
                [ {| exported := ES_Identifier "foo" (mkRange 55 58);
                     local := ES_Identifier "foo" (mkRange 55 58) |};
                  {| exported := ES_Identifier "Bar" (mkRange 60 63);
                     local := ES_Identifier "Bar" (mkRange 60 63) |} ]
                None (mkRange 46 66)) ].
Proof.
  split; [intros; reflexivity|].
  split; [eexists; split; vm_compute; reflexivity|].
  eexists. split; [vm_compute; reflexivity|]. split; vm_compute; reflexivity.
Qed.

(** C7. [checkInlineImport] throws the unsupported-syntax error exactly on
    the nodes that hold an import type whose argument is no string
    literal, and returns on all others; an import type over sound children
    throws exactly when its own argument is no string literal.
    [preProcess] throws that error exactly on the units with such an
    import, and returns its output on all others: it has a result or an
    error, never both. *)
Theorem inline_import_error_iff_not_literal {T : Type} `{MagicString.Ops T} :
  (∀ node (s : @PreProcess.State T),
     (∃ pos, PreProcess.checkInlineImport node s
             = Throw (UnsupportedSyntaxError pos badImportMessage))
     ↔ hasBadImport node = true) ∧
  (∀ node (s : @PreProcess.State T),
     (∃ s', PreProcess.checkInlineImport node s = Ok s') ↔ hasBadImport node = false) ∧
  (∀ pos argument importKeyword dotOrLessThan children (s : @PreProcess.State T),
     (∃ e, PreProcess.checkInlineImport
             (PreProcess.ImportTypeNode pos argument importKeyword dotOrLessThan children) s
           = Throw e)
     ↔ existsb hasBadImport children = true ∨ argument = PreProcess.OtherArgument) ∧
  (∀ sourceFile,
     (∃ pos, PreProcess.preProcess sourceFile
             = Throw (UnsupportedSyntaxError pos badImportMessage))
     ↔ unitHasBadImport (PreProcess.statements sourceFile) = true) ∧
  (∀ sourceFile,
     (∃ out, PreProcess.preProcess sourceFile = Ok out)
     ↔ unitHasBadImport (PreProcess.statements sourceFile) = false).
Proof.
  split; [|split; [|split; [|split]]].
  - intros node s. pose proof (checkInlineImport_spec node s) as Hs. split.
    + intros [pos Hp]. destruct (hasBadImport node); [done|].
      destruct Hs as [s' Hs]. congruence.
    + intros Hb. by rewrite Hb in Hs.
  - intros node s. pose proof (checkInlineImport_spec node s) as Hs. split.
    + intros [s' Hp]. destruct (hasBadImport node); [|done].
      destruct Hs as [pos Hs]. congruence.
    + intros Hb. by rewrite Hb in Hs.
  - intros pos argument importKeyword dotOrLessThan children s.
    pose proof (checkInlineImport_spec
      (PreProcess.ImportTypeNode pos argument importKeyword dotOrLessThan children) s) as Hs.
    cbn [hasBadImport] in Hs. split.
    + intros [e He]. destruct (existsb hasBadImport children); [by left|].
      destruct argument; [|by right]. destruct Hs as [s' Hs]. congruence.
    + intros [Hch| ->].
      * rewrite Hch in Hs. destruct Hs as [p Hs]. eauto.
      * rewrite orb_true_r in Hs. destruct Hs as [p Hs]. eauto.
  - intros sourceFile. pose proof (preProcess_spec sourceFile) as Hs. split.
    + intros [pos Hp]. destruct (unitHasBadImport _); [done|].
      destruct Hs as [out Hs]. congruence.
    + intros Hb. by rewrite Hb in Hs.
  - intros sourceFile. pose proof (preProcess_spec sourceFile) as Hs. split.
    + intros [out Hp]. destruct (unitHasBadImport _); [|done].
      destruct Hs as [pos Hs]. congruence.
    + intros Hb. by rewrite Hb in Hs.
Qed.

(** C8. [uniqName(hint)] returns [hint] behind the least number [k] of
    underscores for which the name is not declared, and declares it; so no
    later call, on any hint, returns that name again. *)
Theorem uniqName_least_prefix (hint : string) (declaredNames : gset string) :
  ∃ k, (PreProcess.uniqName hint declaredNames
          = (underscores k hint, declaredNames ∪ {[underscores k hint]})) ∧
       (underscores k hint ∉ declaredNames) ∧
       (∀ j, (j < k)%nat → underscores j hint ∈ declaredNames) ∧
       (∀ hint' (later : gset string),
          declaredNames ∪ {[underscores k hint]} ⊆ later →
          (PreProcess.uniqName hint' later).1 ≠ underscores k hint).
Proof.
  destruct (uniqName_loop_spec declaredNames hint) as (k & Hk & Hnot & Hleast).
  exists k. unfold PreProcess.uniqName. rewrite Hk. repeat split; try done.
  intros hint' later Hsub. cbn.
  destruct (uniqName_loop_spec later hint') as (k' & -> & Hnot' & _).
  intros Heq. apply Hnot'. rewrite Heq. set_solver.
Qed.

(** ** The namespace reconstructor *)




(** C10. In the property loop of [findNamespaces] an assignment keyed by
    the identifier [__proto__] is skipped: with or without it the loop
    has the same result.  When another property is not an assignment with
    an identifier for key and an identifier for value, the loop throws the
    unsupported-syntax error; otherwise it returns the entries of the
    properties in order. *)
Theorem proto_skipped_others_rejected (props : list NamespaceFixer.Property)
    (acc : list NamespaceFixer.Export) :
  (∀ l1 pos init l2,
     NamespaceFixer.collectExports
       (l1 ++ NamespaceFixer.PropertyAssignment pos (Some "__proto__") init :: l2) acc
     = NamespaceFixer.collectExports (l1 ++ l2) acc) ∧
  if existsb unsupported props
  then ∃ pos, NamespaceFixer.collectExports props acc
              = Throw (UnsupportedSyntaxError pos "Expected a property assignment")
  else NamespaceFixer.collectExports props acc = Ok (acc ++ omap entryOf props).
Proof.
  split; [intros; apply collectExports_skip_proto|].
  destruct (existsb unsupported props) eqn:Hex.
  - by apply collectExports_unsupported.
  - apply collectExports_supported.
    induction props as [|p props IH]; [done|]. cbn in *.
    apply orb_false_iff in Hex as [-> ?]. cbn. auto.
Qed.

(** * Properties of the code *)

(** ** Scopes shield the names they bind *)

Lemma Above_refl l : Above l l.
Proof.
  exists l, []. split; [by rewrite app_nil_r|].
  by apply Forall_Forall2_diag, Forall_forall.
Qed.

Lemma Above_length base l : Above base l → (length base ≤ length l)%nat.
Proof.
  intros (base' & rest & -> & H). rewrite length_app, (Forall2_length _ _ _ H). lia.
Qed.

Lemma Forall2_subseteq_trans (l1 l2 l3 : list (gset string)) :
  Forall2 (⊆) l1 l2 → Forall2 (⊆) l2 l3 → Forall2 (⊆) l1 l3.
Proof.
  intros H12. revert l3. induction H12 as [|x y l1 l2 Hxy _ IH]; intros l3 H23.
  - by inversion H23.
  - inversion H23 as [|? z ? l3' Hyz H23']; subst. constructor; [set_solver|auto].
Qed.

Lemma Above_trans l1 l2 l3 : Above l1 l2 → Above l2 l3 → Above l1 l3.
Proof.
  intros (b1 & r1 & -> & H1) (b2 & r2 & -> & H2).
  apply Forall2_app_inv_l in H2 as (b1' & r1' & Hb & _ & ->).
  exists b1', (r1' ++ r2). split; [by rewrite app_assoc|].
  by eapply Forall2_subseteq_trans.
Qed.

Lemma Above_same_length base l :
  Above base l → length l = length base → Forall2 (⊆) base l.
Proof.
  intros (base' & rest & -> & H) Hlen. rewrite length_app, (Forall2_length _ _ _ H) in Hlen.
  destruct rest; [by rewrite app_nil_r|cbn in Hlen; lia].
Qed.

Lemma boundIn_true name l :
  DeclarationScope.boundIn name l = true ↔ ∃ sc, sc ∈ l ∧ name ∈ sc.
Proof.
  unfold DeclarationScope.boundIn. rewrite existsb_exists. split.
  - intros (sc & Hin & Hb). exists sc. split; [by apply list_elem_of_In|].
    by apply bool_decide_eq_true in Hb.
  - intros (sc & Hin & Hb). exists sc. split; [by apply list_elem_of_In|].
    by apply bool_decide_eq_true.
Qed.

Lemma Above_bound base l name :
  Above base l → DeclarationScope.boundIn name base = true →
  DeclarationScope.boundIn name l = true.
Proof.
  intros (base' & rest & -> & H). rewrite !boundIn_true. intros (sc & Hin & Hn).
  apply list_elem_of_lookup in Hin as [i Hi].
  destruct (Forall2_lookup_l _ _ _ _ _ H Hi) as (sc' & Hi' & Hsub).
  exists sc'. split; [|set_solver].
  apply elem_of_app. left. by eapply list_elem_of_lookup_2.
Qed.

Lemma Above_push base l : Above base l → Above base (l ++ [∅]).
Proof.
  intros (base' & rest & -> & H). exists base', (rest ++ [∅]). by rewrite app_assoc.
Qed.

Lemma addToLast_snoc name l top : addToLast name (l ++ [top]) = l ++ [top ∪ {[name]}].
Proof.
  induction l as [|x l IH]; [done|]. cbn [app].
  change (addToLast name (x :: l ++ [top])) with
    (match l ++ [top] with [] => [x ∪ {[name]}] | _ => x :: addToLast name (l ++ [top]) end).
  rewrite IH. by destruct l.
Qed.

Lemma Above_addToLast base l name : Above base l → Above base (addToLast name l).
Proof.
  intros (base' & rest & -> & H).
  destruct (decide (rest = [])) as [->|Hne].
  - rewrite app_nil_r. exists (addToLast name base'), []. rewrite app_nil_r. split; [done|].
    destruct (decide (base' = [])) as [->|Hne]; [by inversion H; subst|].
    destruct (exists_last Hne) as (init & top & ->).
    rewrite addToLast_snoc.
    apply Forall2_app_inv_r in H as (b1 & b2 & H1 & H2 & ->).
    apply Forall2_app; [done|].
    inversion H2 as [|x ? ? ? Hx Hnil]; subst. inversion Hnil; subst.
    constructor; [set_solver|constructor].
  - destruct (exists_last Hne) as (init & top & ->).
    rewrite app_assoc, addToLast_snoc, <- app_assoc. by exists base', (init ++ [top ∪ {[name]}]).
Qed.

Lemma Above_removelast base l :
  Above base l → (length base ≤ length l - 1)%nat → Above base (removelast l).
Proof.
  intros (base' & rest & -> & H) Hlen.
  rewrite length_app, (Forall2_length _ _ _ H) in Hlen.
  destruct (decide (rest = [])) as [->|Hne].
  - rewrite app_nil_r in *. cbn in Hlen.
    assert (base' = []) as -> by (destruct base'; [done|cbn in Hlen; lia]).
    inversion H; subst. cbn. apply Above_refl.
  - rewrite removelast_app by done. by exists base', (removelast rest).
Qed.

Lemma Shields_ret {A} (a : A) : Shields (ret a : ScopeM A).
Proof.
  intros s a' s' base [= <- <-] Habove _. split; [done|].
  exists []. by rewrite app_nil_r.
Qed.

Lemma Shields_throw {A} e : Shields (throw e : ScopeM A).
Proof. intros s a s' base H. done. Qed.

Lemma Shields_bind {A B} f g (m : ScopeM A) (k : A → ScopeM B) :
  Shields m → Moves f m → (∀ a, Shields (k a)) → (∀ a, Moves g (k a)) →
  (∀ d b, b ≤ d → b ≤ g (f d) → b ≤ f d)%nat →
  Shields (bind m k).
Proof.
  intros Hm Mm Hk Mk Hside s b s'' base (a & s' & H1 & H2)%bind_Ok Habove Hlen.
  destruct (Mm _ _ _ H1) as [_ D1]. destruct (Mk _ _ _ _ H2) as [_ D2].
  assert (length base ≤ depth s')%nat as Hlen1.
  { rewrite D1. apply Hside; [by apply Above_length|]. by rewrite <- D1, <- D2. }
  destruct (Hm _ _ _ _ H1 Habove Hlen1) as (Ha1 & e1 & Hp1 & Hu1).
  destruct (Hk _ _ _ _ _ H2 Ha1 Hlen) as (Ha2 & e2 & Hp2 & Hu2).
  split; [done|]. exists (e1 ++ e2). split; [by rewrite Hp2, Hp1, app_assoc|].
  by apply Forall_app.
Qed.

Lemma Shields_modify_scopes g :
  (∀ base l, Above base l → (length base ≤ length (g l))%nat → Above base (g l)) →
  Shields (modify (λ '(this, IDs), (with_scopes g this, IDs)) : ScopeM unit).
Proof.
  intros Hg [this IDs] [] s' base [= <-] Habove Hlen. cbn in *. split; [by apply Hg|].
  exists []. by rewrite app_nil_r.
Qed.

Lemma pushScope_Shields : Shields DeclarationScope.pushScope.
Proof. apply Shields_modify_scopes. intros base l H _. by apply Above_push. Qed.

Lemma pushTypeVariable_Shields id : Shields (DeclarationScope.pushTypeVariable id).
Proof. apply Shields_modify_scopes. intros base l H _. by apply Above_addToLast. Qed.

Lemma popScope_Shields n : Shields (DeclarationScope.popScope n).
Proof.
  induction n as [|n IH]; cbn [DeclarationScope.popScope]; [apply Shields_ret|].
  eapply (Shields_bind (λ d, (d - 1)%nat) (λ d, (d - n)%nat)).
  - apply Shields_modify_scopes. intros base l H Hlen. apply Above_removelast; [done|].
    by rewrite length_removelast in Hlen.
  - apply Moves_modify_scopes. apply length_removelast.
  - intros _. apply IH.
  - intros _. apply popScope_Moves.
  - intros; lia.
Qed.

Lemma pushReference_Shields id : Shields (DeclarationScope.pushReference id).
Proof.
  intros [this IDs] [] s' base. unfold DeclarationScope.pushReference. cbn [fst].
  assert (Hemit : DeclarationScope.boundIn
                    (default EmptyString (DeclarationScope.referenceName id))
                    (scopes this) = false ∨
                  default EmptyString (DeclarationScope.referenceName id) = EmptyString →
            ∀ s', (let '(ref, IDs') := createReference id IDs in
                   DeclarationScope.pushRaw ref (this, IDs')) = Ok ((), s') →
            Above base (scopes this) → (length base ≤ depth s')%nat →
            Above base (scopes s'.1) ∧
            ∃ extra, params (declaration s'.1) = params (declaration this) ++ extra ∧
                     Forall (Unbound base) extra).
  { clear s'. intros Hnot s'. cbn. intros [= <-] Habove _. cbn. split; [done|].
    eexists. split; [done|]. constructor; [|constructor].
    intros name Hname Hne. cbn in Hname. rewrite Hname in Hnot. cbn in Hnot.
    destruct Hnot as [Hnot|?]; [|done].
    destruct (DeclarationScope.boundIn name base) eqn:Hb; [|done].
    by rewrite (Above_bound _ _ _ Habove Hb) in Hnot. }
  destruct (DeclarationScope.referenceName id) as [name|] eqn:Hn; [|apply Hemit; by right].
  destruct (bool_decide (name ≠ EmptyString)) eqn:Hne; cbn [andb].
  - destruct (DeclarationScope.boundIn name (scopes this)) eqn:Hb.
    + intros [= <-] Habove _. split; [done|]. exists []. by rewrite app_nil_r.
    + apply Hemit. by left.
  - apply Hemit. right. cbn. apply bool_decide_eq_false in Hne. by apply dec_stable.
Qed.

Lemma liftResult_Shields {A} (r : Result A) : Shields (DeclarationScope.liftResult r).
Proof.
  intros s a s' base. unfold DeclarationScope.liftResult. destruct r; [|done].
  intros [= <- <-] Habove _. split; [done|]. exists []. by rewrite app_nil_r.
Qed.

Lemma Shields_balanced_bind {A B} (m : ScopeM A) (k : A → ScopeM B) :
  Shields m → Balanced m → (∀ a, Shields (k a)) → (∀ a, Balanced (k a)) →
  Shields (bind m k).
Proof. intros. eapply (Shields_bind (λ d, d) (λ d, d)); try done. Qed.

Lemma convertComputedPropertyName_Shields name :
  Shields (DeclarationScope.convertComputedPropertyName name).
Proof.
  unfold DeclarationScope.convertComputedPropertyName.
  destruct name as [[e|]|]; try apply Shields_ret.
  destruct e; try apply Shields_ret.
  - apply Shields_balanced_bind; intros;
      auto using liftResult_Shields, liftResult_Balanced, pushReference_Shields,
        pushReference_Moves.
  - apply pushReference_Shields.
  - apply Shields_throw.
Qed.

Lemma forEach_Shields {A} (f : A → ScopeM unit) (n : nat) (l : list A) :
  Forall (λ x, Shields (f x)) l → (∀ x, Moves (λ d, (d + n)%nat) (f x)) →
  Shields (forEach f l).
Proof.
  intros Hl Hm. induction Hl as [|x l Hx Hl IH]; cbn [forEach]; [apply Shields_ret|].
  eapply (Shields_bind (λ d, (d + n)%nat) (λ d, (d + n * length l)%nat)); try done.
  - intros _. apply forEach_Moves, Forall_forall. intros; apply Hm.
  - intros; lia.
Qed.

Lemma forEach_Shields_balanced {A} (f : A → ScopeM unit) (l : list A) :
  Forall (λ x, Shields (f x)) l → (∀ x, Balanced (f x)) → Shields (forEach f l).
Proof.
  intros Hl Hm. apply (forEach_Shields f 0); [done|].
  intros x. eapply Moves_ext; [|apply Hm]. intros; cbn; lia.
Qed.

Lemma whenSome_Shields {A} (f : A → ScopeM unit) (o : option A) :
  (∀ x, o = Some x → Shields (f x)) → Shields (whenSome f o).
Proof. destruct o; cbn; [eauto|intros; apply Shields_ret]. Qed.

Lemma Shields_pointwise {A} (m m' : ScopeM A) :
  (∀ s, m s = m' s) → Shields m' → Shields m.
Proof. intros E H s a s' base Hm. rewrite E in Hm. exact (H s a s' base Hm). Qed.

Lemma forEach_Shields_all {A} (f : A → ScopeM unit) (l : list A) :
  list_all A (λ x, Shields (f x)) l → (∀ x, Balanced (f x)) → Shields (forEach f l).
Proof. intros H. by apply forEach_Shields_balanced, list_all_Forall. Qed.

Lemma whenSome_Shields_all {A} (f : A → ScopeM unit) (o : option A) :
  option_all A (λ x, Shields (f x)) o → Shields (whenSome f o).
Proof. intros H. apply whenSome_Shields. by apply (option_all_Some _ _ H). Qed.

Lemma whenSome_forEach_Shields_all {A} (f : A → ScopeM unit) (o : option (list A)) :
  option_all _ (list_all A (λ x, Shields (f x))) o → (∀ x, Balanced (f x)) →
  Shields (whenSome (forEach f) o).
Proof. intros [l Hl|] ?; cbn; [by apply forEach_Shields_all|apply Shields_ret]. Qed.

Lemma forEach_whenSome_Shields_all {A} (f : A → ScopeM unit) (l : list (option A)) :
  list_all _ (option_all A (λ x, Shields (f x))) l → (∀ x, Balanced (f x)) →
  Shields (forEach (whenSome f) l).
Proof.
  intros H Hb. apply forEach_Shields_balanced.
  - induction H as [|o Ho l Hl IH]; constructor; [by apply whenSome_Shields_all|done].
  - intros o. apply whenSome_Balanced. auto.
Qed.

Lemma convertTypeParameter_Moves node :
  Moves (λ d, (d + 1)%nat) (DeclarationScope.convertTypeParameter node).
Proof.
  eapply Moves_ext; [|apply convertTypeNode_Balanced_mut]. intros; cbn; lia.
Qed.

Lemma convertMember_Balanced node : Balanced (DeclarationScope.convertMember node).
Proof. apply convertTypeNode_Balanced_mut. Qed.

Lemma typeParameters_Shields (typeParameters : option (list TypeParameterDeclaration)) :
  option_all _
    (list_all _ (λ t, Shields (DeclarationScope.convertTypeParameter t) ∧
                      Shields (whenSome DeclarationScope.convertTypeNode (constraintOf t))))
    typeParameters →
  Shields (whenSome (forEach DeclarationScope.convertTypeParameter) typeParameters).
Proof.
  intros [l Hl|]; cbn; [|apply Shields_ret].
  apply (forEach_Shields _ 1); [|apply convertTypeParameter_Moves].
  apply list_all_Forall in Hl. eapply Forall_impl; [exact Hl|]. by intros x [Hx _].
Qed.

(** chain the calls of a method: the depths come from the lemmas on
    [Moves], and no call but the last pops *)
Ltac shields :=
  repeat first
    [ match goal with H : Shields ?m |- Shields ?m => exact H end
    | apply pushScope_Shields
    | apply popScope_Shields
    | apply pushTypeVariable_Shields
    | apply pushReference_Shields
    | apply convertComputedPropertyName_Shields
    | apply liftResult_Shields
    | apply Shields_ret
    | apply Shields_throw
    | apply typeParameters_Shields; assumption
    | apply whenSome_Shields_all; assumption
    | apply forEach_Shields_all; [assumption|first [apply convertTypeNode_Balanced
                                                    |apply convertMember_Balanced]]
    | apply whenSome_forEach_Shields_all; [assumption|apply convertTypeNode_Balanced]
    | apply forEach_whenSome_Shields_all; [assumption|apply convertTypeNode_Balanced]
    | eapply Shields_bind;
        [ | solve [moves_chain] | intros ? | intros ?; solve [moves_chain]
          | intros ? ? ? ?; cbn in *; lia ] ].

Lemma convertTypeNode_Shields_mut :
  (∀ node, Shields (DeclarationScope.convertTypeNode node)) ∧
  (∀ node, Shields (DeclarationScope.convertMember node)) ∧
  (∀ node, Shields (DeclarationScope.convertParametersAndType node)) ∧
  (∀ node, Shields (DeclarationScope.convertTypeParameter node) ∧
           Shields (whenSome DeclarationScope.convertTypeNode (constraintOf node))).
Proof.
  apply TypeNode_mutind; intros; cbn [DeclarationScope.convertTypeNode
    DeclarationScope.convertMember DeclarationScope.convertParametersAndType
    DeclarationScope.convertTypeParameter];
    try match goal with |- context [match ?t with TypeParameter _ _ _ => _ end] =>
      destruct t end;
    repeat match goal with H : _ ∧ _ |- _ => destruct H end;
    try match goal with |- _ ∧ _ => split end; cbn [constraintOf] in *;
    shields.
Qed.

Lemma convertTypeNode_Shields node : Shields (DeclarationScope.convertTypeNode node).
Proof. apply convertTypeNode_Shields_mut. Qed.

Lemma convertParametersAndType_Shields node :
  Shields (DeclarationScope.convertParametersAndType node).
Proof. apply convertTypeNode_Shields_mut. Qed.

Lemma convertMembers_Shields members : Shields (DeclarationScope.convertMembers members).
Proof.
  apply forEach_Shields_balanced; [|apply convertMember_Balanced].
  apply Forall_forall. intros x _. apply convertTypeNode_Shields_mut.
Qed.

Lemma convertTypeArguments_Shields typeArguments :
  Shields (DeclarationScope.convertTypeArguments typeArguments).
Proof.
  apply whenSome_Shields. intros l _.
  apply forEach_Shields_balanced; [|apply convertTypeNode_Balanced].
  apply Forall_forall. intros x _. apply convertTypeNode_Shields.
Qed.

Lemma convertTypeParameters_Shields params :
  Shields (whenSome (forEach DeclarationScope.convertTypeParameter) params).
Proof.
  destruct params as [l|]; cbn; [|apply Shields_ret].
  apply (forEach_Shields _ 1); [|apply convertTypeParameter_Moves].
  apply Forall_forall. intros x _. apply convertTypeNode_Shields_mut.
Qed.

Lemma convertHeritageClauses_Shields heritageClauses :
  Shields (DeclarationScope.convertHeritageClauses heritageClauses).
Proof.
  assert (∀ type : ExpressionWithTypeArguments,
    Balanced (let* r := DeclarationScope.liftResult (convertExpression (ht_expression type)) in
              DeclarationScope.pushReference r >>
              DeclarationScope.convertTypeArguments (ht_typeArguments type))) as Hbal.
  { intros type. apply Balanced_bind; [apply liftResult_Balanced|intros r].
    apply Balanced_bind; [apply pushReference_Moves|intros _].
    apply convertTypeArguments_Balanced. }
  apply forEach_Shields_balanced.
  - apply Forall_forall. intros clause _. apply forEach_Shields_balanced; [|exact Hbal].
    apply Forall_forall. intros type _.
    apply Shields_balanced_bind;
      [apply liftResult_Shields|apply liftResult_Balanced|intros r..].
    + apply Shields_balanced_bind;
        [apply pushReference_Shields|apply pushReference_Moves
        |intros _; apply convertTypeArguments_Shields
        |intros _; apply convertTypeArguments_Balanced].
    + apply Balanced_bind; [apply pushReference_Moves|intros _].
      apply convertTypeArguments_Balanced.
  - intros clause. apply forEach_Balanced, Forall_forall. intros type _. apply Hbal.
Qed.

Ltac shields ::=
  repeat first
    [ match goal with H : Shields ?m |- Shields ?m => exact H end
    | apply pushScope_Shields
    | apply popScope_Shields
    | apply pushTypeVariable_Shields
    | apply pushReference_Shields
    | apply convertComputedPropertyName_Shields
    | apply liftResult_Shields
    | apply Shields_ret
    | apply Shields_throw
    | apply convertTypeParameters_Shields
    | apply convertTypeNode_Shields
    | apply convertMembers_Shields
    | apply convertParametersAndType_Shields
    | apply convertTypeArguments_Shields
    | apply convertHeritageClauses_Shields
    | apply whenSome_Shields; intros ? ?
    | apply forEach_Shields_balanced;
        [apply Forall_forall; intros ? ?|intros ?; unfold Balanced; solve [moves]]
    | eapply Shields_bind;
        [ | solve [moves_chain] | intros ? | intros ?; solve [moves_chain]
          | intros ? ? ? ?; cbn in *; lia ] ].

Lemma convertClassLike_Shields decl : Shields (DeclarationScope.convertClassLike decl).
Proof.
  unfold DeclarationScope.convertClassLike.
  eapply Shields_pointwise; [apply convertTypeParameters_bind|].
  shields.
Qed.

Lemma convertTypeAlias_Shields typeParameters type :
  Shields (DeclarationScope.convertTypeAlias typeParameters type).
Proof.
  unfold DeclarationScope.convertTypeAlias.
  eapply Shields_pointwise; [apply convertTypeParameters_bind|]. shields.
Qed.

Lemma convertFunctionSignature_Shields name typeParameters parameters type :
  Shields (DeclarationScope.convertFunctionSignature name typeParameters parameters type).
Proof. apply convertParametersAndType_Shields. Qed.

Lemma hoist_Shields stmt : Shields (DeclarationScope.hoist stmt).
Proof.
  destruct stmt; cbn; unfold DeclarationScope.hoistName; repeat case_match;
    try (shields; fail).
  apply forEach_Shields_balanced.
  - apply Forall_forall. intros decl _. case_match; shields.
  - intros decl. case_match; unfold Balanced; moves.
Qed.

Lemma walkChild_Shields convertNamespace stmt :
  Shields (convertNamespace stmt) →
  Shields (DeclarationScope.walkChild convertNamespace stmt).
Proof.
  intros IH. destruct stmt; cbn; try done;
    try first [apply convertClassLike_Shields | apply convertTypeAlias_Shields
              | apply convertFunctionSignature_Shields];
    repeat case_match; unfold DeclarationScope.pushIdentifierReference; shields.
Qed.

Lemma convertNamespace_Shields node : Shields (DeclarationScope.convertNamespace node).
Proof.
  induction node; cbn [DeclarationScope.convertNamespace]; try (shields; fail).
  destruct body as [statements|]; [|shields].
  assert (Forall (λ stmt, Shields (DeclarationScope.walkChild
            DeclarationScope.convertNamespace stmt)) statements) as Hwalk.
  { match goal with H : option_all _ _ _ |- _ => inversion H as [? Hall|]; subst end.
    apply list_all_Forall in Hall. eapply Forall_impl; [exact Hall|].
    intros stmt. apply walkChild_Shields. }
  assert (∀ stmt, Balanced (DeclarationScope.walkChild
            DeclarationScope.convertNamespace stmt)) as Hbal.
  { intros stmt. apply walkChild_Balanced, convertNamespace_Balanced. }
  assert (Shields (forEach (DeclarationScope.walkChild
            DeclarationScope.convertNamespace) statements))
    by by apply forEach_Shields_balanced.
  assert (Balanced (forEach (DeclarationScope.walkChild
            DeclarationScope.convertNamespace) statements))
    by (apply forEach_Balanced, Forall_forall; intros; apply Hbal).
  assert (Shields (forEach DeclarationScope.hoist statements)).
  { apply forEach_Shields_balanced; [|apply hoist_Balanced].
    apply Forall_forall. intros; apply hoist_Shields. }
  assert (Balanced (forEach DeclarationScope.hoist statements)).
  { apply forEach_Balanced, Forall_forall. intros; apply hoist_Balanced. }
  unfold Balanced in *. shields.
Qed.

Lemma SubtreeConversion_Balanced m : SubtreeConversion m → Balanced m.
Proof.
  destruct 1; auto using convertParametersAndType_Balanced,
    convertFunctionSignature_Balanced, convertTypeAlias_Balanced,
    convertClassLike_Balanced, convertNamespace_Balanced, convertTypeNode_Balanced,
    convertMembers_Balanced, convertHeritageClauses_Balanced.
Qed.

Lemma SubtreeConversion_Shields m : SubtreeConversion m → Shields m.
Proof.
  destruct 1; auto using convertParametersAndType_Shields,
    convertFunctionSignature_Shields, convertTypeAlias_Shields,
    convertClassLike_Shields, convertNamespace_Shields, convertTypeNode_Shields,
    convertMembers_Shields, convertHeritageClauses_Shields.
Qed.

(** X1. A conversion method of DeclarationScope that succeeds
    (convertTypeNode, convertMembers, convertParametersAndType,
    convertFunctionSignature, convertTypeAlias, convertClassLike,
    convertHeritageClauses, convertNamespace) only appends references, none of
    them rooted (an identifier, or the identifier object of a member
    expression) at a non-empty name that a scope bound when the method was
    called; the scopes it was called with keep their names. *)
Theorem bound_names_never_referenced (m : ScopeM unit) (this : DeclarationScope) (IDs : N)
    (this' : DeclarationScope) (IDs' : N) :
  SubtreeConversion m →
  m (this, IDs) = Ok (tt, (this', IDs')) →
  Forall2 (⊆) (scopes this) (scopes this') ∧
  ∃ extra,
    params (declaration this') = params (declaration this) ++ extra ∧
    ∀ r name, r ∈ extra →
      DeclarationScope.referenceName (right r) = Some name → name ≠ EmptyString →
      DeclarationScope.boundIn name (scopes this) = false.
Proof.
  intros Hm Hrun.
  destruct (SubtreeConversion_Balanced _ Hm _ _ _ Hrun) as [_ Hd]. unfold depth in Hd.
  cbn in Hd.
  destruct (SubtreeConversion_Shields _ Hm _ _ _ (scopes this) Hrun (Above_refl _))
    as (Habove & extra & Hp & Hu); [unfold depth; cbn; lia|].
  split; [by apply Above_same_length|].
  exists extra. split; [done|]. intros r name Hr. by apply (proj1 (Forall_forall _ _) Hu).
Qed.

(** ** Names stay bound *)





(** ** Hoisting *)



















Lemma bound_names_never_referenced_witness :
  ∃ this' IDs',
    DeclarationScope.convertTypeNode tuple_T_U (scope_binding_T, 1%N)
      = Ok (tt, (this', IDs')) ∧
    Forall2 (⊆) (scopes scope_binding_T) (scopes this') ∧
    ∃ extra,
      params (declaration this') = params (declaration scope_binding_T) ++ extra ∧
      ∀ r name, r ∈ extra →
        DeclarationScope.referenceName (right r) = Some name → name ≠ EmptyString →
        DeclarationScope.boundIn name (scopes scope_binding_T) = false.
Proof.
  eexists _, _. split; [vm_compute; reflexivity|].
  apply (bound_names_never_referenced (DeclarationScope.convertTypeNode tuple_T_U)
           scope_binding_T 1%N _ 2%N); [constructor|vm_compute; reflexivity].
Defined.


(** X4. A conversion method that succeeds leaves the id and the range of the
    declaration and the IIFE as they were, appends as many references as it
    advances the counter IDs, and names the i-th reference it appends by the
    numeral of the counter's old value plus i. *)
Theorem subtree_conversion_appends_references (m : ScopeM unit)
    (this : DeclarationScope) (IDs : N) (this' : DeclarationScope) (IDs' : N) :
  SubtreeConversion m →
  m (this, IDs) = Ok (tt, (this', IDs')) →
  fn_id (declaration this') = fn_id (declaration this) ∧
  fn_range (declaration this') = fn_range (declaration this) ∧
  iife this' = iife this ∧
  ∃ extra,
    params (declaration this') = params (declaration this) ++ extra ∧
    IDs' = (IDs + N.of_nat (length extra))%N ∧
    ∀ i r, extra !! i = Some r → left r = String_ (IDs + N.of_nat i).
Proof.
  intros Hm Hrun. destruct (SubtreeConversion_Balanced _ Hm _ _ _ Hrun) as [HF _].
  exact HF.
Qed.

Lemma subtree_conversion_appends_references_witness :
  ∃ this' IDs',
    DeclarationScope.convertTypeNode conditional_type (empty_scope, 1%N)
      = Ok (tt, (this', IDs')) ∧
    fn_id (declaration this') = fn_id (declaration empty_scope) ∧
    fn_range (declaration this') = fn_range (declaration empty_scope) ∧
    iife this' = iife empty_scope ∧
    ∃ extra,
      params (declaration this') = params (declaration empty_scope) ++ extra ∧
      IDs' = (1 + N.of_nat (length extra))%N ∧
      ∀ i r, extra !! i = Some r → left r = String_ (1 + N.of_nat i).
Proof.
  eexists _, _. split; [vm_compute; reflexivity|].
  apply (subtree_conversion_appends_references
           (DeclarationScope.convertTypeNode conditional_type) empty_scope 1%N _ 3%N);
    [constructor|vm_compute; reflexivity].
Defined.

(** ** What the graph builder adds to the program *)

Lemma Adds_ret {A} (a : A) : Adds 0 (ret a : TransM A).
Proof. intros s a' s' [= <- <-]. by rewrite Nat.add_0_r. Qed.

Lemma Adds_throw {A} n e : Adds n (throw e : TransM A).
Proof. by intros s a s' H. Qed.

Lemma Adds_bind {A B} n k (m : TransM A) (f : A → TransM B) :
  Adds n m → (∀ a, Adds k (f a)) → Adds (n + k) (bind m f).
Proof.
  intros Hm Hf s b s'' (a & s' & H1 & H2)%bind_Ok.
  destruct (Hm _ _ _ H1) as (L1 & D1 & T1 & E1 & R1).
  destruct (Hf _ _ _ _ H2) as (L2 & D2 & T2 & E2 & R2).
  repeat split; try congruence. lia.
Qed.

Lemma Adds_ext {A} n k (m : TransM A) : n = k → Adds n m → Adds k m.
Proof. by intros ->. Qed.

Lemma Adds_onScope {A} i (m : ScopeM A) : Adds 0 (Transformer.onScope i m).
Proof.
  intros [this IDs] a s' (sc & sc' & IDs' & Hi & Hrun & ->)%onScope_Ok.
  cbn. by rewrite length_insert, Nat.add_0_r.
Qed.

Lemma Adds_pushStatement node : Adds 1 (Transformer.pushStatement node).
Proof. intros [this IDs] [] s' [= <-]. cbn. by rewrite length_app. Qed.

Lemma Adds_liftResult {A} (r : Result A) : Adds 0 (Transformer.liftResult r).
Proof.
  intros s a s'. unfold Transformer.liftResult. destruct r; [|done].
  intros [= <- <-]. by rewrite Nat.add_0_r.
Qed.

Lemma Adds_createDeclaration_None node : Adds 1 (Transformer.createDeclaration node None).
Proof. intros [this IDs] a s' [= <- <-]. cbn. by rewrite length_app. Qed.

Lemma createDeclaration_Some_step node id this IDs i s' :
  Transformer.createDeclaration node (Some id) (this, IDs) = Ok (i, s') →
  typeReferences s'.1 = typeReferences this ∧ exports s'.1 = exports this ∧
  ast_range s'.1 = ast_range this ∧
  match declarations this !! getText id with
  | Some existing =>
      i = existing ∧ length (ast_body s'.1) = length (ast_body this) ∧
      declarations s'.1 = declarations this
  | None =>
      i = length (ast_body this) ∧ length (ast_body s'.1) = S (length (ast_body this)) ∧
      declarations s'.1 = <[getText id := length (ast_body this)]> (declarations this)
  end.
Proof.
  unfold Transformer.createDeclaration. cbn [newDeclarationScope].
  destruct (declarations this !! getText id) as [existing|].
  - intros (a1 & s1 & H1 & (a2 & s2 & H2 & [= <- <-])%bind_Ok)%bind_Ok.
    destruct (Adds_onScope _ _ _ _ _ H1) as (L1 & D1 & T1 & E1 & R1).
    destruct s1 as [this1 IDs1]. injection H2 as <- <-. cbn in *.
    rewrite length_bumpAfter, length_alter. rewrite Nat.add_0_r in L1. done.
  - intros [= <- <-]. cbn. rewrite length_app. cbn. repeat split; try done. lia.
Qed.

Lemma Updated_fields i s s' :
  Updated i s s' →
  length (ast_body s'.1) = length (ast_body s.1) ∧
  declarations s'.1 = declarations s.1 ∧
  typeReferences s'.1 = typeReferences s.1 ∧
  exports s'.1 = exports s.1 ∧
  ast_range s'.1 = ast_range s.1.
Proof. intros (sc & sc' & _ & _ & ->). cbn. by rewrite length_insert. Qed.

Ltac adds :=
  repeat first
    [ apply Adds_createDeclaration_None
    | apply Adds_pushStatement
    | apply Adds_liftResult
    | apply Adds_onScope
    | apply Adds_ret
    | apply Adds_throw
    | eapply Adds_bind; [|intros ?] ].

Lemma convertStatement_undeclared node :
  declaredName node = None → Adds 1 (Transformer.convertStatement node).
Proof.
  intros Hid. destruct node; cbn in Hid; try done;
    cbn [Transformer.convertStatement];
    unfold Transformer.convertFunctionDeclaration,
      Transformer.convertClassOrInterfaceDeclaration,
      Transformer.convertVariableStatement,
      Transformer.convertExportDeclaration, Transformer.convertExportAssignment,
      Transformer.convertNamespaceDeclaration, Transformer.removeStatement,
      Transformer.convertImportDeclaration, Transformer.convertImportEqualsDeclaration;
    repeat case_match; try done; subst;
    try (apply Adds_throw);
    (eapply Adds_ext; [|adds]; reflexivity).
Qed.

Lemma convertStatement_step node this IDs this' IDs' :
  Transformer.convertStatement node (this, IDs) = Ok (tt, (this', IDs')) →
  length (ast_body this') =
    (length (ast_body this) + (if merges node this then 0 else 1))%nat ∧
  declarations this' =
    match declaredName node with
    | Some id =>
        if merges node this then declarations this
        else <[getText id := length (ast_body this)]> (declarations this)
    | None => declarations this
    end ∧
  typeReferences this' = typeReferences this ∧
  exports this' = exports this ∧
  ast_range this' = ast_range this.
Proof.
  intros Hrun. unfold merges. destruct (declaredName node) as [id|] eqn:Hid.
  - destruct (convertStatement_declared _ _ _ _ Hid Hrun) as (i & s1 & Hcreate & Hup).
    apply createDeclaration_Some_step in Hcreate as (T1 & E1 & R1 & Hcase).
    apply Updated_fields in Hup as (L2 & D2 & T2 & E2 & R2). cbn [fst] in *.
    destruct (declarations this !! getText id) as [existing|].
    + rewrite bool_decide_true by done. destruct Hcase as (_ & L1 & D1).
      repeat split; try congruence. lia.
    + rewrite bool_decide_false by (by intros [? ?]). destruct Hcase as (_ & L1 & D1).
      repeat split; try congruence. lia.
  - apply (convertStatement_undeclared node Hid) in Hrun. done.
Qed.

Lemma namesDeclared_cons node stmts :
  namesDeclared (node :: stmts) =
  match declaredName node with
  | Some id => getText id :: namesDeclared stmts
  | None => namesDeclared stmts
  end.
Proof. unfold namesDeclared. cbn. by destruct (declaredName node). Qed.

Lemma union_absorb_singleton (X Y : gset string) (x : string) :
  x ∈ X → X ∪ Y = X ∪ ({[x]} ∪ Y).
Proof.
  intros Hx. apply set_eq. intros y. rewrite !elem_of_union, elem_of_singleton.
  split; [tauto|]. intros [?|[->|?]]; auto.
Qed.

Lemma union_singleton_swap (X Y : gset string) (x : string) :
  {[x]} ∪ X ∪ Y = X ∪ ({[x]} ∪ Y).
Proof.
  apply set_eq. intros y. rewrite !elem_of_union, elem_of_singleton. tauto.
Qed.

Lemma run_counted stmts s s' :
  forEach Transformer.convertStatement stmts s = Ok (tt, s') →
  dom (declarations s'.1) = dom (declarations s.1) ∪ list_to_set (namesDeclared stmts) ∧
  (length (ast_body s'.1) + size (declarations s.1) + length (namesDeclared stmts) =
   length (ast_body s.1) + length stmts + size (declarations s'.1))%nat ∧
  (length (ast_body s'.1) ≤ length (ast_body s.1) + length stmts)%nat ∧
  typeReferences s'.1 = typeReferences s.1 ∧
  exports s'.1 = exports s.1 ∧
  ast_range s'.1 = ast_range s.1.
Proof.
  revert s. induction stmts as [|node stmts IH]; intros [this IDs] Hrun.
  - injection Hrun as <-. cbn. rewrite (right_id_L ∅ (∪)). repeat split; try done; lia.
  - cbn [forEach] in Hrun. apply bind_Ok in Hrun as ([] & [this1 IDs1] & H1 & H2).
    apply convertStatement_step in H1 as (L1 & D1 & T1 & E1 & R1).
    apply IH in H2 as (Hdom & Hcount & Hle & T2 & E2 & R2). cbn [fst] in *.
    rewrite namesDeclared_cons. unfold merges in *.
    destruct (declaredName node) as [id|]; cbn [length] in *.
    + destruct (declarations this !! getText id) as [existing|] eqn:Hex.
      * rewrite bool_decide_true in L1, D1 by done. rewrite D1 in *.
        repeat split; try congruence; try lia.
        rewrite Hdom. cbn [list_to_set]. apply union_absorb_singleton.
        by apply elem_of_dom_2 in Hex.
      * rewrite bool_decide_false in L1, D1 by (by intros [? ?]). rewrite D1 in *.
        rewrite map_size_insert_None in Hcount by done.
        repeat split; try congruence; try lia.
        rewrite Hdom, dom_insert_L. cbn [list_to_set]. apply union_singleton_swap.
    + rewrite D1 in *. repeat split; try congruence; lia.
Qed.

(** X5. When the Transformer constructor succeeds, the keys of its
    declarations map are the names the statements of the file declare, and
    ast.body has one node for each statement that declares no name and one for
    each distinct declared name, so never more nodes than the file has
    statements. *)
Theorem program_nodes_counted (sourceFile : SourceFile) (IDs : N)
    (t : Transformer) (IDs' : N) :
  Transformer.new sourceFile IDs = Ok (t, IDs') →
  dom (declarations t) = list_to_set (namesDeclared (statements sourceFile)) ∧
  (length (ast_body t) + length (namesDeclared (statements sourceFile)) =
   length (statements sourceFile) + size (declarations t))%nat ∧
  (length (ast_body t) ≤ length (statements sourceFile))%nat.
Proof.
  unfold Transformer.new.
  destruct (forEach _ _ _) as [[[] s]|] eqn:Hrun; [|done]. intros [= ->].
  apply run_counted in Hrun as (Hdom & Hcount & Hle & _). cbn in *.
  rewrite map_size_empty in Hcount. rewrite dom_empty_L in Hdom.
  rewrite (left_id_L ∅ (∪)) in Hdom. split; [done|]. split; lia.
Qed.

Lemma program_nodes_counted_witness :
  dom (declarations merging_after.1) = list_to_set (namesDeclared (statements merging_unit)) ∧
  (length (ast_body merging_after.1) + length (namesDeclared (statements merging_unit)) =
   length (statements merging_unit) + size (declarations merging_after.1))%nat ∧
  (length (ast_body merging_after.1) ≤ length (statements merging_unit))%nat.
Proof.
  apply (program_nodes_counted merging_unit 1%N merging_after.1 merging_after.2).
  vm_compute. reflexivity.
Defined.

(** X7. When the Transformer constructor succeeds, transform returns an empty
    set of type references, the exports set is empty, and the program reaches
    from the full start of the source file to its end. *)
Theorem transformer_records_nothing_else (sourceFile : SourceFile) (IDs : N)
    (t : Transformer) (IDs' : N) :
  Transformer.new sourceFile IDs = Ok (t, IDs') →
  (Transformer.transform t).2 = ∅ ∧
  exports t = ∅ ∧
  ast_range t = {| start := getFullStart (sf_pos sourceFile);
                   end_ := getEnd (sf_pos sourceFile) |}.
Proof.
  unfold Transformer.new.
  destruct (forEach _ _ _) as [[[] s]|] eqn:Hrun; [|done]. intros [= ->].
  by apply run_counted in Hrun as (_ & _ & _ & HT & HE & HR).
Qed.

Lemma transformer_records_nothing_else_witness :
  (Transformer.transform merging_after.1).2 = ∅ ∧
  exports merging_after.1 = ∅ ∧
  ast_range merging_after.1 = {| start := 0; end_ := 50 |}.
Proof.
  apply (transformer_records_nothing_else merging_unit 1%N merging_after.1 merging_after.2).
  vm_compute. reflexivity.
Defined.

Lemma BodyNode_range_set r n : BodyNode_range (set_BodyNode_range r n) = r.
Proof. destruct n as [sc|st]; cbn; [by destruct (iife sc)|by destruct st]. Qed.

Lemma lookup_bumpAfter_lt i e body j :
  (j < i)%nat → bumpAfter i e body !! j = body !! j.
Proof.
  intros Hlt. unfold bumpAfter. destruct (decide (j < length body)%nat).
  - rewrite lookup_app_l by (rewrite length_take; lia). apply lookup_take_lt. lia.
  - rewrite !(proj2 (lookup_ge_None _ _)); [done|lia|].
    rewrite length_app, length_map, length_take, length_drop. lia.
Qed.

Lemma lookup_bumpAfter_gt i e body j :
  (i < j)%nat →
  bumpAfter i e body !! j = set_BodyNode_range {| start := e; end_ := e |} <$> body !! j.
Proof.
  intros Hlt. unfold bumpAfter. destruct (decide (S i ≤ length body)%nat).
  - rewrite lookup_app_r by (rewrite length_take; lia).
    rewrite length_take, Nat.min_l by lia.
    rewrite list_lookup_fmap, lookup_drop. do 2 f_equal. lia.
  - rewrite take_ge, drop_ge by lia. cbn. rewrite app_nil_r.
    rewrite (proj2 (lookup_ge_None _ _)); [done|lia].
Qed.

(** X6. When a statement declares a name that has a node already, in any state
    the constructor reaches, the nodes of ast.body before that node stay as
    they are and every node behind it gets start and end set to the end of the
    new statement. *)
Theorem merge_collapses_later_statements (this : Transformer) (IDs : N)
    (node : Statement) (id : Identifier) (existing : nat)
    (this' : Transformer) (IDs' : N) :
  Reachable (this, IDs) →
  declaredName node = Some id →
  declarations this !! getText id = Some existing →
  Transformer.convertStatement node (this, IDs) = Ok (tt, (this', IDs')) →
  (∀ j, (j < existing)%nat → ast_body this' !! j = ast_body this !! j) ∧
  (∀ j n, (existing < j)%nat → ast_body this !! j = Some n →
     ast_body this' !! j =
       Some (set_BodyNode_range {| start := getEnd (Statement_pos node);
                                   end_ := getEnd (Statement_pos node) |} n)) ∧
  (∀ j n', (existing < j)%nat → ast_body this' !! j = Some n' →
     BodyNode_range n' = {| start := getEnd (Statement_pos node);
                            end_ := getEnd (Statement_pos node) |}).
Proof.
  intros HI%Reachable_Inv Hid Hex Hrun.
  destruct (convertStatement_declared _ _ _ _ Hid Hrun) as (i & s1 & Hcreate & Hup).
  destruct (createDeclaration_merge _ _ (Statement_pos node) _ _ HI Hex)
    as (sc & Hsc & Hmerge).
  rewrite Hmerge in Hcreate. injection Hcreate as <- <-.
  destruct Hup as (sc1 & sc' & _ & _ & Hthis'). cbn [fst snd] in Hthis'.
  assert (∀ j, j ≠ existing →
            ast_body this' !! j =
            bumpAfter existing (getEnd (Statement_pos node))
              (<[existing := N_Scope (merged (Statement_pos node) id IDs sc)]>
                 (ast_body this)) !! j) as Hother.
  { intros j Hne. rewrite Hthis'. cbn [with_body ast_body].
    by rewrite list_lookup_insert_ne. }
  split; [|split].
  - intros j Hlt. rewrite Hother by lia. rewrite lookup_bumpAfter_lt by done.
    apply list_lookup_insert_ne. lia.
  - intros j n Hlt Hj. rewrite Hother by lia. rewrite lookup_bumpAfter_gt by done.
    rewrite list_lookup_insert_ne by lia. by rewrite Hj.
  - intros j n' Hlt Hj. rewrite Hother in Hj by lia.
    rewrite lookup_bumpAfter_gt in Hj by done.
    destruct (_ !! j); [|done]. injection Hj as <-. apply BodyNode_range_set.
Qed.

Lemma merge_collapses_later_statements_witness :
  (∀ j, (j < 0)%nat → ast_body collapsing_after.1 !! j = ast_body collapsing_before.1 !! j) ∧
  (∀ j n, (0 < j)%nat → ast_body collapsing_before.1 !! j = Some n →
     ast_body collapsing_after.1 !! j =
       Some (set_BodyNode_range {| start := 65; end_ := 65 |} n)) ∧
  (∀ j n', (0 < j)%nat → ast_body collapsing_after.1 !! j = Some n' →
     BodyNode_range n' = {| start := 65; end_ := 65 |}).
Proof.
  apply (merge_collapses_later_statements collapsing_before.1 collapsing_before.2
           later_namespace (ident "Foo" 58 59 62) 0%nat
           collapsing_after.1 collapsing_after.2).
  - exists {| sf_pos := mkPos 0 0 65; statements := [] |}, 1%N,
      [ merging_interface; export_Foo ]. vm_compute. reflexivity.
  - reflexivity.
  - vm_compute. reflexivity.
  - vm_compute. reflexivity.
Defined.

(** ** The identifiers of the program *)

Lemma allMarkers_cons n body : allMarkers (n :: body) = nodeMarkers n ++ allMarkers body.
Proof. done. Qed.

Lemma allMarkers_app body1 body2 :
  allMarkers (body1 ++ body2) = allMarkers body1 ++ allMarkers body2.
Proof. unfold allMarkers. apply bind_app. Qed.

Lemma allMarkers_insert body i n n' extra :
  body !! i = Some n → nodeMarkers n' = nodeMarkers n ++ extra →
  allMarkers (<[i := n']> body) ≡ₚ allMarkers body ++ extra.
Proof.
  revert i. induction body as [|x body IH]; intros [|i] Hi Hn; try done.
  - cbn in Hi. injection Hi as ->. cbn [insert list_insert]. rewrite !allMarkers_cons, Hn.
    rewrite <- !app_assoc. apply Permutation_app_head, Permutation_app_comm.
  - cbn in Hi. change (<[S i := n']> (x :: body)) with (x :: <[i := n']> body).
    rewrite !allMarkers_cons, <- app_assoc. apply Permutation_app_head. by apply IH.
Qed.

Lemma allMarkers_map f body :
  (∀ n, nodeMarkers (f n) = nodeMarkers n) → allMarkers (map f body) = allMarkers body.
Proof.
  intros Hf. induction body as [|x body IH]; [done|].
  cbn [map]. by rewrite !allMarkers_cons, Hf, IH.
Qed.

Lemma allMarkers_alter f i body :
  (∀ n, nodeMarkers (f n) = nodeMarkers n) → allMarkers (alter f i body) = allMarkers body.
Proof.
  intros Hf. revert i. induction body as [|x body IH]; intros [|i]; [done..| |].
  - change (alter f 0%nat (x :: body)) with (f x :: body).
    by rewrite !allMarkers_cons, Hf.
  - change (alter f (S i) (x :: body)) with (x :: alter f i body).
    by rewrite !allMarkers_cons, IH.
Qed.

Lemma nodeMarkers_set_range r n : nodeMarkers (set_BodyNode_range r n) = nodeMarkers n.
Proof. destruct n as [sc|st]; [|done]. cbn. by destruct (iife sc). Qed.

Lemma nodeMarkers_set_end e n : nodeMarkers (set_declaration_end e n) = nodeMarkers n.
Proof. by destruct n. Qed.

Lemma allMarkers_bumpAfter i e body : allMarkers (bumpAfter i e body) = allMarkers body.
Proof.
  unfold bumpAfter. rewrite allMarkers_app, allMarkers_map by apply nodeMarkers_set_range.
  by rewrite <- allMarkers_app, take_drop.
Qed.

Lemma Fresh_extend lo this IDs i sc sc' IDs' :
  Fresh lo (this, IDs) → ast_body this !! i = Some (N_Scope sc) →
  Frame (sc, IDs) (sc', IDs') →
  Fresh lo (with_body (λ body, <[i := N_Scope sc']> body) this, IDs').
Proof.
  intros [Hc Hr Hnd] Hi (Hid & Hrange & Hiife & extra & Hp & HIDs & Hex).
  cbn [fst snd] in *.
  assert (allMarkers (<[i := N_Scope sc']> (ast_body this))
          ≡ₚ allMarkers (ast_body this) ++ map left extra) as Hperm.
  { eapply allMarkers_insert; [exact Hi|]. cbn. by rewrite Hiife, Hp, map_app, app_assoc. }
  split; cbn [fst snd with_body ast_body].
  - lia.
  - intros x Hx. rewrite Hperm in Hx. apply elem_of_app in Hx as [Hx|Hx].
    + destruct (Hr _ Hx) as (k & Hk & Hlt). exists k. split; [done|]. lia.
    + apply list_elem_of_fmap in Hx as (r & -> & Hx).
      apply list_elem_of_lookup in Hx as [j Hj]. exists (IDs + N.of_nat j)%N.
      split; [by apply Hex|]. apply lookup_lt_Some in Hj. lia.
  - rewrite Hperm. apply NoDup_app. split; [done|]. split.
    + intros x Hx Hx'. destruct (Hr _ Hx) as (k & Hk & Hlt).
      rewrite (extra_names _ _ Hex) in Hx'.
      apply list_elem_of_fmap in Hx' as (j & Hj & _).
      rewrite Hk in Hj. apply String__inj in Hj. lia.
    + rewrite (extra_names _ _ Hex). apply NoDup_fmap_2; [|apply NoDup_seq].
      intros a b Hab. apply String__inj in Hab. lia.
Qed.

Lemma KeepsFresh_onScope {A} i f (m : ScopeM A) :
  Moves f m → KeepsFresh (Transformer.onScope i m).
Proof.
  intros Hm lo [this IDs] a s' HF (sc & sc' & IDs' & Hi & Hrun & ->)%onScope_Ok.
  apply Hm in Hrun as [HFr _]. by eapply Fresh_extend.
Qed.

Lemma KeepsFresh_bind {A B} (m : TransM A) (k : A → TransM B) :
  KeepsFresh m → (∀ a, KeepsFresh (k a)) → KeepsFresh (bind m k).
Proof.
  intros Hm Hk lo s b s'' HF (a & s' & H1 & H2)%bind_Ok.
  eapply Hk; [|exact H2]. by eapply Hm.
Qed.

Lemma KeepsFresh_ret {A} (a : A) : KeepsFresh (ret a).
Proof. by intros lo s a' s' HF [= <- <-]. Qed.

Lemma KeepsFresh_throw {A} e : KeepsFresh (throw e : TransM A).
Proof. by intros lo s a' s' HF. Qed.

Lemma KeepsFresh_liftResult {A} (r : Result A) : KeepsFresh (Transformer.liftResult r).
Proof.
  intros lo s a s' HF. unfold Transformer.liftResult. destruct r; [|done].
  by intros [= <- <-].
Qed.

Lemma KeepsFresh_pushStatement st :
  KeepsFresh (Transformer.pushStatement (N_Statement st)).
Proof.
  intros lo [this IDs] [] s' [Hc Hr Hnd] [= <-]. cbn [fst snd] in *.
  split; cbn [fst snd with_body ast_body]; [done|..];
    rewrite allMarkers_app; cbn; by rewrite app_nil_r.
Qed.

Lemma KeepsFresh_modify g :
  (∀ body, allMarkers (g body) = allMarkers body) →
  KeepsFresh (modify (λ '(this, IDs), (with_body g this, IDs))).
Proof.
  intros Hg lo [this IDs] [] s' [Hc Hr Hnd] [= <-]. cbn [fst snd] in *.
  split; cbn [fst snd with_body ast_body]; [done|..]; by rewrite Hg.
Qed.

Lemma KeepsFresh_createDeclaration node id :
  KeepsFresh (Transformer.createDeclaration node id).
Proof.
  intros lo [this IDs] a s' HF. destruct id as [id|].
  - unfold Transformer.createDeclaration. cbn [newDeclarationScope].
    destruct (declarations this !! getText id) as [existing|].
    + revert HF. apply KeepsFresh_bind;
        [eapply KeepsFresh_onScope, pushIdentifierReference_Balanced|intros _].
      apply KeepsFresh_bind; [|intros _; apply KeepsFresh_ret].
      apply KeepsFresh_modify. intros body.
      rewrite allMarkers_bumpAfter. apply allMarkers_alter, nodeMarkers_set_end.
    + intros [= <- <-]. destruct HF as [Hc Hr Hnd]. cbn [fst snd] in *.
      split; cbn [fst snd ast_body]; [done|..];
        rewrite allMarkers_app; cbn; by rewrite app_nil_r.
  - unfold Transformer.createDeclaration. cbn. intros [= <- <-].
    destruct HF as [Hc Hr Hnd]. cbn [fst snd] in *.
    split; cbn [fst snd ast_body with_body]; [lia|..]; rewrite allMarkers_app; cbn.
    + intros x Hx. apply elem_of_app in Hx as [Hx|Hx].
      * destruct (Hr _ Hx) as (k & Hk & Hlt). exists k. split; [done|]. lia.
      * apply list_elem_of_singleton in Hx as ->. exists IDs. split; [done|]. lia.
    + apply NoDup_app. split; [done|]. split; [|apply NoDup_singleton].
      intros x Hx Hx'. apply list_elem_of_singleton in Hx' as ->.
      destruct (Hr _ Hx) as (k & Hk & Hlt). apply String__inj in Hk. lia.
Qed.

Ltac keeps_fresh :=
  repeat first
    [ apply KeepsFresh_createDeclaration
    | apply KeepsFresh_pushStatement
    | apply KeepsFresh_liftResult
    | apply KeepsFresh_ret
    | apply KeepsFresh_throw
    | eapply KeepsFresh_onScope
    | apply KeepsFresh_bind; [|intros ?] ].

Lemma KeepsFresh_convertStatement node : KeepsFresh (Transformer.convertStatement node).
Proof.
  destruct node; cbn [Transformer.convertStatement];
    unfold Transformer.convertEnumDeclaration, Transformer.convertFunctionDeclaration,
      Transformer.convertClassOrInterfaceDeclaration,
      Transformer.convertTypeAliasDeclaration, Transformer.convertVariableStatement,
      Transformer.convertExportDeclaration, Transformer.convertExportAssignment,
      Transformer.convertNamespaceDeclaration, Transformer.removeStatement,
      Transformer.convertImportDeclaration, Transformer.convertImportEqualsDeclaration;
    repeat case_match; keeps_fresh;
    first [ apply pushIdentifierReference_Balanced | apply convertNamespace_Balanced
          | apply convertFunctionSignature_Balanced | apply convertClassLike_Balanced
          | apply convertTypeAlias_Balanced | apply whenSome_convertTypeNode_Balanced ].
Qed.

Lemma KeepsFresh_forEach {A} (f : A → TransM unit) l :
  (∀ x, KeepsFresh (f x)) → KeepsFresh (forEach f l).
Proof.
  intros Hf. induction l as [|x l IH]; cbn [forEach]; [apply KeepsFresh_ret|].
  apply KeepsFresh_bind; [apply Hf|intros _; apply IH].
Qed.

Lemma Fresh_new sourceFile IDs t IDs' :
  Transformer.new sourceFile IDs = Ok (t, IDs') → Fresh IDs (t, IDs').
Proof.
  unfold Transformer.new.
  destruct (forEach _ _ _) as [[[] s]|] eqn:Hrun; [|done]. intros [= ->].
  eapply (KeepsFresh_forEach _ _ KeepsFresh_convertStatement); [|exact Hrun].
  split; cbn; [lia| |constructor]. intros x Hx. by apply elem_of_nil in Hx.
Qed.

(** X8. Transforming two files one after the other on the shared counter IDs
    never lowers the counter, and the identifiers made up for the two programs
    (the callees of the IIFEs and the left-hand names of the references) are
    pairwise distinct, within a program and across them. *)
Theorem identifiers_distinct_across_files (sourceFile1 sourceFile2 : SourceFile)
    (IDs : N) (t1 : Transformer) (IDs1 : N) (t2 : Transformer) (IDs2 : N) :
  Transformer.new sourceFile1 IDs = Ok (t1, IDs1) →
  Transformer.new sourceFile2 IDs1 = Ok (t2, IDs2) →
  (IDs ≤ IDs1 ≤ IDs2)%N ∧
  NoDup (allMarkers (ast_body t1) ++ allMarkers (ast_body t2)).
Proof.
  intros [Hc1 Hr1 Hnd1]%Fresh_new [Hc2 Hr2 Hnd2]%Fresh_new. cbn [fst snd] in *.
  split; [lia|]. apply NoDup_app. split; [done|]. split; [|done].
  intros x Hx1 Hx2. destruct (Hr1 _ Hx1) as (k1 & -> & Hk1).
  destruct (Hr2 _ Hx2) as (k2 & Hk & Hk2). apply String__inj in Hk. lia.
Qed.

Lemma identifiers_distinct_across_files_witness :
  (1 ≤ 3 ≤ 5)%N ∧
  NoDup (allMarkers (ast_body (state_of (Transformer.new global_unit 1)).1) ++
         allMarkers (ast_body (state_of (Transformer.new merging_unit 3)).1)).
Proof.
  apply (identifiers_distinct_across_files global_unit merging_unit 1%N
           (state_of (Transformer.new global_unit 1)).1 3%N
           (state_of (Transformer.new merging_unit 3)).1 5%N);
    vm_compute; reflexivity.
Defined.

(** ** Ordered sets and maps *)

Lemma set_add_elem_of x y l : y ∈ set_add x l ↔ y = x ∨ y ∈ l.
Proof.
  unfold set_add. case_bool_decide as Hx.
  - split; [auto|]. by intros [->|?].
  - rewrite elem_of_app, list_elem_of_singleton. tauto.
Qed.

Lemma set_add_NoDup x l : NoDup l → NoDup (set_add x l).
Proof.
  intros Hl. unfold set_add. case_bool_decide as Hx; [done|].
  apply NoDup_app. split; [done|]. split; [|apply NoDup_singleton].
  intros y Hy Hy'. apply list_elem_of_singleton in Hy' as ->. done.
Qed.

Lemma foldl_set_add_elem_of {A} (f : A → string) (l : list A) (acc : list string) y :
  y ∈ foldl (λ refs ref, set_add (f ref) refs) acc l ↔ y ∈ acc ∨ y ∈ map f l.
Proof.
  revert acc. induction l as [|x l IH]; intros acc; cbn.
  - split; [auto|]. intros [?|Hn]; [done|by apply elem_of_nil in Hn].
  - rewrite IH, set_add_elem_of, elem_of_cons. tauto.
Qed.

Lemma foldl_set_add_NoDup {A} (f : A → string) (l : list A) (acc : list string) :
  NoDup acc → NoDup (foldl (λ refs ref, set_add (f ref) refs) acc l).
Proof.
  revert acc. induction l as [|x l IH]; intros acc Hacc; cbn; [done|].
  by apply IH, set_add_NoDup.
Qed.

Lemma map_get_Some {V} k (v : V) m : map_get k m = Some v → (k, v) ∈ m.
Proof.
  induction m as [|[k' v'] m IH]; cbn; [done|]. case_bool_decide as Hk.
  - intros [= ->]. subst. apply elem_of_cons. by left.
  - intros Hm. apply elem_of_cons. right. auto.
Qed.

Lemma map_get_None {V} k (m : list (string * V)) : map_get k m = None ↔ k ∉ map fst m.
Proof.
  induction m as [|[k' v'] m IH]; cbn.
  - split; [|done]. intros _ Hin. by apply elem_of_nil in Hin.
  - rewrite not_elem_of_cons. case_bool_decide as Hk.
    + split; [done|]. by intros [? _].
    + rewrite IH. split; [auto|]. by intros [_ ?].
Qed.

Lemma map_get_map_set_eq {V} k (v : V) m : map_get k (map_set k v m) = Some v.
Proof.
  induction m as [|[k' v'] m IH]; cbn.
  - by rewrite bool_decide_true.
  - case_bool_decide as Hk; cbn; [by rewrite bool_decide_true|].
    by rewrite bool_decide_false.
Qed.

Lemma map_get_map_set_ne {V} k k' (v : V) m :
  k ≠ k' → map_get k' (map_set k v m) = map_get k' m.
Proof.
  intros Hne. induction m as [|[k0 v0] m IH]; cbn.
  - by rewrite bool_decide_false.
  - case_bool_decide as Hk; cbn.
    + subst. by rewrite !bool_decide_false.
    + case_bool_decide; [done|]. apply IH.
Qed.

(** [map.set(k, v)] replaces the value of [k] where it stands, or adds the
    entry last *)
Lemma map_set_cases {V} k (v : V) m :
  (∃ m1 w m2, (m = m1 ++ (k, w) :: m2) ∧ (k ∉ map fst m1) ∧
              (map_set k v m = m1 ++ (k, v) :: m2)) ∨
  ((k ∉ map fst m) ∧ (map_set k v m = m ++ [(k, v)])).
Proof.
  induction m as [|[k' v'] m IH]; cbn.
  - right. split; [|done]. intros Hin. by apply elem_of_nil in Hin.
  - case_bool_decide as Hk.
    + subst. left. exists [], v', m. split; [done|]. split; [|done].
      intros Hin. by apply elem_of_nil in Hin.
    + destruct IH as [(m1 & w & m2 & -> & Hnot & ->)|[Hnot ->]].
      * left. exists ((k', v') :: m1), w, m2. split; [done|]. split; [|done].
        cbn. rewrite not_elem_of_cons. auto.
      * right. split; [|done]. rewrite not_elem_of_cons. auto.
Qed.

Lemma map_set_keys {V} k (v : V) m : NoDup (map fst m) → NoDup (map fst (map_set k v m)).
Proof.
  intros Hnd. destruct (map_set_cases k v m) as [(m1 & w & m2 & -> & _ & ->)|[Hnot ->]].
  - by rewrite map_app in *.
  - rewrite map_app. apply NoDup_app. split; [done|]. split; [|apply NoDup_singleton].
    intros x Hx Hx'. apply list_elem_of_singleton in Hx'. by subst.
Qed.

Lemma map_set_elem_of {V} k (v : V) m k' v' :
  (k', v') ∈ map_set k v m → (k', v') = (k, v) ∨ (k', v') ∈ m.
Proof.
  destruct (map_set_cases k v m) as [(m1 & w & m2 & -> & _ & ->)|[Hnot ->]].
  - rewrite !elem_of_app, !elem_of_cons. tauto.
  - rewrite elem_of_app, list_elem_of_singleton. tauto.
Qed.

Lemma map_set_values {V} k (v : V) m :
  NoDup (map snd m) → v ∉ map snd m → NoDup (map snd (map_set k v m)).
Proof.
  intros Hnd Hv. destruct (map_set_cases k v m) as [(m1 & w & m2 & -> & _ & ->)|[Hnot ->]].
  - rewrite map_app in *. cbn in *. apply NoDup_app in Hnd as (H1 & H12 & H2).
    apply NoDup_cons in H2 as [Hw H2]. rewrite elem_of_app, elem_of_cons in Hv.
    apply NoDup_app. split; [done|]. split.
    + intros x Hx Hx'. apply elem_of_cons in Hx' as [->|Hx']; [tauto|].
      apply (H12 x Hx). apply elem_of_cons. by right.
    + apply NoDup_cons. split; [tauto|done].
  - rewrite map_app. apply NoDup_app. split; [done|]. split; [|apply NoDup_singleton].
    intros x Hx Hx'. apply list_elem_of_singleton in Hx'. by subst.
Qed.

(** ** Sanitized names *)

Lemma isIdentifierChar_underscore : isIdentifierChar (Ascii.ascii_of_nat 95) = true.
Proof. done. Qed.

Lemma sanitize_length fileId : String.length (sanitize fileId) = String.length fileId.
Proof. induction fileId as [|c s IH]; cbn; [done|]. by rewrite IH. Qed.

Lemma sanitize_chars fileId :
  forallb isIdentifierChar (String.list_ascii_of_string (sanitize fileId)) = true.
Proof.
  induction fileId as [|c s IH]; cbn [sanitize String.list_ascii_of_string forallb]; [done|].
  rewrite IH, andb_true_r. destruct (isIdentifierChar c) eqn:Hc; [done|].
  apply isIdentifierChar_underscore.
Qed.

Lemma sanitize_fixed s :
  sanitize s = s ↔ forallb isIdentifierChar (String.list_ascii_of_string s) = true.
Proof.
  induction s as [|c s IH]; cbn [sanitize String.list_ascii_of_string forallb]; [done|].
  rewrite andb_true_iff, <- IH. split.
  - intros [= Hc Hs]. split; [|done]. destruct (isIdentifierChar c) eqn:E; [done|].
    rewrite <- Hc in E. by rewrite isIdentifierChar_underscore in E.
  - intros [-> ->]. done.
Qed.

Lemma underscores_chars k s :
  forallb isIdentifierChar (String.list_ascii_of_string s) = true →
  forallb isIdentifierChar (String.list_ascii_of_string (underscores k s)) = true.
Proof.
  intros Hs. induction k as [|k IH]; [done|].
  change (underscores (S k) s) with (String (Ascii.ascii_of_nat 95) (underscores k s)).
  cbn [String.list_ascii_of_string forallb]. by rewrite IH.
Qed.

Lemma underscores_length k s : String.length (underscores k s) = (k + String.length s)%nat.
Proof.
  induction k as [|k IH]; [done|].
  change (underscores (S k) s) with (String (Ascii.ascii_of_nat 95) (underscores k s)).
  cbn [String.length]. by rewrite IH.
Qed.

(** X11. The hint createNamespaceImport makes of a file id, with any number of
    underscores in front as uniqName adds them, has only the characters a-z,
    A-Z, 0-9, _ and $ and is as long as the file id plus the underscores;
    making the hint of a hint changes nothing, and a file id is its own hint
    exactly when it has only such characters. *)
Theorem sanitized_names_are_identifier_characters (fileId : string) (k : nat) :
  forallb isIdentifierChar
    (String.list_ascii_of_string (underscores k (sanitize fileId))) = true ∧
  String.length (underscores k (sanitize fileId)) = (k + String.length fileId)%nat ∧
  sanitize (sanitize fileId) = sanitize fileId ∧
  (sanitize fileId = fileId ↔
   forallb isIdentifierChar (String.list_ascii_of_string fileId) = true).
Proof.
  split; [apply underscores_chars, sanitize_chars|].
  split; [by rewrite underscores_length, sanitize_length|].
  split; [apply sanitize_fixed, sanitize_chars|apply sanitize_fixed].
Qed.

(** ** The names the pre-processor makes up *)

Section preprocessor_invariants.
Import PreProcess.
Context {T : Type} `{MagicString.Ops T}.

(** ** Pass 2 *)

Lemma checkInlineImports_invariant (P : @State T → Prop) (nodes : list Node) :
  Forall (λ node, ∀ s s', P s → checkInlineImport node s = Ok s' → P s') nodes →
  ∀ s s', P s → checkInlineImports nodes s = Ok s' → P s'.
Proof.
  induction 1 as [|node nodes Hnode _ IH]; intros s s' HP; cbn; [by intros [= <-]|].
  destruct (checkInlineImport node s) as [s1|] eqn:H1; [|done].
  apply IH. by eapply Hnode.
Qed.

Lemma checkInlineImport_invariant (P : @State T → Prop) :
  (∀ fileId s, P s → P (createNamespaceImport fileId s).2) →
  (∀ f s, P s → P (with_code f s)) →
  ∀ node s s', P s → checkInlineImport node s = Ok s' → P s'.
Proof.
  intros Himport Hcode.
  induction node as [pos argument ik dl children IH|children IH]; intros s s' HP;
    rewrite checkInlineImport_unfold; cbn [childrenOf];
    apply list_all_Forall in IH;
    pose proof (checkInlineImports_invariant P children IH s) as Hch;
    destruct (checkInlineImports children s) as [s1|]; try done;
    specialize (Hch s1 HP eq_refl).
  - destruct argument as [fileId|]; [|done].
    pose proof (Himport fileId s1 Hch) as Hi.
    destruct (createNamespaceImport fileId s1) as [importName s2]. intros [= <-].
    by apply Hcode.
  - by intros [= <-].
Qed.

Lemma pass2_invariant (P : @State T → Prop) :
  (∀ fileId s, P s → P (createNamespaceImport fileId s).2) →
  (∀ f s, P s → P (with_code f s)) →
  (∀ s, P s → defaultExport s = EmptyString →
     P {| code := code s;
          declaredNames := (uniqName "export_default" (declaredNames s)).2;
          exportedNames := exportedNames s;
          defaultExport := (uniqName "export_default" (declaredNames s)).1;
          inlineImports := inlineImports s; nameRanges := nameRanges s |}) →
  ∀ node s s', P s → pass2 node s = Ok s' → P s'.
Proof.
  intros Himport Hcode Hdefault node s s' HP. unfold pass2.
  pose proof (checkInlineImports_invariant P (forEachChild node)) as Hch.
  specialize (Hch (proj2 (Forall_forall _ _)
                     (λ n _, checkInlineImport_invariant P Himport Hcode n)) s).
  destruct (checkInlineImports (forEachChild node) s) as [s1|]; [|done].
  specialize (Hch s1 HP eq_refl).
  destruct (negb (matchesModifier node ExportDefault)); [by intros [= <-]|].
  pose proof (Hdefault s1 Hch) as Hdef1.
  destruct (uniqName "export_default" (declaredNames s1)) as [d dn].
  cbn [fst snd] in Hdef1.
  destruct (shape node) as [|kind [name|] ga ke nt|dl|]; try (by intros [= <-]);
  destruct kind; try (by intros [= <-]);
    (case_bool_decide as Hd; [|by intros [= <-]; apply Hcode]);
    intros [= <-]; apply Hcode; by apply Hdef1.
Qed.

Lemma pass2_loop_invariant (P : @State T → Prop) :
  (∀ fileId s, P s → P (createNamespaceImport fileId s).2) →
  (∀ f s, P s → P (with_code f s)) →
  (∀ s, P s → defaultExport s = EmptyString →
     P {| code := code s;
          declaredNames := (uniqName "export_default" (declaredNames s)).2;
          exportedNames := exportedNames s;
          defaultExport := (uniqName "export_default" (declaredNames s)).1;
          inlineImports := inlineImports s; nameRanges := nameRanges s |}) →
  ∀ nodes s s', P s → pass2_loop nodes s = Ok s' → P s'.
Proof.
  intros Himport Hcode Hdefault nodes.
  induction nodes as [|node nodes IH]; intros s s' HP; cbn; [by intros [= <-]|].
  destruct (pass2 node s) as [s1|] eqn:H1; [|done].
  apply IH. by eapply (pass2_invariant P).
Qed.

Lemma uniqName_spec (hint : string) (D : gset string) :
  ∃ k, (uniqName hint D = (underscores k hint, D ∪ {[underscores k hint]})) ∧
       (underscores k hint ∉ D).
Proof.
  destruct (uniqName_loop_spec D hint) as (k & Hk & Hnot & _).
  exists k. unfold uniqName. by rewrite Hk.
Qed.

Lemma createNamespaceImport_cases (fileId : string) (s : @State T) :
  (∃ name, map_get fileId (inlineImports s) = Some name ∧ name ≠ EmptyString ∧
           createNamespaceImport fileId s = (name, s)) ∨
  (∃ k, (underscores k (sanitize fileId) ∉ declaredNames s) ∧
        createNamespaceImport fileId s =
        (underscores k (sanitize fileId),
         {| code := code s;
            declaredNames := declaredNames s ∪ {[underscores k (sanitize fileId)]};
            exportedNames := exportedNames s; defaultExport := defaultExport s;
            inlineImports :=
              map_set fileId (underscores k (sanitize fileId)) (inlineImports s);
            nameRanges := nameRanges s |})).
Proof.
  unfold createNamespaceImport.
  destruct (uniqName_spec (sanitize fileId) (declaredNames s)) as (k & Hk & Hnot).
  destruct (map_get fileId (inlineImports s)) as [[|c n]|] eqn:Hget.
  - right. exists k. by rewrite Hk.
  - left. by exists (String c n).
  - right. exists k. by rewrite Hk.
Qed.

Lemma Synthesized_import D0 fileId (s : @State T) :
  Synthesized D0 s → Synthesized D0 (createNamespaceImport fileId s).2.
Proof.
  intros [Hd Hk Hn Hi Hdef Hap].
  destruct (createNamespaceImport_cases fileId s) as [(name & _ & _ & ->)|(k & Hnot & ->)];
    [done|]. cbn [snd].
  assert (underscores k (sanitize fileId) ∉ map snd (inlineImports s)) as Hfresh.
  { intros Hin. apply list_elem_of_fmap in Hin as ([f n] & Heq & Hin). cbn in Heq. subst.
    by destruct (Hi _ _ Hin) as [? _]. }
  split; cbn.
  - by apply union_subseteq_l'.
  - by apply map_set_keys.
  - by apply map_set_values.
  - intros f n [[= -> ->]|Hin]%map_set_elem_of.
    + split; [by apply elem_of_union_r, elem_of_singleton|]. split; [|by exists k].
      intros Hin. by apply Hnot, Hd.
    + destruct (Hi _ _ Hin) as (? & ? & ?). split; [by apply elem_of_union_l|done].
  - destruct Hdef as [?|?]; [by left|right; by apply elem_of_union_l].
  - intros f n [[= -> ->]|Hin]%map_set_elem_of Hne; [|by eapply Hap].
    intros Heq. destruct Hdef as [?|Hdef]; [done|]. rewrite <- Heq in Hdef. done.
Qed.

Lemma Synthesized_code D0 f (s : @State T) : Synthesized D0 s → Synthesized D0 (with_code f s).
Proof. by intros []. Qed.

Lemma Synthesized_default D0 (s : @State T) :
  Synthesized D0 s → defaultExport s = EmptyString →
  Synthesized D0
    {| code := code s;
       declaredNames := (uniqName "export_default" (declaredNames s)).2;
       exportedNames := exportedNames s;
       defaultExport := (uniqName "export_default" (declaredNames s)).1;
       inlineImports := inlineImports s; nameRanges := nameRanges s |}.
Proof.
  intros [Hd Hk Hn Hi Hdef Hap] Hempty.
  destruct (uniqName_spec "export_default" (declaredNames s)) as (k & -> & Hnot).
  split; cbn; try done.
  - by apply union_subseteq_l'.
  - intros f n Hin. destruct (Hi _ _ Hin) as (? & ? & ?).
    split; [by apply elem_of_union_l|done].
  - right. by apply elem_of_union_r, elem_of_singleton.
  - intros f n Hin _ Heq. destruct (Hi _ _ Hin) as (Hin' & _). by rewrite Heq in Hin'.
Qed.

(** ** Pass 1 *)

Lemma ExportsOk_declare name (s : @State T) : ExportsOk s → ExportsOk (declare name s).
Proof.
  intros (Hnd & Hin & Hdef & Hii). repeat split; cbn; try done.
  - intros n Hn. by apply elem_of_union_l, Hin.
  - destruct Hdef; [by left|right; by apply elem_of_union_l].
Qed.

Lemma ExportsOk_export name (s : @State T) :
  name ∈ declaredNames s → ExportsOk s → ExportsOk (export name s).
Proof.
  intros Hname (Hnd & Hin & Hdef & Hii). repeat split; cbn; try done.
  - by apply set_add_NoDup.
  - intros n [->|Hn]%set_add_elem_of; auto.
Qed.

Lemma ExportsOk_default name (s : @State T) :
  name ∈ declaredNames s → ExportsOk s → ExportsOk (set_defaultExport name s).
Proof. intros Hname (Hnd & Hin & Hdef & Hii). repeat split; cbn; try done. by right. Qed.

Lemma ExportsOk_ranges name range (s : @State T) :
  ExportsOk s → ExportsOk (pushNamedNode name range s).
Proof. by intros (Hnd & Hin & Hdef & Hii). Qed.

Lemma ExportsOk_code f (s : @State T) : ExportsOk s → ExportsOk (with_code f s).
Proof. by intros (Hnd & Hin & Hdef & Hii). Qed.

Lemma foldl_keeps {A} (P : @State T → Prop) (f : @State T → A → @State T) l s :
  (∀ s x, P s → P (f s x)) → P s → P (foldl f s l).
Proof.
  intros Hf. revert s. induction l as [|x l IH]; intros s HP; cbn; [done|].
  by apply IH, Hf.
Qed.

Lemma declared_declare name (s : @State T) : name ∈ declaredNames (declare name s).
Proof. cbn. by apply elem_of_union_r, elem_of_singleton. Qed.

Lemma ExportsOk_pass1 fullText (s : @State T) node :
  ExportsOk s → ExportsOk (pass1 fullText s node).
Proof.
  intros Hs. unfold pass1. destruct (shape node) as [|kind [name|] ga ke nt|dl|].
  - by apply ExportsOk_code.
  - apply ExportsOk_code.
    assert (ExportsOk (declare name s)) as Hd by by apply ExportsOk_declare.
    pose proof (declared_declare name s) as Hin.
    repeat case_match; cbn [negb];
      auto using ExportsOk_ranges, ExportsOk_default, ExportsOk_export.
  - by apply ExportsOk_code.
  - apply ExportsOk_code.
    match goal with |- context [with_code (fixModifiers node) ?s1] => set (s' := s1) end.
    assert (ExportsOk s') as Hnames.
    { subst s'. apply foldl_keeps; [|done]. intros s0 decl Hs0.
      pose proof (declared_declare (name_getText decl) s0).
      repeat case_match; auto using ExportsOk_declare, ExportsOk_export. }
    clearbody s'.
    destruct (declarations dl) as [|d1 [|d2 l]]; [by apply ExportsOk_code| |].
    + case_match; auto using ExportsOk_ranges, ExportsOk_code.
    + apply foldl_keeps; [|by apply ExportsOk_ranges, ExportsOk_code].
      intros s0 decl Hs0. case_match; auto using ExportsOk_ranges.
  - done.
Qed.

Lemma ExportsOk_afterPass1 sourceFile : ExportsOk (afterPass1 sourceFile).
Proof.
  unfold afterPass1. apply foldl_keeps; [intros; by apply ExportsOk_pass1|].
  repeat split; cbn; [constructor| |by left]. intros n Hn. by apply elem_of_nil in Hn.
Qed.

Lemma Synthesized_afterPass1 sourceFile :
  Synthesized (declaredNames (afterPass1 sourceFile)) (afterPass1 sourceFile).
Proof.
  destruct (ExportsOk_afterPass1 sourceFile) as (_ & _ & Hdef & Hii).
  split; try done; rewrite ?Hii; cbn; try apply NoDup_nil_2;
    intros f n Hin; by apply elem_of_nil in Hin.
Qed.

(** X9. When the second pass of preProcess succeeds, the names declared after
    the first pass are still declared, and the map of inline imports has
    distinct file ids and distinct names; each name is the sanitized file id
    behind some underscores, was not declared after the first pass, and
    differs from the default export name when there is one. *)
Theorem synthesized_names_clash_free (sourceFile : SourceFile) (s2 : @State T) :
  pass2_loop (statements sourceFile) (afterPass1 sourceFile) = Ok s2 →
  (declaredNames (afterPass1 sourceFile) ⊆ declaredNames s2) ∧
  NoDup (map fst (inlineImports s2)) ∧
  NoDup (map snd (inlineImports s2)) ∧
  (∀ fileId name, (fileId, name) ∈ inlineImports s2 →
     (name ∉ declaredNames (afterPass1 sourceFile)) ∧
     (∃ k, name = underscores k (sanitize fileId)) ∧
     (defaultExport s2 ≠ EmptyString → name ≠ defaultExport s2)).
Proof.
  intros Hrun.
  assert (Synthesized (declaredNames (afterPass1 sourceFile)) s2) as [Hd Hk Hn Hi Hdef Hap].
  { eapply (pass2_loop_invariant _ (Synthesized_import _) (Synthesized_code _)
              (Synthesized_default _)); [|exact Hrun].
    apply Synthesized_afterPass1. }
  split; [done|]. split; [done|]. split; [done|].
  intros f n Hin. destruct (Hi _ _ Hin) as (_ & Hnot & Hk'). split; [done|].
  split; [done|]. by eapply Hap.
Qed.

(** X10. For a file id that is not empty, createNamespaceImport returns a name
    that is not empty and records it under the file id; a second call with the
    same file id returns the same name and changes nothing further (no second
    import statement, no second declared name). *)
Theorem inline_import_reuses_name (fileId : string) (s : @State T) :
  fileId ≠ EmptyString →
  (createNamespaceImport fileId s).1 ≠ EmptyString ∧
  map_get fileId (inlineImports (createNamespaceImport fileId s).2)
    = Some (createNamespaceImport fileId s).1 ∧
  createNamespaceImport fileId (createNamespaceImport fileId s).2
    = createNamespaceImport fileId s.
Proof.
  intros Hne.
  destruct (createNamespaceImport_cases fileId s) as [(name & Hget & Hn & ->)|(k & Hnot & ->)];
    cbn [fst snd].
  - split; [done|]. split; [done|]. unfold createNamespaceImport. rewrite Hget.
    by destruct name.
  - assert (underscores k (sanitize fileId) ≠ EmptyString) as Hn.
    { intros Heq. apply (f_equal String.length) in Heq.
      rewrite underscores_length, sanitize_length in Heq. destruct fileId; [done|].
      cbn in Heq. lia. }
    split; [done|]. split; [apply map_get_map_set_eq|].
    unfold createNamespaceImport at 1. cbn [inlineImports]. rewrite map_get_map_set_eq.
    by destruct (underscores k (sanitize fileId)).
Qed.

(** the default export name through pass 2 *)
Lemma defaultExport_import fileId (s : @State T) :
  defaultExport (createNamespaceImport fileId s).2 = defaultExport s ∧
  declaredNames s ⊆ declaredNames (createNamespaceImport fileId s).2.
Proof.
  destruct (createNamespaceImport_cases fileId s) as [(name & _ & _ & ->)|(k & Hnot & ->)];
    cbn; [done|]. split; [done|]. by apply union_subseteq_l'.
Qed.

Lemma pass2_default (node : Statement) (s s' : @State T) :
  pass2 node s = Ok s' →
  (declaredNames s ⊆ declaredNames s') ∧
  (defaultExport s ≠ EmptyString → defaultExport s' = defaultExport s) ∧
  (defaultExport s = EmptyString →
     if namelessDefault node
     then ∃ k, (defaultExport s' = underscores k "export_default") ∧
               (defaultExport s' ∉ declaredNames s) ∧
               (defaultExport s' ∈ declaredNames s')
     else defaultExport s' = EmptyString).
Proof.
  unfold pass2, namelessDefault.
  pose proof (checkInlineImports_invariant
    (λ s1, defaultExport s1 = defaultExport s ∧ declaredNames s ⊆ declaredNames s1)
    (forEachChild node)) as Hch.
  assert (∀ n (s0 s1 : @State T),
    defaultExport s0 = defaultExport s ∧ declaredNames s ⊆ declaredNames s0 →
    checkInlineImport n s0 = Ok s1 →
    defaultExport s1 = defaultExport s ∧ declaredNames s ⊆ declaredNames s1) as Hnode.
  { intros n. apply (checkInlineImport_invariant
      (λ s1, defaultExport s1 = defaultExport s ∧ declaredNames s ⊆ declaredNames s1)).
    - intros f s0 [Hd Hsub]. destruct (defaultExport_import f s0) as [-> Hsub'].
      split; [done|]. by etrans.
    - by intros f s0 [Hd Hsub]. }
  specialize (Hch (proj2 (Forall_forall _ _) (λ n _, Hnode n)) s).
  destruct (checkInlineImports (forEachChild node) s) as [s1|]; [|done].
  destruct (Hch s1 (conj eq_refl (reflexivity _)) eq_refl) as [Hd1 Hsub1].
  clear Hch Hnode.
  destruct (uniqName_spec "export_default" (declaredNames s1)) as (k & Hk & Hnot).
  rewrite Hk.
  destruct (matchesModifier node ExportDefault); cbn [negb andb].
  2: { intros [= <-]. rewrite Hd1. by repeat split. }
  destruct (shape node) as [|kind [name|] ga ke nt|dl|].
  1,4,5: intros [= <-]; rewrite Hd1; by repeat split.
  - destruct kind; intros [= <-]; rewrite Hd1; by repeat split.
  - destruct kind; try (intros [= <-]; rewrite Hd1; by repeat split).
    + case_bool_decide as Hempty; intros [= <-]; cbn [with_code defaultExport declaredNames].
      * split; [by etrans; [|apply union_subseteq_l']|].
        split; [by rewrite <- Hd1|]. intros _. exists k. split; [done|].
        split; [by intros ?%Hsub1|by apply elem_of_union_r, elem_of_singleton].
      * split; [done|]. split; [done|]. by rewrite <- Hd1.
    + case_bool_decide as Hempty; intros [= <-]; cbn [with_code defaultExport declaredNames].
      * split; [by etrans; [|apply union_subseteq_l']|].
        split; [by rewrite <- Hd1|]. intros _. exists k. split; [done|].
        split; [by intros ?%Hsub1|by apply elem_of_union_r, elem_of_singleton].
      * split; [done|]. split; [done|]. by rewrite <- Hd1.
Qed.

(** X15. The second pass of preProcess only adds declared names and keeps a
    default export name that is set. When none is set, it ends with one
    exactly when some statement is a default-exported function or class
    without a name; that name is export_default behind some underscores, was
    not declared before and is declared afterwards. *)
Theorem default_export_name_synthesized (stmts : list Statement) (s1 s2 : @State T) :
  pass2_loop stmts s1 = Ok s2 →
  (declaredNames s1 ⊆ declaredNames s2) ∧
  (defaultExport s1 ≠ EmptyString → defaultExport s2 = defaultExport s1) ∧
  (defaultExport s1 = EmptyString →
     if existsb namelessDefault stmts
     then ∃ k, (defaultExport s2 = underscores k "export_default") ∧
               (defaultExport s2 ∉ declaredNames s1) ∧
               (defaultExport s2 ∈ declaredNames s2)
     else defaultExport s2 = EmptyString).
Proof.
  revert s1. induction stmts as [|node stmts IH]; intros s1; cbn [pass2_loop existsb].
  - intros [= <-]. by repeat split.
  - destruct (pass2 node s1) as [s|] eqn:H1; [|done]. intros H2.
    apply pass2_default in H1 as (Hsub1 & Hkeep1 & Hnew1).
    apply IH in H2 as (Hsub2 & Hkeep2 & Hnew2).
    split; [by etrans|]. split.
    { intros Hne. rewrite Hkeep2; [by apply Hkeep1|]. by rewrite Hkeep1. }
    intros Hempty. specialize (Hnew1 Hempty).
    destruct (namelessDefault node); cbn [orb].
    + destruct Hnew1 as (k & Hk & Hnot & Hin).
      assert (defaultExport s ≠ EmptyString) as Hne.
      { rewrite Hk. intros Heq. apply (f_equal String.length) in Heq.
        rewrite underscores_length in Heq. cbn in Heq. lia. }
      rewrite (Hkeep2 Hne). exists k. split; [done|]. split; [done|]. by apply Hsub2.
    + specialize (Hnew2 Hnew1). destruct (existsb namelessDefault stmts); [|done].
      destruct Hnew2 as (k & Hk & Hnot & Hin). exists k. split; [done|]. split; [|done].
      by intros ?%Hsub1.
Qed.

End preprocessor_invariants.

(** ** Ranges of a name *)

Lemma NoTouch_nil : NoTouch [].
Proof. by intros i a b Ha. Qed.

Lemma NoTouch_singleton r : NoTouch [r].
Proof. intros [|i] a b Ha Hb; done. Qed.

Lemma NoTouch_cons x y l : NoTouch (x :: y :: l) ↔ x.2 ≠ y.1 ∧ NoTouch (y :: l).
Proof.
  split.
  - intros Hn. split; [by apply (Hn 0%nat)|]. intros i a b Ha Hb. by apply (Hn (S i)).
  - intros [Hxy Hn] [|i] a b Ha Hb.
    + cbn in Ha, Hb. by injection Ha as <-; injection Hb as <-.
    + by apply (Hn i).
Qed.

Section preprocessor_ranges.
Import PreProcess.
Context {T : Type} `{MagicString.Ops T}.

Lemma pushRange_head range y l :
  ∃ y' l', pushRange range (y :: l) = y' :: l' ∧ y'.1 = y.1.
Proof.
  destruct l as [|z l]; cbn.
  - destruct (y.2 =? range.1); eauto.
  - eauto.
Qed.

Lemma pushRange_NoTouch range nodes :
  NoTouch nodes → pushRange range nodes ≠ [] ∧ NoTouch (pushRange range nodes).
Proof.
  induction nodes as [|x [|y l] IH]; intros Hn.
  - split; [done|apply NoTouch_singleton].
  - cbn. destruct (x.2 =? range.1) eqn:E.
    + split; [done|apply NoTouch_singleton].
    + split; [done|]. apply NoTouch_cons. split; [lia|apply NoTouch_singleton].
  - apply NoTouch_cons in Hn as [Hxy Hn]. destruct (IH Hn) as [_ IH'].
    change (pushRange range (x :: y :: l)) with (x :: pushRange range (y :: l)).
    split; [done|]. destruct (pushRange_head range y l) as (y' & l' & Heq & Hy).
    rewrite Heq in *. apply NoTouch_cons. split; [by rewrite Hy|done].
Qed.

Lemma RangesOk_pushNamedNode name range (s : @State T) :
  RangesOk s → RangesOk (pushNamedNode name range s).
Proof.
  intros [Hk Hr]. unfold RangesOk, pushNamedNode. cbn [nameRanges].
  destruct (map_get name (nameRanges s)) as [nodes|] eqn:Hget.
  - split; [by apply map_set_keys|]. apply Forall_forall. intros [k v] Hin.
    apply map_set_elem_of in Hin as [[= -> ->]|Hin].
    + cbn. apply pushRange_NoTouch.
      apply map_get_Some in Hget. by apply (proj1 (Forall_forall _ _) Hr _ Hget).
    + by apply (proj1 (Forall_forall _ _) Hr).
  - apply map_get_None in Hget. split.
    + rewrite map_app. apply NoDup_app. split; [done|]. split; [|apply NoDup_singleton].
      intros x Hx Hx'. apply list_elem_of_singleton in Hx'. by subst.
    + apply Forall_app. split; [done|]. constructor; [|constructor].
      split; [done|apply NoTouch_singleton].
Qed.

(** Pass 1 changes its state through five steps only. *)
Lemma pass1_keeps (P : @State T → Prop) fullText :
  (∀ f s, P s → P (with_code f s)) →
  (∀ name range s, P s → P (pushNamedNode name range s)) →
  (∀ name s, P s → P (declare name s)) →
  (∀ name s, P s → name ∈ declaredNames s → P (export name s)) →
  (∀ name s, P s → name ∈ declaredNames s → P (set_defaultExport name s)) →
  ∀ s node, P s → P (pass1 fullText s node).
Proof.
  intros Hcode Hrange Hdeclare Hexport Hdefault s node Hs. unfold pass1.
  destruct (shape node) as [|kind [name|] ga ke nt|dl|].
  - by apply Hcode.
  - apply Hcode. pose proof (declared_declare name s) as Hin.
    repeat case_match; cbn [negb]; auto.
  - by apply Hcode.
  - apply Hcode.
    match goal with |- context [with_code (fixModifiers node) ?s1] => set (s' := s1) end.
    assert (P s') as Hnames.
    { subst s'. apply foldl_keeps; [|done]. intros s0 decl Hs0.
      pose proof (declared_declare (name_getText decl) s0).
      repeat case_match; auto. }
    clearbody s'.
    destruct (declarations dl) as [|d1 [|d2 l]]; [by apply Hcode| |].
    + case_match; auto.
    + apply foldl_keeps; [|by apply Hrange, Hcode].
      intros s0 decl Hs0. case_match; auto.
  - done.
Qed.

Lemma RangesOk_afterPass1 sourceFile : RangesOk (afterPass1 sourceFile).
Proof.
  unfold afterPass1. apply foldl_keeps.
  - intros s node. apply pass1_keeps; try done. intros; by apply RangesOk_pushNamedNode.
  - split; cbn; constructor.
Qed.

Lemma nameRanges_import fileId (s : @State T) :
  nameRanges (createNamespaceImport fileId s).2 = nameRanges s ∧
  exportedNames (createNamespaceImport fileId s).2 = exportedNames s.
Proof.
  by destruct (createNamespaceImport_cases fileId s)
    as [(name & _ & _ & ->)|(k & Hnot & ->)].
Qed.

Lemma pass2_loop_keeps_collected stmts (s s2 : @State T) :
  pass2_loop stmts s = Ok s2 →
  nameRanges s2 = nameRanges s ∧ exportedNames s2 = exportedNames s.
Proof.
  apply (pass2_loop_invariant
    (λ s', nameRanges s' = nameRanges s ∧ exportedNames s' = exportedNames s)); try done.
  intros f s0 [<- <-]. apply nameRanges_import.
Qed.

(** X12. After the first pass of preProcess every name has one entry of
    ranges, no entry is empty, and in no entry a range ends where the next one
    starts (pushNamedNode has merged those); the second pass leaves the ranges
    as they are. *)
Theorem collected_ranges_never_empty_nor_touching (sourceFile : SourceFile) :
  NoDup (map fst (nameRanges (afterPass1 (T := T) sourceFile))) ∧
  (∀ name ranges, (name, ranges) ∈ nameRanges (afterPass1 (T := T) sourceFile) →
     is_Some (last ranges) ∧ NoTouch ranges) ∧
  (∀ s2 : @State T,
     pass2_loop (statements sourceFile) (afterPass1 sourceFile) = Ok s2 →
     nameRanges s2 = nameRanges (afterPass1 sourceFile)).
Proof.
  destruct (RangesOk_afterPass1 sourceFile) as [Hk Hr]. split; [done|]. split.
  - intros name ranges Hin.
    destruct (proj1 (Forall_forall _ _) Hr _ Hin) as [Hne Hn]. cbn in *.
    split; [|done]. destruct (last ranges) eqn:E; [done|]. by apply last_None in E.
  - intros s2 Hrun. by apply pass2_loop_keeps_collected in Hrun as [? _].
Qed.

(** the exported names only grow in pass 1 *)
Lemma exported_pass1 fullText n (s : @State T) node :
  n ∈ exportedNames s → n ∈ exportedNames (pass1 fullText s node).
Proof.
  apply (pass1_keeps (λ s', n ∈ exportedNames s')); try done.
  intros name s0 Hin _. cbn. apply set_add_elem_of. by right.
Qed.

Lemma exported_foldl_pass1 fullText n stmts (s : @State T) :
  n ∈ exportedNames s → n ∈ exportedNames (foldl (pass1 fullText) s stmts).
Proof.
  apply (foldl_keeps (λ s', n ∈ exportedNames s')). intros s0 node. apply exported_pass1.
Qed.

Lemma exported_declaration fullText (s : @State T) node kind name ga ke nt :
  shape node = Declaration kind (Some name) ga ke nt →
  matchesModifier node ExportDefault = false →
  matchesModifier node Export = true →
  name ∈ exportedNames (pass1 fullText s node).
Proof.
  intros Hshape Hdefault Hexport. unfold pass1. rewrite Hshape, Hdefault, Hexport.
  assert (name ∈ exportedNames (export name (declare name s))) as Hin.
  { cbn. apply set_add_elem_of. by left. }
  by destruct (negb ga).
Qed.

(** X13. After the first pass of preProcess the exported names hold no name
    twice, every exported name is a declared name, and the name of every named
    declaration that carries export without default is among them; the second
    pass leaves the exported names as they are. *)
Theorem exported_names_listed_once (sourceFile : SourceFile) :
  NoDup (exportedNames (afterPass1 (T := T) sourceFile)) ∧
  (∀ n, n ∈ exportedNames (afterPass1 (T := T) sourceFile) →
        n ∈ declaredNames (afterPass1 (T := T) sourceFile)) ∧
  (∀ node kind name ga ke nt,
     node ∈ statements sourceFile →
     shape node = Declaration kind (Some name) ga ke nt →
     matchesModifier node ExportDefault = false →
     matchesModifier node Export = true →
     name ∈ exportedNames (afterPass1 (T := T) sourceFile)) ∧
  (∀ s2 : @State T,
     pass2_loop (statements sourceFile) (afterPass1 sourceFile) = Ok s2 →
     exportedNames s2 = exportedNames (afterPass1 sourceFile)).
Proof.
  destruct (ExportsOk_afterPass1 (T := T) sourceFile) as (Hnd & Hin & _ & _).
  split; [done|]. split; [done|]. split.
  - intros node kind name ga ke nt Hnode Hshape Hdefault Hexport.
    unfold afterPass1. apply list_elem_of_split in Hnode as (l1 & l2 & ->).
    rewrite foldl_app. cbn [foldl]. apply exported_foldl_pass1.
    by eapply exported_declaration.
  - intros s2 Hrun. by apply pass2_loop_keeps_collected in Hrun as [_ ?].
Qed.

(** X14. When preProcess succeeds, the typeReferences it returns hold no name
    twice and are the file names of the type reference directives of the
    source file, no more and no less. *)
Theorem type_references_recorded_once (sourceFile : SourceFile) (out : @Output T) :
  preProcess sourceFile = Ok out →
  NoDup (out_typeReferences out) ∧
  ∀ x, x ∈ out_typeReferences out ↔ x ∈ map fileName (typeReferenceDirectives sourceFile).
Proof.
  unfold preProcess. destruct (pass2_loop _ _) as [s|]; [|done]. intros [= <-].
  cbn [finish out_typeReferences]. split.
  - apply foldl_set_add_NoDup. constructor.
  - intros x. rewrite foldl_set_add_elem_of. split; [|auto].
    intros [Hn|?]; [by apply elem_of_nil in Hn|done].
Qed.

End preprocessor_ranges.

Lemma synthesized_names_clash_free_witness :
  ∃ s2 : @PreProcess.State CharBuffer.t,
    PreProcess.pass2_loop (PreProcess.statements inline_import_unit)
      (afterPass1 inline_import_unit) = Ok s2 ∧
    (PreProcess.declaredNames (afterPass1 (T := CharBuffer.t) inline_import_unit)
       ⊆ PreProcess.declaredNames s2) ∧
    NoDup (map fst (PreProcess.inlineImports s2)) ∧
    NoDup (map snd (PreProcess.inlineImports s2)) ∧
    (∀ fileId name, (fileId, name) ∈ PreProcess.inlineImports s2 →
       (name ∉ PreProcess.declaredNames (afterPass1 (T := CharBuffer.t) inline_import_unit)) ∧
       (∃ k, name = underscores k (sanitize fileId)) ∧
       (PreProcess.defaultExport s2 ≠ EmptyString → name ≠ PreProcess.defaultExport s2)).
Proof.
  eexists. split; [vm_compute; reflexivity|].
  apply (synthesized_names_clash_free (T := CharBuffer.t) inline_import_unit).
  vm_compute. reflexivity.
Defined.

Lemma inline_import_reuses_name_witness :
  let s := PreProcess.initial (T := CharBuffer.t) inline_import_unit in
  (PreProcess.createNamespaceImport "./b" s).1 ≠ EmptyString ∧
  map_get "./b" (PreProcess.inlineImports (PreProcess.createNamespaceImport "./b" s).2)
    = Some (PreProcess.createNamespaceImport "./b" s).1 ∧
  PreProcess.createNamespaceImport "./b" (PreProcess.createNamespaceImport "./b" s).2
    = PreProcess.createNamespaceImport "./b" s.
Proof.
  apply (inline_import_reuses_name (T := CharBuffer.t) "./b"). discriminate.
Defined.

Lemma default_export_name_synthesized_witness :
  ∃ s2 : @PreProcess.State CharBuffer.t,
    PreProcess.pass2_loop (PreProcess.statements nameless_default_unit)
      (afterPass1 nameless_default_unit) = Ok s2 ∧
    (PreProcess.declaredNames (afterPass1 (T := CharBuffer.t) nameless_default_unit)
       ⊆ PreProcess.declaredNames s2) ∧
    (PreProcess.defaultExport (afterPass1 (T := CharBuffer.t) nameless_default_unit)
       ≠ EmptyString →
     PreProcess.defaultExport s2 =
     PreProcess.defaultExport (afterPass1 (T := CharBuffer.t) nameless_default_unit)) ∧
    (PreProcess.defaultExport (afterPass1 (T := CharBuffer.t) nameless_default_unit)
       = EmptyString →
     if existsb namelessDefault (PreProcess.statements nameless_default_unit)
     then ∃ k, (PreProcess.defaultExport s2 = underscores k "export_default") ∧
               (PreProcess.defaultExport s2 ∉
                PreProcess.declaredNames
                  (afterPass1 (T := CharBuffer.t) nameless_default_unit)) ∧
               (PreProcess.defaultExport s2 ∈ PreProcess.declaredNames s2)
     else PreProcess.defaultExport s2 = EmptyString).
Proof.
  eexists. split; [vm_compute; reflexivity|].
  apply (default_export_name_synthesized (T := CharBuffer.t)
           (PreProcess.statements nameless_default_unit)).
  vm_compute. reflexivity.
Defined.

Lemma type_references_recorded_once_witness :
  ∃ out : @PreProcess.Output CharBuffer.t,
    PreProcess.preProcess reference_unit = Ok out ∧
    NoDup (PreProcess.out_typeReferences out) ∧
    ∀ x, x ∈ PreProcess.out_typeReferences out ↔
         x ∈ map PreProcess.fileName (PreProcess.typeReferenceDirectives reference_unit).
Proof.
  eexists. split; [vm_compute; reflexivity|].
  apply (type_references_recorded_once (T := CharBuffer.t) reference_unit).
  vm_compute. reflexivity.
Defined.

(** what the buffer holds of the three units in the end *)
Example preprocessed_texts :
  (∃ out : @PreProcess.Output CharBuffer.t,
     PreProcess.preProcess inline_import_unit = Ok out ∧
     MagicString.toString (PreProcess.out_code out) =
       "import * as __b from " +:+ quoted "./b" +:+ ";" +:+ newline +:+
       "type A = __b.B;" +:+ newline +:+ "export { A };" +:+ newline) ∧
  (∃ out : @PreProcess.Output CharBuffer.t,
     PreProcess.preProcess nameless_default_unit = Ok out ∧
     MagicString.toString (PreProcess.out_code out) =
       "declare function export_default() {}" +:+ newline +:+
       "export default export_default;" +:+ newline) ∧
  (∃ out : @PreProcess.Output CharBuffer.t,
     PreProcess.preProcess reference_unit = Ok out ∧
     MagicString.toString (PreProcess.out_code out) = "export {};" ∧
     PreProcess.out_typeReferences out = [ "node" ]).
Proof.
  split; [|split]; eexists; (split; [vm_compute; reflexivity|]).
  - vm_compute. reflexivity.
  - vm_compute. reflexivity.
  - split; vm_compute; reflexivity.
Qed.

(** ** Strings *)

Lemma append_cons c a b : String c a +:+ b = String c (a +:+ b).
Proof. done. Qed.

Lemma append_nil_r a : a +:+ EmptyString = a.
Proof. induction a as [|c a IH]; [done|]. by rewrite append_cons, IH. Qed.

Lemma append_assoc a b c : (a +:+ b) +:+ c = a +:+ (b +:+ c).
Proof. induction a as [|x a IH]; [done|]. by rewrite !append_cons, IH. Qed.

Lemma length_append a b :
  String.length (a +:+ b) = (String.length a + String.length b)%nat.
Proof. induction a as [|x a IH]; [done|]. rewrite append_cons. cbn. by rewrite IH. Qed.

Lemma substring_full s : String.substring 0 (String.length s) s = s.
Proof. induction s as [|c s IH]; [done|]. cbn. by rewrite IH. Qed.

Lemma substring_length s n m :
  (n + m ≤ String.length s)%nat → String.length (String.substring n m s) = m.
Proof.
  revert n m. induction s as [|c s IH]; intros n m Hle; cbn in Hle.
  - assert (n = 0%nat) as -> by lia. assert (m = 0%nat) as -> by lia. done.
  - destruct n as [|n].
    + destruct m as [|m]; [done|]. cbn. rewrite IH; [done|lia].
    + cbn. apply IH. lia.
Qed.

Lemma substring_append_l pre X n m :
  (n + m ≤ String.length pre)%nat →
  String.substring n m (pre +:+ X) = String.substring n m pre.
Proof.
  revert n m. induction pre as [|c pre IH]; intros n m Hle; cbn in Hle.
  - assert (n = 0%nat) as -> by lia. assert (m = 0%nat) as -> by lia. by destruct X.
  - rewrite append_cons. destruct n as [|n].
    + destruct m as [|m]; [done|]. cbn. rewrite IH; [done|lia].
    + cbn. apply IH. lia.
Qed.

Lemma substring_append_tail pre X n m :
  (n + m)%nat = String.length pre →
  String.substring n (m + String.length X) (pre +:+ X) = String.substring n m pre +:+ X.
Proof.
  revert n m. induction pre as [|c pre IH]; intros n m Hle; cbn in Hle.
  - assert (n = 0%nat) as -> by lia. assert (m = 0%nat) as -> by lia.
    cbn [Nat.add]. rewrite substring_full. done.
  - rewrite append_cons. destruct n as [|n].
    + destruct m as [|m]; [done|]. cbn [Nat.add String.substring].
      rewrite IH by lia. done.
    + cbn [String.substring]. apply IH. lia.
Qed.

Lemma js_slice_append_before pre X st :
  0 ≤ st ≤ Z.of_nat (String.length pre) →
  js_slice (pre +:+ X) 0 st = js_slice pre 0 st.
Proof.
  intros Hst. unfold js_slice, clampIndex. rewrite length_append.
  replace (0 <? 0) with false by done.
  replace (st <? 0) with false by (symmetry; apply Z.ltb_ge; lia).
  rewrite !Z.min_l by lia. apply substring_append_l. lia.
Qed.

Lemma js_slice_from_append pre X e :
  0 ≤ e ≤ Z.of_nat (String.length pre) →
  js_slice_from (pre +:+ X) e = js_slice_from pre e +:+ X.
Proof.
  intros He. unfold js_slice_from, js_slice, clampIndex. rewrite length_append.
  replace (e <? 0) with false by (symmetry; apply Z.ltb_ge; lia).
  replace (Z.of_nat (String.length pre + String.length X) <? 0) with false
    by (symmetry; apply Z.ltb_ge; lia).
  replace (Z.of_nat (String.length pre) <? 0) with false
    by (symmetry; apply Z.ltb_ge; lia).
  rewrite !Z.min_l by lia.
  replace (Z.to_nat (Z.of_nat (String.length pre + String.length X) - e))
    with (Z.to_nat (Z.of_nat (String.length pre) - e) + String.length X)%nat by lia.
  apply substring_append_tail. lia.
Qed.

Lemma js_slice_length code st :
  0 ≤ st ≤ Z.of_nat (String.length code) →
  Z.of_nat (String.length (js_slice code 0 st)) = st.
Proof.
  intros Hst. unfold js_slice, clampIndex.
  replace (0 <? 0) with false by done.
  replace (st <? 0) with false by (symmetry; apply Z.ltb_ge; lia).
  rewrite !Z.min_l by lia. rewrite substring_length; lia.
Qed.

(** ** The places the namespace reconstructor edits *)

Section fixer_places_proofs.
Import NamespaceFixer.

Lemma Within_mono bound bound' namespaces :
  bound ≤ bound' → Within bound namespaces → Within bound' namespaces.
Proof.
  destruct namespaces as [|ns rest]; [done|]. cbn.
  intros ? (? & ? & ?). repeat split; try lia; done.
Qed.

(** [renderAliases] only appends to the code it is given *)
Lemma renderAliases_append itemTypes ns_name exports code :
  renderAliases itemTypes ns_name exports code =
  match renderAliases itemTypes ns_name exports EmptyString with
  | Ok text => Ok (code +:+ text)
  | Throw e => Throw e
  end.
Proof.
  revert code. induction exports as [|e rest IH]; intros code; cbn [renderAliases].
  - by rewrite append_nil_r.
  - destruct (renderAlias itemTypes ns_name e) as [text|err]; [|done].
    rewrite (IH (code +:+ text)), (IH (EmptyString +:+ text)).
    destruct (renderAliases itemTypes ns_name rest EmptyString) as [t|]; [|done].
    by rewrite append_assoc.
Qed.

(** What lies behind the places of the namespaces comes out as it went in. *)
Lemma fix_loop_append itemTypes namespaces pre X :
  Within (Z.of_nat (String.length pre)) namespaces →
  fix_loop itemTypes namespaces (pre +:+ X) =
  match fix_loop itemTypes namespaces pre with
  | Ok out => Ok (out +:+ X)
  | Throw e => Throw e
  end.
Proof.
  revert pre X. induction namespaces as [|ns rest IH]; intros pre X Hin; [done|].
  destruct Hin as (Hst & He & Hrest). cbn [fix_loop].
  rewrite js_slice_append_before, js_slice_from_append by lia.
  rewrite renderAliases_append.
  destruct (renderAliases itemTypes (name ns) (exports ns) EmptyString) as [text|]; [|done].
  rewrite <- !append_assoc. apply IH.
  eapply Within_mono; [|done]. rewrite !length_append.
  pose proof (js_slice_length pre (start (location ns))). lia.
Qed.

(** X16. When the places of the namespaces lie inside the code, last place
    first and none overlapping, the loop of fix gives the text before the
    first namespace of its list, fixed on its own for the remaining
    namespaces, followed by the aliases and the block of that namespace and by
    the text behind its place unchanged; it throws when the aliases of that
    namespace throw, or else when fixing the text before it throws. *)
Theorem fix_edits_in_place (itemTypes : Items) (ns : Namespace) (rest : list Namespace)
    (code : string) :
  Within (Z.of_nat (String.length code)) (ns :: rest) →
  fix_loop itemTypes (ns :: rest) code =
  match renderAliases itemTypes (name ns) (exports ns) EmptyString with
  | Throw e => Throw e
  | Ok aliases =>
      match fix_loop itemTypes rest (js_slice code 0 (start (location ns))) with
      | Throw e => Throw e
      | Ok before =>
          Ok (before +:+ aliases +:+ renderBlock ns +:+
              js_slice_from code (end_ (location ns)))
      end
  end.
Proof.
  intros (Hst & He & Hrest). cbn [fix_loop]. rewrite renderAliases_append.
  destruct (renderAliases itemTypes (name ns) (exports ns) EmptyString) as [text|]; [|done].
  rewrite append_assoc. apply fix_loop_append.
  by rewrite js_slice_length by lia.
Qed.

Lemma findNamespaces_step_Within node from upto rest namespaces items namespaces' items' :
  0 ≤ from → Ascending from upto (node :: rest) → Within from namespaces →
  findNamespaces_step node (namespaces, items) = Ok (namespaces', items') →
  Within (getEnd (Statement_pos node)) namespaces' ∧ 0 ≤ getEnd (Statement_pos node).
Proof.
  intros H0 (Hpos & Hspec & _) Hin Hstep.
  assert (Within (getEnd (Statement_pos node)) namespaces) as Hkeep
    by (eapply Within_mono; [|exact Hin]; lia).
  assert (Within (getStart (Statement_pos node)) namespaces) as Hstart
    by (eapply Within_mono; [|exact Hin]; lia).
  split; [|lia].
  destruct node; cbn [findNamespaces_step] in Hstep;
    repeat case_match; try injection Hstep as <- <-; try discriminate; try exact Hkeep;
    cbn in *; (split; [lia|]); (split; [lia|]); try exact Hstart.
  eapply Within_mono; [|exact Hin]. lia.
Qed.

Lemma findNamespaces_loop_Within nodes from upto namespaces items namespaces' items' :
  0 ≤ from → Ascending from upto nodes → Within from namespaces →
  findNamespaces_loop nodes (namespaces, items) = Ok (namespaces', items') →
  Within upto namespaces'.
Proof.
  revert from namespaces items. induction nodes as [|node rest IH];
    intros from namespaces items H0 Hasc Hin Hloop.
  - injection Hloop as <- <-. eapply Within_mono; [|done]. done.
  - cbn [findNamespaces_loop] in Hloop.
    destruct (findNamespaces_step node (namespaces, items)) as [[nss1 items1]|] eqn:Hstep;
      [|done].
    destruct (findNamespaces_step_Within _ _ _ _ _ _ _ _ H0 Hasc Hin Hstep) as [Hin1 H1].
    destruct Hasc as (_ & _ & Hasc). by eapply IH.
Qed.

(** X17. When the statements of the chunk follow each other inside its text,
    and the module specifier of an import or export lies inside its statement,
    the places of the namespaces findNamespaces returns lie inside the text,
    last place first, none overlapping the one before it. *)
Theorem namespaces_found_last_first (sourceFile : SourceFile)
    (namespaces : list Namespace) (itemTypes : Items) :
  Ascending 0 (Z.of_nat (String.length (getFullText sourceFile))) (statements sourceFile) →
  findNamespaces sourceFile = Ok (namespaces, itemTypes) →
  Within (Z.of_nat (String.length (getFullText sourceFile))) namespaces.
Proof.
  intros Hasc Hfind.
  eapply findNamespaces_loop_Within; [|exact Hasc| |exact Hfind]; [lia|done].
Qed.

Lemma findNamespaces_loop_unmarked nodes namespaces items :
  forallb (λ node, negb (isMarker node)) nodes = true →
  if existsb nameless nodes
  then findNamespaces_loop nodes (namespaces, items) = Throw (TypeError namelessMessage)
  else ∃ items', findNamespaces_loop nodes (namespaces, items) = Ok (namespaces, items').
Proof.
  revert items. induction nodes as [|node rest IH]; intros items Hall; [by eexists|].
  cbn [forallb] in Hall. apply andb_true_iff in Hall as [Hnode Hrest].
  cbn [findNamespaces_loop existsb]. destruct (nameless node) eqn:Hname.
  - destruct node as [| | ? [?|] ? | ? [?|] | | | | | |]; done.
  - assert (∃ items1, findNamespaces_step node (namespaces, items) = Ok (namespaces, items1))
      as [items1 ->].
    { destruct node; cbn [findNamespaces_step isMarker nameless] in *;
        repeat case_match; try discriminate; by eexists. }
    by apply IH.
Qed.

(** X18. For a chunk with no empty statement, no import or export from a
    relative module ending in .d.ts, and no variable statement of one
    declaration initialised by a call whose callee text has the Object.freeze
    marker: fix returns the text unchanged when every class and function
    declaration has a name, and throws the TypeError of reading the name of a
    class or function without one otherwise. *)
Theorem unmarked_chunk_unchanged (sourceFile : SourceFile) :
  forallb (λ node, negb (isMarker node)) (statements sourceFile) = true →
  fix_ sourceFile =
    if existsb nameless (statements sourceFile)
    then Throw (TypeError namelessMessage)
    else Ok (getFullText sourceFile).
Proof.
  intros Hall. unfold fix_, findNamespaces.
  pose proof (findNamespaces_loop_unmarked _ [] {| own := ∅; proto := None |} Hall) as Hloop.
  destruct (existsb nameless (statements sourceFile)).
  - by rewrite Hloop.
  - by destruct Hloop as [items' ->].
Qed.

End fixer_places_proofs.

Example typed_chunk_found :
  NamespaceFixer.findNamespaces typed_chunk =
  Ok ([typed_chunk_empty; typed_chunk_namespace], typed_chunk_items).
Proof. reflexivity. Qed.

Example typed_chunk_fixed :
  NamespaceFixer.fix_ typed_chunk =
  Ok ("interface A {}" +:+ newline +:+
      "type ns_A = A;" +:+ newline +:+
      "declare namespace ns {" +:+ newline +:+
      "  export {" +:+ newline +:+
      "    ns_A as A," +:+ newline +:+
      "  };" +:+ newline +:+
      "}" +:+ newline).
Proof. vm_compute. reflexivity. Qed.

Lemma fix_edits_in_place_witness :
  Within 82 [typed_chunk_empty; typed_chunk_namespace] ∧
  NamespaceFixer.fix_loop typed_chunk_items [typed_chunk_empty; typed_chunk_namespace]
    (NamespaceFixer.getFullText typed_chunk) =
  match NamespaceFixer.fix_loop typed_chunk_items [typed_chunk_namespace]
          (js_slice (NamespaceFixer.getFullText typed_chunk) 0 81) with
  | Throw e => Throw e
  | Ok before =>
      Ok (before +:+ EmptyString +:+ EmptyString +:+
          js_slice_from (NamespaceFixer.getFullText typed_chunk) 82)
  end.
Proof.
  split; [cbn; lia|].
  apply (fix_edits_in_place typed_chunk_items typed_chunk_empty [typed_chunk_namespace]
           (NamespaceFixer.getFullText typed_chunk)).
  vm_compute. intuition discriminate.
Defined.

Lemma namespaces_found_last_first_witness :
  Within (Z.of_nat (String.length (NamespaceFixer.getFullText typed_chunk)))
    [typed_chunk_empty; typed_chunk_namespace].
Proof.
  apply (namespaces_found_last_first typed_chunk _ typed_chunk_items).
  - vm_compute. intuition discriminate.
  - reflexivity.
Defined.

Lemma unmarked_chunk_unchanged_witness :
  NamespaceFixer.fix_ plain_chunk = Ok "interface A {}" ∧
  NamespaceFixer.fix_ nameless_chunk = Throw (TypeError namelessMessage).
Proof.
  split.
  - apply (unmarked_chunk_unchanged plain_chunk). reflexivity.
  - apply (unmarked_chunk_unchanged nameless_chunk). reflexivity.
Defined.

(** ** The plugin *)

Lemma split_on_cons c s : ∃ piece pieces, split_on c s = piece :: pieces.
Proof.
  destruct s as [|x s]; cbn; [by eexists _, _|].
  destruct (Ascii.eqb x c); [by eexists _, _|].
  destruct (split_on c s); by eexists _, _.
Qed.

Lemma join_cons sep x y l : join sep (x :: y :: l) = x +:+ sep +:+ join sep (y :: l).
Proof. done. Qed.

Lemma forwardSlashes_String x s :
  Plugin.forwardSlashes (String x s) =
  String (if Ascii.eqb x Plugin.backslash then Ascii.ascii_of_nat 47 else x)
         (Plugin.forwardSlashes s).
Proof.
  unfold Plugin.forwardSlashes. cbn [split_on].
  destruct (split_on_cons Plugin.backslash s) as (piece & pieces & ->).
  destruct (Ascii.eqb x Plugin.backslash).
  - by rewrite join_cons.
  - destruct pieces as [|piece' pieces]; [done|]. by rewrite !join_cons.
Qed.

Lemma join_newline_foldr code codes rest :
  (join newline (code :: codes) +:+ newline) +:+ rest =
  foldr (λ code text, code +:+ newline +:+ text) rest (code :: codes).
Proof.
  revert code. induction codes as [|code' codes IH]; intros code.
  - cbn [join foldr]. by rewrite append_assoc.
  - rewrite join_cons. change (foldr ?f rest (code :: ?l)) with (f code (foldr f rest l)).
    rewrite <- IH. by rewrite !append_assoc.
Qed.

Lemma writeBlock_foldr codes rest :
  Plugin.writeBlock codes +:+ rest = foldr (λ code text, code +:+ newline +:+ text) rest codes.
Proof. destruct codes as [|code codes]; [done|]. apply join_newline_foldr. Qed.

Lemma collected_references (allTypeReferences : list (string * list string)) modules acc ref :
  ref ∈ foldl (λ typeReferences fileName,
                 foldl (λ typeReferences ref, set_add ref typeReferences) typeReferences
                   (default [] (map_get (Plugin.forwardSlashes fileName) allTypeReferences)))
              acc modules ↔
  ref ∈ acc ∨
  ∃ fileName refs, fileName ∈ modules ∧
    map_get (Plugin.forwardSlashes fileName) allTypeReferences = Some refs ∧ ref ∈ refs.
Proof.
  revert acc. induction modules as [|fileName modules IH]; intros acc; cbn [foldl].
  - split; [auto|]. intros [?|(? & ? & Hin & _)]; [done|]. by apply elem_of_nil in Hin.
  - rewrite IH, (foldl_set_add_elem_of id), map_id. split.
    + intros [[?|Href]|(f & refs & Hf & Hget & Href)]; [by left| |].
      * right. destruct (map_get _ allTypeReferences) as [refs|] eqn:Hget;
          [|by apply elem_of_nil in Href].
        exists fileName, refs. split; [apply elem_of_cons; by left|done].
      * right. exists f, refs. split; [apply elem_of_cons; by right|done].
    + intros [?|(f & refs & Hf & Hget & Href)]; [by left; left|].
      apply elem_of_cons in Hf as [->|Hf].
      * left. right. by rewrite Hget.
      * right. by exists f, refs.
Qed.

Lemma collected_references_NoDup (allTypeReferences : list (string * list string)) modules acc :
  NoDup acc →
  NoDup (foldl (λ typeReferences fileName,
                  foldl (λ typeReferences ref, set_add ref typeReferences) typeReferences
                    (default [] (map_get (Plugin.forwardSlashes fileName) allTypeReferences)))
               acc modules).
Proof.
  revert acc. induction modules as [|fileName modules IH]; intros acc Hacc; [done|].
  cbn [foldl]. apply IH. by apply (foldl_set_add_NoDup id).
Qed.

(** X19. When renderChunk succeeds, its code is the output of the namespace
    fixer behind one reference directive per line, each line ended by a line
    feed: one directive for each type reference recorded for a module of the
    chunk (looked up by the module's name with backslashes turned into
    slashes), none of them twice. *)
Theorem chunk_header_lists_references_once
    (allTypeReferences : list (string * list string))
    (source : NamespaceFixer.SourceFile) (modules : list string) (code : string) :
  Plugin.renderChunk allTypeReferences source modules = Ok code →
  ∃ typeReferences fixed,
    NamespaceFixer.fix_ source = Ok fixed ∧
    code = foldr (λ ref text, Plugin.directive ref +:+ newline +:+ text) fixed
             typeReferences ∧
    NoDup typeReferences ∧
    ∀ ref, ref ∈ typeReferences ↔
      ∃ fileName refs, fileName ∈ modules ∧
        map_get (Plugin.forwardSlashes fileName) allTypeReferences = Some refs ∧
        ref ∈ refs.
Proof.
  unfold Plugin.renderChunk. set (typeReferences := foldl _ [] modules).
  destruct (NamespaceFixer.fix_ source) as [fixed|]; [|done].
  intros [= <-]. exists typeReferences, fixed. split; [done|]. split; [|split].
  - rewrite writeBlock_foldr. clear. induction typeReferences as [|ref l IH]; [done|].
    cbn [map foldr]. by rewrite IH.
  - apply collected_references_NoDup, NoDup_nil_2.
  - intros ref. unfold typeReferences. rewrite collected_references. split; [|auto].
    intros [Hin|?]; [|done]. by apply elem_of_nil in Hin.
Qed.

(** X21. Splitting a file name at backslashes and joining the pieces with
    slashes keeps its length, turns every backslash into a slash and leaves
    every other character where it is. *)
Theorem separators_normalised (fileName : string) :
  String.length (Plugin.forwardSlashes fileName) = String.length fileName ∧
  ∀ i, String.get i (Plugin.forwardSlashes fileName) =
       (λ c, if Ascii.eqb c Plugin.backslash then Ascii.ascii_of_nat 47 else c)
         <$> String.get i fileName.
Proof.
  induction fileName as [|x s [IHlen IHget]]; [split; [done|by intros []]|].
  rewrite forwardSlashes_String. split; [cbn; by rewrite IHlen|].
  intros [|i]; [done|]. cbn [String.get]. apply IHget.
Qed.

Section programs.
Context {C O : Type}.
Variable resolve : string → string.
Variable getCompilerOptions : string → O → Plugin.Options C.
Variable noOptions : C.
Variable overrideOptions : O.

Lemma step_inputs g main :
  allInputs (Plugin.createPrograms_step resolve getCompilerOptions overrideOptions g main) =
  allInputs g ++ (if endsWith main Plugin.dts then [] else [resolve main]).
Proof.
  unfold Plugin.createPrograms_step, allInputs.
  destruct (endsWith main Plugin.dts); [by rewrite app_nil_r|].
  destruct (Plugin.g_inputs g) as [|first inputs] eqn:Hin; cbn; [by rewrite app_nil_r|].
  destruct (String.eqb _ _); cbn.
  - by rewrite <- !app_assoc.
  - rewrite map_app, concat_app. cbn. by rewrite app_nil_r, <- !app_assoc.
Qed.

Lemma foldl_step_inputs input g :
  allInputs
    (foldl (Plugin.createPrograms_step resolve getCompilerOptions overrideOptions) g input) =
  allInputs g ++ map resolve (filter (λ main, negb (endsWith main Plugin.dts)) input).
Proof.
  revert g. induction input as [|main input IH]; intros g; cbn [foldl].
  - by rewrite app_nil_r.
  - rewrite IH, step_inputs. cbn [filter list_filter].
    destruct (endsWith main Plugin.dts); cbn.
    + rewrite decide_False by (by intros []). by rewrite app_nil_r.
    + rewrite decide_True by done. cbn. by rewrite <- app_assoc.
Qed.

Lemma step_nonempty g main :
  Forall (λ p, Plugin.rootInputs p ≠ []) (Plugin.g_programs g) →
  Forall (λ p, Plugin.rootInputs p ≠ [])
    (Plugin.g_programs
       (Plugin.createPrograms_step resolve getCompilerOptions overrideOptions g main)).
Proof.
  intros Hg. unfold Plugin.createPrograms_step.
  destruct (endsWith main Plugin.dts); [done|].
  destruct (Plugin.g_inputs g) as [|first inputs] eqn:Hin; cbn; [done|].
  destruct (String.eqb _ _); cbn; [done|].
  apply Forall_app. split; [done|]. by apply Forall_singleton.
Qed.

Lemma foldl_step_nonempty input g :
  Forall (λ p, Plugin.rootInputs p ≠ []) (Plugin.g_programs g) →
  Forall (λ p, Plugin.rootInputs p ≠ [])
    (Plugin.g_programs
       (foldl (Plugin.createPrograms_step resolve getCompilerOptions overrideOptions) g input)).
Proof.
  revert g. induction input as [|main input IH]; intros g Hg; [done|].
  cbn [foldl]. by apply IH, step_nonempty.
Qed.

Lemma createPrograms_inputs input :
  concat (map Plugin.rootInputs
            (Plugin.createPrograms resolve getCompilerOptions noOptions input overrideOptions)) =
  map resolve (filter (λ main, negb (endsWith main Plugin.dts)) input).
Proof.
  unfold Plugin.createPrograms.
  match goal with |- context [foldl _ ?g0 input] => set (g := g0) end.
  pose proof (foldl_step_inputs input g) as Hall. unfold allInputs in Hall.
  change (concat (map Plugin.rootInputs (Plugin.g_programs g)) ++ Plugin.g_inputs g)
    with (@nil string) in Hall. cbn [app] in Hall. rewrite <- Hall.
  destruct (Plugin.g_inputs (foldl _ g input)) as [|first inputs].
  - by rewrite app_nil_r.
  - rewrite map_app, concat_app. cbn. by rewrite app_nil_r.
Qed.

Lemma createPrograms_nonempty input :
  Forall (λ p, Plugin.rootInputs p ≠ [])
    (Plugin.createPrograms resolve getCompilerOptions noOptions input overrideOptions).
Proof.
  unfold Plugin.createPrograms.
  match goal with |- context [foldl _ ?g0 input] => set (g := g0) end.
  pose proof (foldl_step_nonempty input g (Forall_nil_2 _)) as Hall.
  destruct (Plugin.g_inputs (foldl _ g input)) as [|first inputs] eqn:Hin; [done|].
  apply Forall_app. split; [done|]. by apply Forall_singleton.
Qed.

(** X20. createPrograms puts each input that does not end in .d.ts, resolved,
    into one program and only one, in the order of the inputs; no program is
    without inputs, and no program is made exactly when every input ends in
    .d.ts. *)
Theorem every_input_in_one_program (input : list string) :
  concat (map Plugin.rootInputs
            (Plugin.createPrograms resolve getCompilerOptions noOptions input overrideOptions)) =
    map resolve (filter (λ main, negb (endsWith main Plugin.dts)) input) ∧
  Forall (λ p, Plugin.rootInputs p ≠ [])
    (Plugin.createPrograms resolve getCompilerOptions noOptions input overrideOptions) ∧
  (Plugin.createPrograms resolve getCompilerOptions noOptions input overrideOptions = [] ↔
   forallb (λ main, endsWith main Plugin.dts) input = true).
Proof.
  pose proof (createPrograms_inputs input) as Hall.
  pose proof (createPrograms_nonempty input) as Hne.
  set (programs := Plugin.createPrograms _ _ _ _ _) in *.
  split; [done|]. split; [done|]. split.
  - intros Hnil. rewrite Hnil in Hall. cbn in Hall. clear -Hall.
    induction input as [|main input IH]; [done|]. cbn [filter list_filter forallb] in *.
    destruct (endsWith main Plugin.dts); cbn in *.
    + rewrite decide_False in Hall by (by intros []). auto.
    + rewrite decide_True in Hall by done. done.
  - intros Hdts. assert (filter (λ main, negb (endsWith main Plugin.dts)) input = [])
      as Hfilter.
    { clear -Hdts. induction input as [|main input IH]; [done|].
      cbn [forallb] in Hdts. apply andb_true_iff in Hdts as [Hmain Hrest].
      cbn [filter list_filter]. rewrite Hmain. cbn.
      rewrite decide_False by (by intros []). auto. }
    rewrite Hfilter in Hall. cbn in Hall. clear -Hall Hne.
    destruct programs as [|p programs]; [done|].
    apply Forall_cons in Hne as [Hp _]. cbn in Hall.
    apply app_eq_nil in Hall as [? _]. done.
Qed.

End programs.

(** ** Newline-extended positions *)

Lemma get_Some_lt s i c : String.get i s = Some c → (i < String.length s)%nat.
Proof.
  revert i. induction s as [|x s IH]; intros i; [done|].
  destruct i as [|i]; cbn; [lia|]. intros Hget. apply IH in Hget. lia.
Qed.

Lemma newlineAt_lt fullText idx :
  PreProcess.newlineAt fullText idx = true → 0 ≤ idx < Z.of_nat (String.length fullText).
Proof.
  unfold PreProcess.newlineAt. intros [Hidx Hget%bool_decide_eq_true]%andb_true_iff.
  apply Z.leb_le in Hidx. apply get_Some_lt in Hget. lia.
Qed.

(** X22. For a node inside the text whose full start is not behind its end,
    the start and end the pre-processor extends over a line feed stay in order
    and inside the text: full start <= getStart <= getEnd, and end <= getEnd
    <= length of the text. *)
Theorem extended_positions_in_bounds (fullText : string) (node : Pos) :
  0 ≤ getFullStart node ≤ getEnd node →
  getEnd node ≤ Z.of_nat (String.length fullText) →
  getFullStart node ≤ PreProcess.getStart_ fullText node ≤ PreProcess.getEnd_ fullText node ∧
  getEnd node ≤ PreProcess.getEnd_ fullText node ≤ Z.of_nat (String.length fullText).
Proof.
  intros Hpos Hend. unfold PreProcess.getStart_, PreProcess.getEnd_.
  destruct (PreProcess.newlineAt fullText (getEnd node)) eqn:He.
  - apply newlineAt_lt in He.
    destruct (PreProcess.newlineAt fullText (getFullStart node)); lia.
  - destruct (PreProcess.newlineAt fullText (getFullStart node)) eqn:Hs; [|lia].
    destruct (decide (getFullStart node = getEnd node)) as [Heq|Hne]; [|lia].
    rewrite Heq in Hs. congruence.
Qed.

(** ** The groups of the programs *)

Section program_groups.
Context {C O : Type}.
Variable resolve : string → string.
Variable getCompilerOptions : string → O → Plugin.Options C.
Variable noOptions : C.
Variable overrideOptions : O.

Lemma Neighbours_snoc programs p :
  Neighbours getCompilerOptions overrideOptions programs →
  (∀ q, last programs = Some q → Apart getCompilerOptions overrideOptions q p) →
  Neighbours getCompilerOptions overrideOptions (programs ++ [p]).
Proof.
  intros Hn Hlast i a b Ha Hb.
  apply lookup_snoc_Some in Ha as [[Hi Ha]|[-> <-]];
    apply lookup_snoc_Some in Hb as [[Hi' Hb]|[Hi' <-]]; try lia.
  - by eapply Hn.
  - apply Hlast. rewrite last_lookup, <- Hi'. done.
Qed.

Lemma GroupOk_more inputs dtsFiles dirName options files :
  GroupOk getCompilerOptions overrideOptions inputs dtsFiles dirName options →
  GroupOk getCompilerOptions overrideOptions inputs
    (foldl (λ set f, set_add f set) dtsFiles files) dirName options.
Proof.
  intros (Hnd & Hfirst & Hall). split; [by apply (foldl_set_add_NoDup id)|].
  split; [done|]. intros main Hmain. destruct (Hall main Hmain) as [Hdir Hsub].
  split; [done|]. intros f Hf. apply (foldl_set_add_elem_of id). left. by apply Hsub.
Qed.

Lemma GroupOk_singleton main dtsFiles :
  NoDup dtsFiles →
  GroupOk getCompilerOptions overrideOptions [main]
    (foldl (λ set f, set_add f set) dtsFiles
       (Plugin.dtsFiles (getCompilerOptions main overrideOptions)))
    (Plugin.dirName (getCompilerOptions main overrideOptions))
    (Plugin.compilerOptions (getCompilerOptions main overrideOptions)).
Proof.
  intros Hnd. split; [by apply (foldl_set_add_NoDup id)|]. split.
  - by intros first rest [= <- <-].
  - intros m Hm. apply list_elem_of_singleton in Hm as ->. split; [done|].
    intros f Hf. apply (foldl_set_add_elem_of id). right. by rewrite map_id.
Qed.

Lemma step_GroupingOk g main :
  GroupingOk getCompilerOptions overrideOptions g →
  GroupingOk getCompilerOptions overrideOptions
    (Plugin.createPrograms_step resolve getCompilerOptions overrideOptions g main).
Proof.
  intros (Hcur & Hprogs & Hnb & Hlast). unfold Plugin.createPrograms_step.
  destruct (endsWith main Plugin.dts); [done|].
  set (options := getCompilerOptions (resolve main) overrideOptions).
  destruct (Plugin.g_inputs g) as [|first inputs] eqn:Hin.
  - split; [apply GroupOk_singleton, Hcur|]. cbn. split; [done|]. split; [done|].
    intros p Hp. by destruct (Hlast p Hp).
  - destruct (String.eqb (Plugin.dirName options) (Plugin.g_dirName g)) eqn:Hdir.
    + apply String.eqb_eq in Hdir. split; cbn.
      * apply (GroupOk_more _ _ _ _ (Plugin.dtsFiles options)) in Hcur.
        destruct Hcur as (Hnd & Hfirst & Hall). split; [done|]. split.
        -- intros f r Heq. apply (Hfirst f inputs). by injection Heq as -> _.
        -- intros m Hm. rewrite app_comm_cons in Hm.
           apply elem_of_app in Hm as [Hm|Hm]; [by apply Hall|].
           apply list_elem_of_singleton in Hm as ->.
           split; [done|]. intros f Hf. apply (foldl_set_add_elem_of id). right.
           by rewrite map_id.
      * split; [done|]. split; [done|]. intros p Hp. destruct (Hlast p Hp) as [_ Hp'].
        split; [|done]. by destruct inputs.
    + apply String.eqb_neq in Hdir. split; [apply GroupOk_singleton, Hcur|]. cbn.
      apply (GroupOk_more _ _ _ _ (Plugin.dtsFiles options)) in Hcur.
      split; [|split].
      * apply Forall_app. split; [done|]. apply Forall_singleton.
        by exists (Plugin.g_dirName g).
      * apply Neighbours_snoc; [done|]. intros q Hq m m' Hm Hm'. cbn in Hm'.
        destruct (Hlast q Hq) as [_ Hq']. destruct Hcur as (_ & _ & Hall).
        destruct (Hall m' Hm') as [-> _]. by apply Hq'.
      * intros p. rewrite last_snoc. intros [= <-]. split; [done|]. cbn.
        intros m Hm. destruct Hcur as (_ & _ & Hall). destruct (Hall m Hm) as [-> _].
        done.
Qed.

Lemma createPrograms_GroupingOk input :
  Forall (ProgramOk getCompilerOptions overrideOptions)
    (Plugin.createPrograms resolve getCompilerOptions noOptions input overrideOptions) ∧
  Neighbours getCompilerOptions overrideOptions
    (Plugin.createPrograms resolve getCompilerOptions noOptions input overrideOptions).
Proof.
  unfold Plugin.createPrograms.
  match goal with |- context [foldl _ ?g0 input] => set (g := g0) end.
  assert (GroupingOk getCompilerOptions overrideOptions g) as Hg.
  { split; [|split; [done|split; [by intros [] ? ? ?|done]]].
    split; [apply NoDup_nil_2|]. split; [done|]. by intros m Hm%elem_of_nil. }
  assert (GroupingOk getCompilerOptions overrideOptions
            (foldl (Plugin.createPrograms_step resolve getCompilerOptions overrideOptions)
               g input)) as (Hcur & Hprogs & Hnb & Hlast).
  { clearbody g. clear -Hg. revert g Hg. induction input as [|main input IH]; intros g Hg; [done|].
    cbn [foldl]. by apply IH, step_GroupingOk. }
  destruct (Plugin.g_inputs _) as [|first inputs] eqn:Hin; [done|]. split.
  - apply Forall_app. split; [done|]. apply Forall_singleton. by eexists.
  - apply Neighbours_snoc; [done|]. intros q Hq m m' Hm Hm'. cbn in Hm'.
    destruct (Hlast q Hq) as [_ Hq']. destruct Hcur as (_ & _ & Hall).
    destruct (Hall m' Hm') as [-> _]. by apply Hq'.
Qed.

(** X23. Every program createPrograms makes has a first input; the program has
    the compiler options of that input, each of its inputs has the dirName of
    that input, and its declaration files hold those of each of its inputs,
    none of them twice. *)
Theorem program_inputs_share_configuration (input : list string) (i : nat)
    (p : Plugin.Program C) :
  Plugin.createPrograms resolve getCompilerOptions noOptions input overrideOptions !! i
    = Some p →
  ∃ first rest,
    Plugin.rootInputs p = first :: rest ∧
    Plugin.programOptions p =
      Plugin.compilerOptions (getCompilerOptions first overrideOptions) ∧
    NoDup (Plugin.rootDtsFiles p) ∧
    ∀ main, main ∈ Plugin.rootInputs p →
      Plugin.dirName (getCompilerOptions main overrideOptions) =
        Plugin.dirName (getCompilerOptions first overrideOptions) ∧
      Plugin.dtsFiles (getCompilerOptions main overrideOptions) ⊆ Plugin.rootDtsFiles p.
Proof.
  intros Hp. destruct (createPrograms_GroupingOk input) as [Hall _].
  pose proof (createPrograms_nonempty resolve getCompilerOptions noOptions overrideOptions
                input) as Hne.
  rewrite Forall_lookup in Hall, Hne. specialize (Hall _ _ Hp). specialize (Hne _ _ Hp).
  destruct Hall as (dir & Hnd & Hfirst & Hmem).
  destruct (Plugin.rootInputs p) as [|first rest] eqn:Hin; [done|].
  exists first, rest. split; [done|]. split; [by eapply Hfirst|]. split; [done|].
  intros main Hmain. destruct (Hmem main Hmain) as [Hdir Hsub]. split; [|done].
  rewrite Hdir. symmetry. apply Hmem. apply elem_of_cons. by left.
Qed.

(** X24. An input of a program createPrograms makes and an input of the
    program made next have different dirNames. *)
Theorem neighbouring_programs_differ (input : list string) (i : nat)
    (p q : Plugin.Program C) (main main' : string) :
  Plugin.createPrograms resolve getCompilerOptions noOptions input overrideOptions !! i
    = Some p →
  Plugin.createPrograms resolve getCompilerOptions noOptions input overrideOptions !! S i
    = Some q →
  main ∈ Plugin.rootInputs p → main' ∈ Plugin.rootInputs q →
  Plugin.dirName (getCompilerOptions main overrideOptions) ≠
  Plugin.dirName (getCompilerOptions main' overrideOptions).
Proof.
  intros Hp Hq. destruct (createPrograms_GroupingOk input) as [_ Hnb].
  by apply (Hnb i p q).
Qed.

End program_groups.

Example example_programs :
  Plugin.createPrograms example_resolve example_getCompilerOptions 0%nat example_input tt =
  [ example_program_a; example_program_b ].
Proof. reflexivity. Qed.

Lemma chunk_header_lists_references_once_witness :
  ∃ typeReferences fixed,
    NamespaceFixer.fix_ plain_chunk = Ok fixed ∧
    "/// <reference types=" +:+ quoted "node" +:+ " />" +:+ newline +:+
    "/// <reference types=" +:+ quoted "react" +:+ " />" +:+ newline +:+
    "interface A {}" =
      foldr (λ ref text, Plugin.directive ref +:+ newline +:+ text) fixed typeReferences ∧
    NoDup typeReferences ∧
    ∀ ref, ref ∈ typeReferences ↔
      ∃ fileName refs, fileName ∈ example_modules ∧
        map_get (Plugin.forwardSlashes fileName) example_allTypeReferences = Some refs ∧
        ref ∈ refs.
Proof.
  apply (chunk_header_lists_references_once example_allTypeReferences plain_chunk
           example_modules).
  reflexivity.
Defined.

Lemma extended_positions_in_bounds_witness :
  11 ≤ PreProcess.getStart_ two_lines (mkPos 11 12 23)
     ≤ PreProcess.getEnd_ two_lines (mkPos 11 12 23) ∧
  23 ≤ PreProcess.getEnd_ two_lines (mkPos 11 12 23) ≤ Z.of_nat (String.length two_lines).
Proof.
  apply (extended_positions_in_bounds two_lines (mkPos 11 12 23)).
  - cbn. lia.
  - vm_compute. discriminate.
Defined.

Lemma program_inputs_share_configuration_witness :
  ∃ first rest,
    Plugin.rootInputs example_program_a = first :: rest ∧
    Plugin.programOptions example_program_a =
      Plugin.compilerOptions (example_getCompilerOptions first tt) ∧
    NoDup (Plugin.rootDtsFiles example_program_a) ∧
    ∀ main, main ∈ Plugin.rootInputs example_program_a →
      Plugin.dirName (example_getCompilerOptions main tt) =
        Plugin.dirName (example_getCompilerOptions first tt) ∧
      Plugin.dtsFiles (example_getCompilerOptions main tt) ⊆
        Plugin.rootDtsFiles example_program_a.
Proof.
  apply (program_inputs_share_configuration example_resolve example_getCompilerOptions
           0%nat tt example_input 0 example_program_a).
  reflexivity.
Defined.

Lemma neighbouring_programs_differ_witness :
  Plugin.dirName (example_getCompilerOptions "/root/a/y.ts" tt) ≠
  Plugin.dirName (example_getCompilerOptions "/root/b/z.ts" tt).
Proof.
  apply (neighbouring_programs_differ example_resolve example_getCompilerOptions
           0%nat tt example_input 0 example_program_a example_program_b).
  - reflexivity.
  - reflexivity.
  - apply elem_of_cons. right. apply elem_of_cons. by left.
  - apply elem_of_cons. by left.
Defined.
